(** * Pixel pipeline of the glitch editor: a shallow embedding

    The development follows [src/utils/glitchAlgorithms.ts] (glitch passes
    and the blend stage) and [src/utils/chromaKeyAlgorithms.ts] (chroma
    key).  Pixel buffers are [Uint8ClampedArray]s, modelled as lists of
    integers indexed from 0; JavaScript numbers are IEEE-754 binary64
    values, modelled with the executable specification of the Standard
    Library ([SpecFloat]); [Math.random()] is an explicit stream of draws. *)

From Stdlib Require Import ZArith Lia SpecFloat QArith Qminmax Qround Ascii String.
From Stdlib Require Import Permutation Sorted.
From stdpp Require Import base list.

Local Open Scope Z_scope.

(** ** JavaScript numbers *)

Module JS.

Definition prec : Z := 53.
Definition emax : Z := 1024.

Definition number := spec_float.

(** An integer literal or an integer-valued quantity (exact below 2^53). *)
Definition num (z : Z) : number := binary_normalize prec emax z 0 false.

Definition NaN : number := S754_nan.

Definition add : number -> number -> number := SFadd prec emax.
Definition sub : number -> number -> number := SFsub prec emax.
Definition mul : number -> number -> number := SFmul prec emax.
Definition div : number -> number -> number := SFdiv prec emax.
Definition sqrt : number -> number := SFsqrt prec emax.

(** [a < b], [a <= b], [a > b], [a >= b]: all false on NaN. *)
Definition lt (a b : number) : bool := SFltb a b.
Definition le (a b : number) : bool := SFleb a b.
Definition gt (a b : number) : bool := SFltb b a.
Definition ge (a b : number) : bool := SFleb b a.

(** The value of an array read: [undefined] converts to NaN. *)
Definition of_read (o : option Z) : number :=
  match o with Some z => num z | None => NaN end.

(** Integer-valued results of [Math.floor]. *)
Inductive jsint := JNaN | JNegInf | JPosInf | JInt (z : Z).

Definition floor (x : number) : jsint :=
  match x with
  | S754_nan => JNaN
  | S754_infinity true => JNegInf
  | S754_infinity false => JPosInf
  | S754_zero _ => JInt 0
  | S754_finite s m e => JInt (Z.shiftl (if s then Z.neg m else Z.pos m) e)
  end.

Definition floorZ (x : number) : Z :=
  match floor x with JInt z => z | _ => 0 end.

(** Sums, comparisons and the [ToInt32] conversion of such values.  The
    integers the code computes with (indices, coordinates, byte sums) are
    far below 2^53, where double arithmetic on integers is exact; a shift
    of larger magnitude only meets a coordinate to be clamped, and the
    clamp of the exact sum is the clamp of the rounded one. *)
Definition jadd (a b : jsint) : jsint :=
  match a, b with
  | JNaN, _ | _, JNaN => JNaN
  | JNegInf, JPosInf | JPosInf, JNegInf => JNaN
  | JNegInf, _ | _, JNegInf => JNegInf
  | JPosInf, _ | _, JPosInf => JPosInf
  | JInt x, JInt y => JInt (x + y)
  end.

Definition jlt (a : jsint) (z : Z) : bool :=
  match a with
  | JNaN | JPosInf => false
  | JNegInf => true
  | JInt x => x <? z
  end.

Definition jge (a : jsint) (z : Z) : bool :=
  match a with
  | JNaN | JNegInf => false
  | JPosInf => true
  | JInt x => z <=? x
  end.

Definition jtoInt (a : jsint) : Z :=
  match a with JInt x => x | _ => 0 end.

(** Number of iterations of [for (let b = 0; b < bound; b++)]; [None]
    when the loop does not terminate. *)
Definition loop_count (bound : jsint) : option nat :=
  match bound with
  | JNaN | JNegInf => Some 0%nat
  | JPosInf => None
  | JInt z => if z <=? 2 ^ 53 then Some (Z.to_nat z) else None
  end.

(** [Math.min] and [Math.max] of two numbers (NaN if either is NaN). *)
Definition min (a b : number) : number :=
  match SFcompare a b with
  | None => NaN
  | Some Gt => b
  | Some _ => a
  end.

Definition max (a b : number) : number :=
  match SFcompare a b with
  | None => NaN
  | Some Lt => b
  | Some _ => a
  end.

(** Storing a number into a [Uint8ClampedArray] (ToUint8Clamp): NaN
    becomes 0, the value is clamped to [0, 255] and rounded to the
    nearest integer, ties to even. *)
Definition round_half_even (m : Z) (e : Z) : Z :=
  if 0 <=? e then Z.shiftl m e
  else
    let d := Z.shiftl 1 (- e) in
    let q := m / d in
    let r := m mod d in
    match 2 * r ?= d with
    | Lt => q
    | Gt => q + 1
    | Eq => if Z.even q then q else q + 1
    end.

Definition toUint8Clamp (x : number) : Z :=
  match x with
  | S754_nan => 0
  | S754_zero _ => 0
  | S754_infinity s => if s then 0 else 255
  | S754_finite true _ _ => 0
  | S754_finite false m e =>
      Z.min 255 (round_half_even (Z.pos m) e)
  end.

(** Storing an integer into a [Uint8ClampedArray]. *)
Definition clamp8 (z : Z) : Z := Z.max 0 (Z.min 255 z).

(** 32-bit conversions behind [<<], [>>] and [>>>]. *)
Definition toUint32 (z : Z) : Z := z mod 2 ^ 32.
Definition toInt32 (z : Z) : Z := (z + 2 ^ 31) mod 2 ^ 32 - 2 ^ 31.

(** [v << 2], [v >> 1] and [v >>> 2] on an integer-valued number. *)
Definition shl2 (v : Z) : Z := toInt32 (4 * toInt32 v).
Definition sar1 (v : Z) : Z := toInt32 v / 2.
Definition shr2 (v : Z) : Z := toUint32 v / 4.

End JS.

Import JS.

(** ** Typed arrays *)

(** [data[i]]: [None] stands for [undefined] (index out of range). *)
Definition rd (data : list Z) (i : Z) : option Z :=
  if decide (0 ≤ i) then data !! Z.to_nat i else None.

(** [data[i] = v] for an in-range byte value; out of range, nothing happens. *)
Definition wr (data : list Z) (i : Z) (v : Z) : list Z :=
  if decide (0 ≤ i) then <[Z.to_nat i := v]> data else data.

(** The value stored when the right-hand side is an array read:
    [undefined] is stored as 0. *)
Definition rd0 (data : list Z) (i : Z) : Z := default 0 (rd data i).

(** [for (let i = 0; i < len; i += 4) body(i)] *)
Definition pixel_starts (len : nat) : list Z :=
  (λ k : nat, 4 * Z.of_nat k) <$> seq 0 ((len + 3) `div` 4)%nat.

Definition for_pixels {S : Type} (len : nat) (body : Z → S → S) (s : S) : S :=
  foldl (λ s i, body i s) s (pixel_starts len).

(** ** Threshold (silhouette) pass: [applyThreshold] *)

Definition brightness3 (r g b : option Z) : number :=
  match r, g, b with
  | Some r, Some g, Some b => div (num (r + g + b)) (num 3)
  | _, _, _ => NaN
  end.

Definition threshold_body (threshold : number) (i : Z) (data : list Z) : list Z :=
  let r := rd data i in
  let g := rd data (i + 1) in
  let b := rd data (i + 2) in
  let brightness := brightness3 r g b in
  let val := if ge brightness threshold then 255 else 0 in
  wr (wr (wr data i val) (i + 1) val) (i + 2) val.

Definition applyThreshold (data : list Z) (threshold : number) : list Z :=
  if le threshold (num 0) then data
  else for_pixels (length data) (threshold_body threshold) data.

(** ** Random draws, exceptions and loops *)

(** The successive results of [Math.random()]. *)
Definition rng := nat → number.

Inductive outcome (A : Type) : Type :=
| Done (a : A)
| RangeError
| Diverges.
Arguments Done {A} a.
Arguments RangeError {A}.
Arguments Diverges {A}.

(** Computations that consume draws and may throw or loop forever. *)
Definition M (A : Type) : Type := rng → nat → outcome (A * nat).

#[export] Instance M_ret : MRet M := λ A a _ n, Done (a, n).

#[export] Instance M_bind : MBind M :=
  λ A B f m g n,
    match m g n with
    | Done (a, n') => f a g n'
    | RangeError => RangeError
    | Diverges => Diverges
    end.

Definition lift {A} (o : outcome A) : M A :=
  λ _ n,
    match o with
    | Done a => Done (a, n)
    | RangeError => RangeError
    | Diverges => Diverges
    end.

(** [Math.random()] *)
Definition random : M number := λ g n, Done (g n, S n).

Fixpoint forM {A S : Type} (l : list A) (body : A → S → M S) (s : S) : M S :=
  match l with
  | [] => mret s
  | x :: l' => s' ← body x s ; forM l' body s'
  end.

(** [for (let b = 0; b < bound; b++) body(b)] *)
Definition repeatM {S : Type} (bound : jsint) (body : Z → S → M S) (s : S) : M S :=
  match loop_count bound with
  | None => lift Diverges
  | Some n => forM (seqZ 0 (Z.of_nat n)) body s
  end.

(** [Math.floor(Math.random() * (max - min + 1)) + min]; a draw is a
    finite number of [0, 1), so the floor is a small integer and the sum
    is exact. *)
Definition randomInt_of (min max : Z) (r : number) : Z :=
  floorZ (mul r (num (max - min + 1))) + min.

Definition randomInt (min max : Z) : M Z :=
  r ← random ; mret (randomInt_of min max r).

(** [data.subarray(begin, end)]: the elements the view covers. *)
Definition rel_index (len i : Z) : Z :=
  if i <? 0 then Z.max (len + i) 0 else Z.min i len.

Definition subarray (data : list Z) (begin end_ : Z) : list Z :=
  let len := Z.of_nat (length data) in
  let b := rel_index len begin in
  let e := rel_index len end_ in
  take (Z.to_nat (e - b)) (drop (Z.to_nat b) data).

(** [data.set(source, offset)]: throws when the source does not fit. *)
Definition set (data source : list Z) (offset : Z) : outcome (list Z) :=
  if (offset <? 0) || (Z.of_nat (length data) <? offset + Z.of_nat (length source))
  then RangeError
  else Done (take (Z.to_nat offset) data ++ source
             ++ drop (Z.to_nat offset + length source) data).

(** [Array.prototype.sort] with the comparator [(a, b) => key(a) - key(b)]:
    the sort is stable, hence its result is the one of any stable sort;
    here insertion from the right. *)
Fixpoint insert_by {A : Type} (key : A → Z) (x : A) (l : list A) : list A :=
  match l with
  | [] => [x]
  | y :: l' => if key x <=? key y then x :: l else y :: insert_by key x l'
  end.

Definition array_sort {A : Type} (key : A → Z) (l : list A) : list A :=
  foldr (insert_by key) [] l.

(** ** Glitch passes *)

(** [rgbShift] is a whole number of pixels; the other fields are numbers. *)
Record GlitchParams := {
  amount : number;
  seed : number;
  iterations : number;
  quality : number;
  rgbShift : Z;
  blockShift : number;
  scanlines : number;
  pixelSort : number;
}.

(** *** Channel shift: [applyRGBShift] *)

(** [a % b] and the exact quotient [a / b] on integers; NaN when [b] is 0. *)
Definition js_rem (a : jsint) (b : Z) : jsint :=
  match a with
  | JInt x => if b =? 0 then JNaN else JInt (Z.rem x b)
  | _ => JNaN
  end.

Definition js_quot (a : jsint) (b : Z) : jsint :=
  match a with
  | JInt x => if b =? 0 then JNaN else JInt (Z.quot x b)
  | _ => JNaN
  end.

Definition jmul (a : jsint) (b : Z) : jsint :=
  match a with
  | JInt x => JInt (x * b)
  | JNaN => JNaN
  | JPosInf => if b =? 0 then JNaN else if 0 <? b then JPosInf else JNegInf
  | JNegInf => if b =? 0 then JNaN else if 0 <? b then JNegInf else JPosInf
  end.

Definition jneg (a : jsint) : jsint :=
  match a with
  | JInt x => JInt (- x)
  | JNegInf => JPosInf
  | JPosInf => JNegInf
  | JNaN => JNaN
  end.

Definition rgbShift_body (buffer : list Z) (width offset : Z) (len : Z)
    (i : Z) (data : list Z) : list Z :=
  let pixelIndex := shr2 i in
  let x := js_rem (JInt pixelIndex) width in
  let y := js_quot (jadd (JInt pixelIndex) (jneg x)) width in
  let newX := js_rem (jadd x (JInt offset)) width in
  let newIndex := shl2 (jtoInt (jadd (jmul y width) newX)) in
  if newIndex <? len then wr data i (rd0 buffer newIndex) else data.

Definition applyRGBShift (data : list Z) (width height offset : Z) : list Z :=
  if offset =? 0 then data
  else
    let buffer := data in
    let len := length data in
    for_pixels len (rgbShift_body buffer width offset (Z.of_nat len)) data.

(** *** Block displacement: [applyBlockShift] *)

Record block := {
  blockW : Z; blockH : Z;
  srcX : Z; srcY : Z;
  destX : Z; destY : Z;
}.

(** The random choices of one block. *)
Definition blockShift_pick (width height : Z) : M block :=
  let maxBlockSize := width / 4 in
  blockW ← randomInt 10 maxBlockSize;
  blockH ← randomInt 2 50;
  srcX ← randomInt 0 (width - blockW);
  srcY ← randomInt 0 (height - blockH);
  shiftX ← randomInt (-50) 50;
  shiftY ← randomInt (-10) 10;
  let destX := Z.min (width - blockW) (Z.max 0 (srcX + shiftX)) in
  let destY := Z.min (height - blockH) (Z.max 0 (srcY + shiftY)) in
  mret {| blockW := blockW; blockH := blockH; srcX := srcX; srcY := srcY;
          destX := destX; destY := destY |}.

(** The copy of row [y] of the block, behind its bounds check. *)
Definition blockShift_row (width : Z) (blk : block) (y : Z) (data : list Z)
    : M (list Z) :=
  let srcStart := ((srcY blk + y) * width + srcX blk) * 4 in
  let destStart := ((destY blk + y) * width + destX blk) * 4 in
  let len := blockW blk * 4 in
  let data_length := Z.of_nat (length data) in
  if (srcStart + len <? data_length) && (destStart + len <? data_length)
     && (0 <=? srcStart) && (0 <=? destStart)
  then
    let rowData := subarray data srcStart (srcStart + len) in
    lift (set data rowData destStart)
  else mret data.

Definition blockShift_block (width height : Z) (b : Z) (data : list Z) : M (list Z) :=
  blk ← blockShift_pick width height;
  forM (seqZ 0 (blockH blk)) (blockShift_row width blk) data.

Definition applyBlockShift (data : list Z) (width height : Z)
    (intensity : number) (seed : number) : M (list Z) :=
  if SFeqb intensity (num 0) then mret data
  else
    let numBlocks := floor (mul (div intensity (num 100)) (num 30)) in
    repeatM numBlocks (blockShift_block width height) data.

(** *** Scanline degradation: [applyScanlines] *)

Definition scale_channel (factor : number) (data : list Z) (i : Z) : list Z :=
  wr data i (toUint8Clamp (mul (of_read (rd data i)) factor)).

Definition add_noise (noise : number) (data : list Z) (i : Z) : list Z :=
  wr data i (toUint8Clamp (add (of_read (rd data i)) noise)).

Definition scanlines_pixel (factor noiseChance : number) (i : Z) (data : list Z)
    : M (list Z) :=
  let data := scale_channel factor data i in
  let data := scale_channel factor data (i + 1) in
  let data := scale_channel factor data (i + 2) in
  r ← random ;
  if lt r noiseChance then
    r' ← random ;
    let noise := mul (sub r' (div (num 1) (num 2))) (num 50) in
    let data := add_noise noise data i in
    let data := add_noise noise data (i + 1) in
    let data := add_noise noise data (i + 2) in
    mret data
  else mret data.

(** [y % lineSkip === 0] *)
Definition on_scanline (y : Z) (lineSkip : jsint) : bool :=
  match lineSkip with
  | JNaN => false
  | JNegInf | JPosInf => y =? 0
  | JInt l => if l =? 0 then false else Z.rem y l =? 0
  end.

Definition scanlines_row (width : Z) (lineSkip : jsint) (factor noiseChance : number)
    (y : Z) (data : list Z) : M (list Z) :=
  if on_scanline y lineSkip then
    let rowStart := y * width * 4 in
    forM ((λ k, rowStart + 4 * k) <$> seqZ 0 width)
         (scanlines_pixel factor noiseChance) data
  else mret data.

Definition applyScanlines (data : list Z) (width height : Z) (intensity : number)
    : M (list Z) :=
  if SFeqb intensity (num 0) then mret data
  else
    let lineSkip := jadd (JInt 2) (floor (div (sub (num 10) intensity) (num 2))) in
    let factor := add (div (num 1) (num 2)) (div (sub (num 10) intensity) (num 20)) in
    let noiseChance := mul intensity (div (num 1) (num 100)) in
    forM (seqZ 0 height) (scanlines_row width lineSkip factor noiseChance) data.

(** *** Row pixel sort: [applyPixelSort] *)

(** One selected row.  A negative [width] makes [new Int32Array(width)]
    throw.  A read of the comparator or of the copy is [undefined] only when
    the row is not inside the array, and then [data.set] throws after the
    sort, which has no effect of its own: the value taken for such a read
    (0) does not matter. *)
Definition pixelSort_row (width : Z) (y : Z) (data : list Z) : outcome (list Z) :=
  let rowStart := (y * width) * 4 in
  if width <? 0 then RangeError
  else
    let rowIndices := seqZ 0 width in
    let brightness a :=
      let idx := rowStart + a * 4 in
      rd0 data idx + rd0 data (idx + 1) + rd0 data (idx + 2) in
    let rowIndices := array_sort brightness rowIndices in
    let tempRow :=
      flat_map (λ a, let originalIdx := rowStart + a * 4 in
                     [rd0 data originalIdx; rd0 data (originalIdx + 1);
                      rd0 data (originalIdx + 2); rd0 data (originalIdx + 3)])
               rowIndices in
    set data tempRow rowStart.

Definition pixelSort_step (width height : Z) (r : Z) (data : list Z) : M (list Z) :=
  y ← randomInt 0 (height - 1) ;
  lift (pixelSort_row width y data).

Definition rowsToSort (height : Z) (threshold : number) : jsint :=
  floor (mul (num height) (div threshold (num 100))).

Definition applyPixelSort (data : list Z) (width height : Z) (threshold : number)
    : M (list Z) :=
  if SFeqb threshold (num 0) then mret data
  else repeatM (rowsToSort height threshold) (pixelSort_step width height) data.

(** *** The glitch stage: [processImage] *)

Definition processImage (data : list Z) (width height : Z) (params : GlitchParams)
    : M (list Z) :=
  data ← applyPixelSort data width height (pixelSort params) ;
  data ← applyBlockShift data width height (blockShift params) (seed params) ;
  let data := applyRGBShift data width height (rgbShift params) in
  applyScanlines data width height (scanlines params).

(** ** Blend stage: [renderBlend] *)

Inductive BlendMode := displacement | difference | hard_mix | interlace.

Record BlendParams := {
  mode : BlendMode;
  mix : number;
  threshold : number;
  scale : number;
}.

(** [Math.floor(((channel / 127.5) - 1) * displacementScale)] *)
Definition displace (channel : option Z) (displacementScale : number) : jsint :=
  floor (mul (sub (div (of_read channel) (div (num 255) (num 2))) (num 1))
             displacementScale).

(** [if (src < 0) src = 0; else if (src >= n) src = n - 1;] *)
Definition clamp_coord (src : jsint) (n : Z) : jsint :=
  if jlt src 0 then JInt 0 else if jge src n then JInt (n - 1) else src.

Definition displacement_source (blendData : list Z) (width height : Z)
    (displacementScale : number) (i : Z) : Z :=
  let br := rd blendData i in
  let shiftX := displace br displacementScale in
  let shiftY := displace (rd blendData (i + 1)) displacementScale in
  let pixelIndex := shr2 i in
  let x := js_rem (JInt pixelIndex) width in
  let y := js_quot (jadd (JInt pixelIndex) (jneg x)) width in
  let srcX := clamp_coord (jadd x shiftX) width in
  let srcY := clamp_coord (jadd y shiftY) height in
  shl2 (jtoInt (jadd (jmul srcY width) srcX)).

Definition displacement_pixel (buffer blendData : list Z) (width height : Z)
    (mix displacementScale : number) (i : Z) (targetData : list Z) : M (list Z) :=
  let srcIdx := displacement_source blendData width height displacementScale i in
  r ← random;
  if gt r (sub (num 1) mix) then
    let targetData := wr targetData i (rd0 buffer srcIdx) in
    let targetData := wr targetData (i + 1) (rd0 buffer (srcIdx + 1)) in
    let targetData := wr targetData (i + 2) (rd0 buffer (srcIdx + 2)) in
    mret targetData
  else mret targetData.

(** [Math.abs(targetData[i] - blendData[i])], as stored. *)
Definition abs_diff (a b : option Z) : Z :=
  match a, b with
  | Some a, Some b => clamp8 (Z.abs (a - b))
  | _, _ => 0
  end.

Definition difference_pixel (blendData : list Z) (mix : number)
    (i : Z) (targetData : list Z) : M (list Z) :=
  r ← random;
  if lt r mix then
    let targetData := wr targetData i (abs_diff (rd targetData i) (rd blendData i)) in
    let targetData :=
      wr targetData (i + 1) (abs_diff (rd targetData (i + 1)) (rd blendData (i + 1))) in
    let targetData :=
      wr targetData (i + 2) (abs_diff (rd targetData (i + 2)) (rd blendData (i + 2))) in
    mret targetData
  else mret targetData.

(** [(targetData[i] + blendData[i]) >> 1] *)
Definition avg_channel (a b : option Z) : Z :=
  match a, b with
  | Some a, Some b => sar1 (a + b)
  | _, _ => 0
  end.

(** [r > thresh ? Math.min(255, r + mix255) : Math.max(0, r - mix255)],
    as stored into the clamped array. *)
Definition hardMix_channel (thresh mix255 : number) (r : Z) : Z :=
  toUint8Clamp
    (if gt (num r) thresh then min (num 255) (add (num r) mix255)
     else max (num 0) (sub (num r) mix255)).

Definition hardMix_pixel (blendData : list Z) (thresh mix255 : number)
    (i : Z) (targetData : list Z) : list Z :=
  let r := avg_channel (rd targetData i) (rd blendData i) in
  let g := avg_channel (rd targetData (i + 1)) (rd blendData (i + 1)) in
  let b := avg_channel (rd targetData (i + 2)) (rd blendData (i + 2)) in
  let targetData := wr targetData i (hardMix_channel thresh mix255 r) in
  let targetData := wr targetData (i + 1) (hardMix_channel thresh mix255 g) in
  let targetData := wr targetData (i + 2) (hardMix_channel thresh mix255 b) in
  targetData.

(** [Math.max(1, Math.floor(params.scale / 10))] *)
Definition interlace_rowHeight (scale : number) : jsint :=
  match floor (div scale (num 10)) with
  | JNaN => JNaN
  | JNegInf => JInt 1
  | JPosInf => JPosInf
  | JInt z => JInt (Z.max 1 z)
  end.

(** [Math.floor(y / rowHeight) % 2 === 0] for a row [y >= 0] *)
Definition interlace_useImg2 (y : Z) (rowHeight : jsint) : bool :=
  match rowHeight with
  | JNaN | JNegInf => false
  | JPosInf => true
  | JInt h => Z.rem (y / h) 2 =? 0
  end.

Definition interlace_row (blendData : list Z) (width : Z) (mix : number)
    (rowHeight : jsint) (targetData : list Z) (y : Z) : list Z :=
  if interlace_useImg2 y rowHeight && gt mix (div (num 1) (num 10)) then
    let rowStart := y * width * 4 in
    foldl (λ targetData j, wr targetData j (rd0 blendData j)) targetData
          (seqZ rowStart (width * 4))
  else targetData.

Definition renderBlend (targetData : list Z) (img2 : option (list Z))
    (width height : Z) (params : BlendParams) : M (list Z) :=
  match img2 with
  | None => mret targetData
  | Some blendData =>
      let len := length targetData in
      let mix := div (mix params) (num 100) in
      let displacementScale := mul (scale params) (num 2) in
      let thresh := threshold params in
      let mix255 := mul mix (num 255) in
      let rowHeight := interlace_rowHeight (scale params) in
      match mode params with
      | displacement =>
          let buffer := targetData in
          forM (pixel_starts len)
               (displacement_pixel buffer blendData width height mix displacementScale)
               targetData
      | difference =>
          if gt mix (num 0) then
            forM (pixel_starts len) (difference_pixel blendData mix) targetData
          else mret targetData
      | hard_mix =>
          mret (for_pixels len (hardMix_pixel blendData thresh mix255) targetData)
      | interlace =>
          mret (foldl (interlace_row blendData width mix rowHeight) targetData
                      (seqZ 0 height))
      end
  end.

(** ** Chroma key: [hexToRgb] and [applyChromaKey] *)

Record rgb := { red : Z; green : Z; blue : Z }.

Record ChromaParams := {
  enabled : bool;
  keyColor : string;
  similarity : number;
  smoothness : number;
  spill : number;
}.

(** The character class [[a-f\d]] under the [i] flag. *)
Definition is_hex_digit (c : ascii) : bool :=
  let n := Z.of_N (N_of_ascii c) in
  ((48 <=? n) && (n <=? 57)) || ((97 <=? n) && (n <=? 102))
  || ((65 <=? n) && (n <=? 70)).

Definition hex_digit_value (c : ascii) : Z :=
  let n := Z.of_N (N_of_ascii c) in
  if n <=? 57 then n - 48 else if n <=? 70 then n - 55 else n - 87.

(** [parseInt(s, 16)] on a capture of two hexadecimal digits. *)
Definition parseInt16 (c1 c2 : ascii) : Z :=
  16 * hex_digit_value c1 + hex_digit_value c2.

(** [([a-f\d]{2})([a-f\d]{2})([a-f\d]{2})$] *)
Definition match_groups (s : string) : option ((ascii * ascii) * (ascii * ascii) * (ascii * ascii)) :=
  match s with
  | String c1 (String c2 (String c3 (String c4 (String c5 (String c6 EmptyString))))) =>
      if forallb is_hex_digit [c1; c2; c3; c4; c5; c6]
      then Some ((c1, c2), (c3, c4), (c5, c6))
      else None
  | _ => None
  end.

(** [/^#?([a-f\d]{2})([a-f\d]{2})([a-f\d]{2})$/i.exec(hex)]: the optional
    [#] is tried first, then skipped. *)
Definition regex_exec (hex : string) : option ((ascii * ascii) * (ascii * ascii) * (ascii * ascii)) :=
  match hex with
  | String "#"%char rest =>
      match match_groups rest with
      | Some result => Some result
      | None => match_groups hex
      end
  | _ => match_groups hex
  end.

Definition hexToRgb (hex : string) : rgb :=
  match regex_exec hex with
  | Some (g1, g2, g3) =>
      {| red := parseInt16 (fst g1) (snd g1);
         green := parseInt16 (fst g2) (snd g2);
         blue := parseInt16 (fst g3) (snd g3) |}
  | None => {| red := 0; green := 255; blue := 0 |}
  end.

(** The literals 0.299, 0.587 and 0.114. *)
Definition c299 : number := div (num 299) (num 1000).
Definition c587 : number := div (num 587) (num 1000).
Definition c114 : number := div (num 114) (num 1000).

Definition distSq_of (target : rgb) (r g b : option Z) : number :=
  match r, g, b with
  | Some r, Some g, Some b =>
      let dr := r - red target in
      let dg := g - green target in
      let db := b - blue target in
      num (dr * dr + dg * dg + db * db)
  | _, _, _ => NaN
  end.

Definition desaturate (spill gray : number) (c : option Z) : Z :=
  toUint8Clamp (add (mul (of_read c) (sub (num 1) spill)) (mul gray spill)).

Definition chroma_pixel (target : rgb) (distThresholdSq smoothRange spill : number)
    (i4 : Z) (data : list Z) : list Z :=
  let r := rd data i4 in
  let g := rd data (i4 + 1) in
  let b := rd data (i4 + 2) in
  let distSq := distSq_of target r g b in
  if lt distSq distThresholdSq then wr data (i4 + 3) 0
  else if gt smoothRange (num 0)
          && lt distSq (add distThresholdSq (mul smoothRange smoothRange)) then
    let dist := sqrt distSq in
    let base := sqrt distThresholdSq in
    let alpha := div (sub dist base) smoothRange in
    let data :=
      if gt spill (num 0) then
        let gray := add (add (mul (of_read r) c299) (mul (of_read g) c587))
                        (mul (of_read b) c114) in
        let data := wr data i4 (desaturate spill gray r) in
        let data := wr data (i4 + 1) (desaturate spill gray g) in
        let data := wr data (i4 + 2) (desaturate spill gray b) in
        data
      else data in
    wr data (i4 + 3) (toUint8Clamp (mul alpha (num 255)))
  else data.

Definition applyChromaKey (data : list Z) (width height : Z) (params : ChromaParams)
    : list Z :=
  if negb (enabled params) then data
  else
    let target := hexToRgb (keyColor params) in
    let distThreshold := mul (similarity params) (num 442) in
    let distThresholdSq := mul distThreshold distThreshold in
    let smoothRange := mul (smoothness params) (num 100) in
    for_pixels (length data)
               (chroma_pixel target distThresholdSq smoothRange (spill params)) data.

(** * Specifications used by the theorems *)

(** An RGBA pixel and the pixels of a row of a [W]-wide buffer. *)
Definition pixel : Type := Z * Z * Z * Z.

Definition pixel_at (data : list Z) (i : Z) : pixel :=
  (rd0 data i, rd0 data (i + 1), rd0 data (i + 2), rd0 data (i + 3)).

Definition pixel_brightness (p : pixel) : Z :=
  let '(r, g, b, _) := p in r + g + b.

Definition row_pixels (data : list Z) (W y : Z) : list pixel :=
  (λ x, pixel_at data (4 * (y * W + x))) <$> seqZ 0 W.

Definition all_pixels (data : list Z) (W H : Z) : list pixel :=
  concat (row_pixels data W <$> seqZ 0 H).

(** [l'] is the stable sort of [l] by ascending [key]: it is sorted, and
    the elements of each key value appear in their original order. *)
Definition stable_sort_of {A : Type} (key : A → Z) (l l' : list A) : Prop :=
  StronglySorted (λ a b, key a ≤ key b) l'
  ∧ ∀ k, filter (λ a, key a = k) l' = filter (λ a, key a = k) l.

(** The value the threshold pass writes to the pixel that starts at [i]. *)
Definition thr_val (t : number) (d : list Z) (i : Z) : Z :=
  if ge (brightness3 (rd d i) (rd d (i + 1)) (rd d (i + 2))) t then 255 else 0.

(** The first [m] iterations of a pixel loop. *)
Definition run_pixels (body : Z → list Z → list Z) (m : nat) (d : list Z) : list Z :=
  foldl (λ s i, body i s) d ((λ k : nat, 4 * Z.of_nat k) <$> seq 0 m).

(** A buffer of bytes. *)
Definition bytes (data : list Z) : Prop := Forall (λ v, 0 ≤ v ≤ 255) data.

(** Well-formed colour strings, in the words of the specification: six
    hexadecimal digits, with or without a leading [#]. *)
Definition hex_chars : list ascii := list_ascii_of_string "0123456789abcdefABCDEF".

Definition strip_hash (s : string) : string :=
  match s with
  | String c rest => if Ascii.eqb c "#" then rest else s
  | EmptyString => s
  end.

Definition well_formed_color (s : string) : bool :=
  let body := list_ascii_of_string (strip_hash s) in
  (length body =? 6)%nat && forallb (λ c, existsb (Ascii.eqb c) hex_chars) body.

(** The value of a string of hexadecimal digits, and its RGB components. *)
Fixpoint index_of (c : ascii) (l : list ascii) : option nat :=
  match l with
  | [] => None
  | x :: l' => if Ascii.eqb c x then Some 0%nat else S <$> index_of c l'
  end.

Definition digit_of (c : ascii) : Z :=
  match index_of c (list_ascii_of_string "0123456789abcdef") with
  | Some k => Z.of_nat k
  | None =>
      match index_of c (list_ascii_of_string "0123456789ABCDEF") with
      | Some k => Z.of_nat k
      | None => 0
      end
  end.

Definition color_value (body : string) : Z :=
  foldl (λ acc c, 16 * acc + digit_of c) 0 (list_ascii_of_string body).

Definition rgb_of_value (v : Z) : rgb :=
  {| red := v / 65536; green := (v / 256) `mod` 256; blue := v `mod` 256 |}.

(** The default key colour of [hexToRgb]. *)
Definition default_key : rgb := {| red := 0; green := 255; blue := 0 |}.

(** The hard-mix output channel as the specification words it, over the
    rationals: the average of A and B, pushed by [mix * 2.55] towards
    white above the threshold and towards black otherwise. *)
Definition hardMix_claimed (a b : Z) (mix thr : Q) : Q :=
  let avg := ((inject_Z a + inject_Z b) / inject_Z 2)%Q in
  if Qle_bool avg thr then Qmax (inject_Z 0) (avg - mix * (255 # 100))%Q
  else Qmin (inject_Z 255) (avg + mix * (255 # 100))%Q.

(** A coordinate [c] moved by [shift] and clamped to [0, n - 1]; infinite
    shifts saturate. *)
Definition clamp_to_bounds (c : Z) (shift : jsint) (n : Z) : Z :=
  match shift with
  | JInt k => Z.max 0 (Z.min (n - 1) (c + k))
  | JNegInf => 0
  | JPosInf => n - 1
  | JNaN => 0
  end.

(** The effect of one displacement iteration, given its draw. *)
Definition displacement_write (buffer blendData : list Z) (width height : Z)
    (mix displacementScale : number) (draw : number) (i : Z) (targetData : list Z)
    : list Z :=
  if gt draw (sub (num 1) mix) then
    let srcIdx := displacement_source blendData width height displacementScale i in
    wr (wr (wr targetData i (rd0 buffer srcIdx)) (i + 1) (rd0 buffer (srcIdx + 1)))
       (i + 2) (rd0 buffer (srcIdx + 2))
  else targetData.

Definition is_finite_nonzero (x : number) : bool :=
  match x with S754_finite _ _ _ => true | _ => false end.

(** The block picked from the six draws [g n], ..., [g (n + 5)]. *)
Definition picked_block (width height : Z) (g : rng) (n : nat) : block :=
  let blockW := randomInt_of 10 (width / 4) (g n) in
  let blockH := randomInt_of 2 50 (g (1 + n)%nat) in
  let srcX := randomInt_of 0 (width - blockW) (g (2 + n)%nat) in
  let srcY := randomInt_of 0 (height - blockH) (g (3 + n)%nat) in
  let shiftX := randomInt_of (-50) 50 (g (4 + n)%nat) in
  let shiftY := randomInt_of (-10) 10 (g (5 + n)%nat) in
  {| blockW := blockW; blockH := blockH; srcX := srcX; srcY := srcY;
     destX := Z.min (width - blockW) (Z.max 0 (srcX + shiftX));
     destY := Z.min (height - blockH) (Z.max 0 (srcY + shiftY)) |}.

(** The destination rectangle of a block lies inside the [W] x [H] image. *)
Definition dest_in_bounds (W H : Z) (blk : block) : Prop :=
  0 ≤ destX blk ∧ destX blk + blockW blk ≤ W
  ∧ 0 ≤ destY blk ∧ destY blk + blockH blk ≤ H.

(** The four bytes of a pixel. *)
Definition quad (p : pixel) : list Z :=
  let '(r, g, b, a) := p in [r; g; b; a].

(** The rows the pixel sort picks from the draws [g n], ..., [g (n+k-1)]. *)
Definition picked_rows (H : Z) (g : rng) (n k : nat) : list Z :=
  (λ j : nat, randomInt_of 0 (H - 1) (g (n + j)%nat)) <$> seq 0 k.

(** The integer nearest to [n / d], ties to even ([d > 0]). *)
Definition nearest_even (n d : Z) : Z :=
  let q := n / d in
  let r := n `mod` d in
  match 2 * r ?= d with
  | Lt => q
  | Gt => q + 1
  | Eq => if Z.even q then q else q + 1
  end.

(** ** Specifications of the further properties *)


(** The three channel writes of a scanline pixel, before any noise. *)
Definition scanlines_scale (factor : number) (i : Z) (data : list Z) : list Z :=
  scale_channel factor (scale_channel factor (scale_channel factor data i) (i + 1)) (i + 2).

(** A stored channel multiplied by the scanline factor. *)
Definition scaled (factor : number) (o : option Z) : option Z :=
  (λ v, toUint8Clamp (mul (num v) factor)) <$> o.

(** The scanline factor of an intensity. *)
Definition scanline_factor (intensity : number) : number :=
  add (div (num 1) (num 2)) (div (sub (num 10) intensity) (num 20)).

(** The bytes of a scanline row that belong to a colour channel. *)
Definition scanline_byte (W : Z) (lineSkip : jsint) (j : Z) : Prop :=
  j `mod` 4 ≠ 3 ∧ 0 ≤ j ∧ on_scanline (j / (4 * W)) lineSkip = true.

(** The buffer when the rows before [row] and the first [col] pixels of
    row [row] are done, no noise having been added. *)
Definition scanlines_done (data : list Z) (W : Z) (lineSkip : jsint) (factor : number)
    (row col : Z) (d : list Z) : Prop :=
  length d = length data
  ∧ ∀ j, rd d j =
      if decide (scanline_byte W lineSkip j
                 ∧ (j / (4 * W) < row
                    ∨ (j / (4 * W) = row ∧ (j `mod` (4 * W)) / 4 < col)))
      then scaled factor (rd data j) else rd data j.

(** The effect of one difference iteration, given its draw. *)
Definition difference_write (blendData : list Z) (mix : number) (draw : number)
    (i : Z) (targetData : list Z) : list Z :=
  if lt draw mix then
    let targetData := wr targetData i (abs_diff (rd targetData i) (rd blendData i)) in
    let targetData :=
      wr targetData (i + 1) (abs_diff (rd targetData (i + 1)) (rd blendData (i + 1))) in
    wr targetData (i + 2) (abs_diff (rd targetData (i + 2)) (rd blendData (i + 2)))
  else targetData.

(** Row [y] of a [W]-wide buffer holds the byte [j]. *)
Definition in_row (W y j : Z) : Prop := y * W * 4 ≤ j < y * W * 4 + W * 4.

(** [d'] has the length of [d], and holds bytes if [d] does. *)
Definition keeps_buffer (d d' : list Z) : Prop :=
  length d' = length d ∧ (bytes d → bytes d').

(** A result of [Math.random()]: a double of [0, 1). *)
Definition is_draw (r : number) : bool :=
  valid_binary prec emax r && le (num 0) r && lt r (num 1).

(** ** Accounts and posts in [localStorage]: [src/utils/storage.ts] *)

Module Storage.

(** The stored records, with the fields that [registerUser] and
    [createPost] write; a stored user may lack the avatar. *)
Module User.
Record t := {
  username : string;
  joinedAt : string;
  avatar : option string;
}.
End User.

Inductive PostType := image | video.

Module Post.
Record t := {
  id : string;
  username : string;
  image : string;
  type : PostType;
  caption : string;
  timestamp : Z;
  likes : Z;
}.
End Post.

(** The text stored under a key, seen through [JSON.parse]: the value it
    encodes ([JSON.parse (JSON.stringify v)] is [v] for these records), or
    a text that [JSON.parse] rejects or that is empty.  A text that
    encodes a value of another shape is not modelled: the module never
    writes one. *)
Inductive item (A : Type) : Type :=
| Holds (value : A)
| Unreadable.
Arguments Holds {A} value.
Arguments Unreadable {A}.

(** The three keys of [KEYS]; [None] is a key that is not set. *)
Record localStorage := {
  USERS : option (item (list User.t));
  POSTS : option (item (list Post.t));
  CURRENT_USER : option string;
}.

(** What the module takes from the browser: [String.prototype.toLowerCase]
    and the quota, as the set of contents that can be stored. *)
Record Browser := {
  toLowerCase : string → string;
  fits : localStorage → bool;
}.

Inductive thrown :=
| Error (message : string)
| QuotaExceededError.

Inductive completion (A : Type) : Type :=
| Return (a : A)
| Throw (e : thrown).
Arguments Return {A} a.
Arguments Throw {A} e.

(** [getStorage(key, defaultVal)] on the slot of the key. *)
Definition getStorage {A : Type} (slot : option (item A)) (defaultVal : A) : A :=
  match slot with
  | Some (Holds value) => value
  | Some Unreadable => defaultVal
  | None => defaultVal
  end.

(** [localStorage.setItem]: the new contents, or a quota exception. *)
Definition setItem (B : Browser) (ls' : localStorage) : completion localStorage :=
  if fits B ls' then Return ls' else Throw QuotaExceededError.

(** [setStorage(key, value)], the new contents being given: any exception
    becomes [Error("STORAGE_FULL_DELETE_OLD_POSTS")]. *)
Definition setStorage (B : Browser) (ls' : localStorage) : completion localStorage :=
  match setItem B ls' with
  | Return ls' => Return ls'
  | Throw _ => Throw (Error "STORAGE_FULL_DELETE_OLD_POSTS")
  end.

(** The storage of a browser that has not run the application. *)
Definition empty : localStorage :=
  {| USERS := None; POSTS := None; CURRENT_USER := None |}.

Definition with_USERS (ls : localStorage) (users : list User.t) : localStorage :=
  {| USERS := Some (Holds users); POSTS := POSTS ls; CURRENT_USER := CURRENT_USER ls |}.

Definition with_POSTS (ls : localStorage) (posts : list Post.t) : localStorage :=
  {| USERS := USERS ls; POSTS := Some (Holds posts); CURRENT_USER := CURRENT_USER ls |}.

Definition with_CURRENT_USER (ls : localStorage) (name : option string) : localStorage :=
  {| USERS := USERS ls; POSTS := POSTS ls; CURRENT_USER := name |}.

(** [users.find(u => u.username.toLowerCase() === username.toLowerCase())] *)
Definition find_user (B : Browser) (users : list User.t) (name : string) : option User.t :=
  List.find (λ u, String.eqb (toLowerCase B (User.username u)) (toLowerCase B name)) users.

Definition loginUser (B : Browser) (name : string) (ls : localStorage)
    : completion User.t * localStorage :=
  let users := getStorage (USERS ls) [] in
  match find_user B users name with
  | None => (Throw (Error "User not found"), ls)
  | Some user =>
      match setItem B (with_CURRENT_USER ls (Some (User.username user))) with
      | Return ls' => (Return user, ls')
      | Throw e => (Throw e, ls)
      end
  end.

(** [registerUser(username)]; [now] is [new Date().toISOString()]. *)
Definition registerUser (B : Browser) (name : string) (now : string) (ls : localStorage)
    : completion User.t * localStorage :=
  let users := getStorage (USERS ls) [] in
  match find_user B users name with
  | Some _ => (Throw (Error "Username taken"), ls)
  | None =>
      let newUser :=
        {| User.username := name; User.joinedAt := now;
           User.avatar := Some ("https://api.dicebear.com/7.x/shapes/svg?seed=" ++ name)%string |} in
      let users := users ++ [newUser] in
      match setStorage B (with_USERS ls users) with
      | Throw e => (Throw e, ls)
      | Return ls1 =>
          match setItem B (with_CURRENT_USER ls1 (Some name)) with
          | Return ls2 => (Return newUser, ls2)
          | Throw e => (Throw e, ls1)
          end
      end
  end.

Definition getCurrentUser (B : Browser) (ls : localStorage) : option User.t :=
  match CURRENT_USER ls with
  | None => None
  | Some name =>
      if String.eqb name "" then None
      else find_user B (getStorage (USERS ls) []) name
  end.

Definition logoutUser (ls : localStorage) : localStorage :=
  with_CURRENT_USER ls None.

(** [createPost(user, mediaData, caption, type)]; [new_id] is the
    generated identifier and [now] the second [Date.now()]. *)
Definition createPost (B : Browser) (user : User.t) (mediaData caption : string)
    (type : PostType) (new_id : string) (now : Z) (ls : localStorage)
    : completion Post.t * localStorage :=
  let posts := getStorage (POSTS ls) [] in
  let newPost :=
    {| Post.id := new_id; Post.username := User.username user; Post.image := mediaData;
       Post.type := type; Post.caption := caption; Post.timestamp := now;
       Post.likes := 0 |} in
  let updatedPosts := newPost :: posts in
  let updatedPosts :=
    if (15 <? length updatedPosts)%nat then take 15 updatedPosts else updatedPosts in
  match setStorage B (with_POSTS ls updatedPosts) with
  | Return ls' => (Return newPost, ls')
  | Throw (Error "STORAGE_FULL_DELETE_OLD_POSTS") =>
      if (5 <? length updatedPosts)%nat then
        let updatedPosts := take 5 updatedPosts in
        match setStorage B (with_POSTS ls updatedPosts) with
        | Return ls' => (Return newPost, ls')
        | Throw e => (Throw e, ls)
        end
      else (Throw (Error "STORAGE FULL. DELETE POSTS."), ls)
  | Throw err => (Throw err, ls)
  end.

Definition getPosts (ls : localStorage) : list Post.t :=
  getStorage (POSTS ls) [].


End Storage.

(** No two stored users have the same name up to case. *)
Definition unique_names (B : Storage.Browser) (users : list Storage.User.t) : Prop :=
  NoDup (map (λ u, Storage.toLowerCase B (Storage.User.username u)) users).

(** The user that [registerUser] creates and the post that [createPost]
    creates. *)
Definition new_user (name now : string) : Storage.User.t :=
  {| Storage.User.username := name; Storage.User.joinedAt := now;
     Storage.User.avatar :=
       Some ("https://api.dicebear.com/7.x/shapes/svg?seed=" ++ name)%string |}.

Definition new_post (user : Storage.User.t) (mediaData caption : string)
    (type : Storage.PostType) (new_id : string) (now : Z) : Storage.Post.t :=
  {| Storage.Post.id := new_id; Storage.Post.username := Storage.User.username user;
     Storage.Post.image := mediaData; Storage.Post.type := type;
     Storage.Post.caption := caption; Storage.Post.timestamp := now;
     Storage.Post.likes := 0 |}.

(** A browser for examples: lower case of the letters A to Z, and room
    for everything. *)
Definition ascii_toLowerCase (c : ascii) : ascii :=
  let n := nat_of_ascii c in
  if ((65 <=? n) && (n <=? 90))%nat then ascii_of_nat (n + 32) else c.

Fixpoint string_toLowerCase (s : string) : string :=
  match s with
  | EmptyString => EmptyString
  | String c s => String (ascii_toLowerCase c) (string_toLowerCase s)
  end.

Definition ascii_browser : Storage.Browser :=
  {| Storage.toLowerCase := string_toLowerCase; Storage.fits := λ _, true |}.

(** A browser that has room for at most [n] posts, and one that has no
    room for a session. *)
Definition posts_quota (n : nat) : Storage.Browser :=
  {| Storage.toLowerCase := string_toLowerCase;
     Storage.fits := λ ls, (length (Storage.getPosts ls) <=? n)%nat |}.

Definition no_session : Storage.Browser :=
  {| Storage.toLowerCase := string_toLowerCase;
     Storage.fits := λ ls, match Storage.CURRENT_USER ls with None => true | Some _ => false end |}.

(** * Proofs *)

(** Quotients and remainders by constants are handed to [lia]. *)
Ltac Zify.zify_post_hook ::= Z.to_euclidean_division_equations.

(** ** Reads and writes *)

Lemma length_wr (d : list Z) i v : length (wr d i v) = length d.
Proof. unfold wr. case_decide; [apply length_insert | done]. Qed.

Lemma rd_wr_ne (d : list Z) i j v : i ≠ j → rd (wr d i v) j = rd d j.
Proof.
  intros Hij. unfold rd, wr. repeat case_decide; try done.
  apply list_lookup_insert_ne. lia.
Qed.

Lemma rd_wr_eq (d : list Z) i v :
  0 ≤ i < Z.of_nat (length d) → rd (wr d i v) i = Some v.
Proof.
  intros Hi. unfold rd, wr. case_decide; [|lia].
  apply list_lookup_insert_eq. lia.
Qed.

Lemma rd_wr (d : list Z) i j v :
  rd (wr d i v) j = if decide (i = j ∧ 0 ≤ i < Z.of_nat (length d)) then Some v else rd d j.
Proof.
  case_decide as H.
  - destruct H as [-> H]. by apply rd_wr_eq.
  - destruct (decide (i = j)) as [->|Hne]; [|by apply rd_wr_ne].
    unfold rd, wr. case_decide; [|done].
    rewrite list_insert_ge; [done | lia].
Qed.

Lemma rd_Some_range (d : list Z) i v : rd d i = Some v → 0 ≤ i < Z.of_nat (length d).
Proof.
  unfold rd. case_decide as Hi; [|done]. intros Hl%lookup_lt_Some. lia.
Qed.

Lemma rd_in_range (d : list Z) i : 0 ≤ i < Z.of_nat (length d) → is_Some (rd d i).
Proof.
  intros Hi. unfold rd. case_decide; [|lia]. apply lookup_lt_is_Some. lia.
Qed.

Lemma rd_out_of_range (d : list Z) i : ¬ (0 ≤ i < Z.of_nat (length d)) → rd d i = None.
Proof.
  intros Hi. unfold rd. case_decide; [|done]. apply lookup_ge_None. lia.
Qed.

Lemma rd_of_nat (d : list Z) (k : nat) : rd d (Z.of_nat k) = d !! k.
Proof. unfold rd. case_decide; [|lia]. by rewrite Nat2Z.id. Qed.

Lemma rd_ext (d d' : list Z) : (∀ i, 0 ≤ i → rd d i = rd d' i) → d = d'.
Proof.
  intros H. apply list_eq. intros k. rewrite <- !rd_of_nat. apply H. lia.
Qed.

(** ** The pixel loop *)

Section PixelLoop.
Variable body : Z → list Z → list Z.
Hypothesis body_length : ∀ i d, length (body i d) = length d.
Hypothesis body_frame :
  ∀ i d j, ¬ (i ≤ j < i + 4) → rd (body i d) j = rd d j.
Hypothesis body_local :
  ∀ i d d', length d = length d' →
    (∀ j, i ≤ j < i + 4 → rd d j = rd d' j) →
    ∀ j, i ≤ j < i + 4 → rd (body i d) j = rd (body i d') j.

Local Lemma run_S m d :
  run_pixels body (S m) d = body (4 * Z.of_nat m) (run_pixels body m d).
Proof. unfold run_pixels. by rewrite seq_S, fmap_app, foldl_app. Qed.

Local Lemma run_length m d : length (run_pixels body m d) = length d.
Proof.
  induction m as [|m IH]; [done|]. by rewrite run_S, body_length.
Qed.

Local Lemma run_rd m d j :
  0 ≤ j →
  rd (run_pixels body m d) j =
    if decide (j / 4 < Z.of_nat m) then rd (body (4 * (j / 4)) d) j else rd d j.
Proof.
  revert j. induction m as [|m IH]; intros j Hj.
  - case_decide; [|done]. assert (0 ≤ j / 4) by (apply Z.div_pos; lia). lia.
  - rewrite run_S.
    destruct (decide (j / 4 = Z.of_nat m)) as [Heq|Hne].
    + rewrite decide_True by lia. rewrite <- Heq.
      apply body_local; [apply run_length | | lia].
      intros j' Hj'. rewrite IH by lia.
      rewrite decide_False; [done|]. 
      assert (j' / 4 = j / 4) by lia. lia.
    + rewrite body_frame by lia. rewrite IH by lia.
      repeat case_decide; try done; lia.
Qed.

Lemma for_pixels_length d n : length (for_pixels n body d) = length d.
Proof. apply run_length. Qed.

Lemma for_pixels_rd d j :
  0 ≤ j < Z.of_nat (length d) →
  rd (for_pixels (length d) body d) j = rd (body (4 * (j / 4)) d) j.
Proof.
  intros Hj. unfold for_pixels, pixel_starts.
  fold (run_pixels body ((length d + 3) `div` 4) d).
  rewrite run_rd by lia. rewrite decide_True; [done|].
  rewrite Nat2Z.inj_div, Nat2Z.inj_add. simpl Z.of_nat. lia.
Qed.
End PixelLoop.

(** ** Double arithmetic against exact arithmetic on integer parameters *)

Lemma forallb_seqZ (f : Z → bool) m n x :
  forallb f (seqZ m n) = true → m ≤ x < m + n → f x = true.
Proof.
  intros Hall Hx. rewrite forallb_forall in Hall. apply Hall.
  apply list_elem_of_In, elem_of_seqZ. lia.
Qed.

Lemma forallb_tagged (f : Z * number → bool) m n x :
  forallb f ((λ t, (t, num t)) <$> seqZ m n) = true → m ≤ x < m + n →
  f (x, num x) = true.
Proof.
  intros Hall Hx. rewrite forallb_forall in Hall. apply Hall.
  apply list_elem_of_In, list_elem_of_fmap. exists x. split; [done|].
  apply elem_of_seqZ. lia.
Qed.

(** Exhaustive comparisons of the double arithmetic of the code with exact
    integer arithmetic, over the integer values of the parameters. *)
Lemma threshold_table :
  let thresholds := (λ t, (t, num t)) <$> seqZ 1 255 in
  forallb (λ s, let q := div (num s) (num 3) in
                forallb (λ tn : Z * number,
                           Bool.eqb (ge q (snd tn)) (3 * fst tn <=? s)) thresholds)
          (seqZ 0 766) = true.
Proof. vm_compute. reflexivity. Qed.

Lemma compare_table :
  let values := (λ t, (t, num t)) <$> seqZ 0 256 in
  forallb (λ an : Z * number,
             forallb (λ tn : Z * number,
                        Bool.eqb (gt (snd an) (snd tn)) (fst tn <? fst an)) values)
          values = true.
Proof. vm_compute. reflexivity. Qed.

Lemma hardMix_table :
  let values := (λ a, (a, num a)) <$> seqZ 0 256 in
  let white := num 255 in
  let black := num 0 in
  forallb (λ mixv,
             let mix255 := mul (div (num mixv) (num 100)) (num 255) in
             forallb (λ an : Z * number,
                        (toUint8Clamp (min white (add (snd an) mix255))
                         =? Z.min 255 (nearest_even (100 * fst an + 255 * mixv) 100))
                        && (toUint8Clamp (max black (sub (snd an) mix255))
                            =? Z.max 0 (nearest_even (100 * fst an - 255 * mixv) 100)))
                     values)
          (seqZ 0 101) = true.
Proof. vm_compute. reflexivity. Qed.

(** For an integer threshold the comparison [(R+G+B)/3 >= t] of the code
    is the exact one. *)
Lemma ge_brightness_integer s tz :
  0 ≤ s ≤ 765 → 1 ≤ tz ≤ 255 →
  ge (div (num s) (num 3)) (num tz) = (3 * tz <=? s).
Proof.
  intros Hs Ht.
  assert (0 ≤ s < 0 + 766) as Hs' by lia. assert (1 ≤ tz < 1 + 255) as Ht' by lia.
  apply Bool.eqb_prop.
  exact (forallb_tagged _ 1 255 tz (forallb_seqZ _ 0 766 s threshold_table Hs') Ht').
Qed.

Lemma gt_num_integer a t :
  0 ≤ a ≤ 255 → 0 ≤ t ≤ 255 → gt (num a) (num t) = (t <? a).
Proof.
  intros Ha Ht.
  assert (0 ≤ a < 0 + 256) as Ha' by lia. assert (0 ≤ t < 0 + 256) as Ht' by lia.
  apply Bool.eqb_prop.
  exact (forallb_tagged _ 0 256 t (forallb_tagged _ 0 256 a compare_table Ha') Ht').
Qed.

(** For integer mix and threshold the stored hard-mix channel is the
    exactly rounded value. *)
Lemma hardMix_channel_integer mixv thr avg :
  0 ≤ mixv ≤ 100 → 0 ≤ thr ≤ 255 → 0 ≤ avg ≤ 255 →
  hardMix_channel (num thr) (mul (div (num mixv) (num 100)) (num 255)) avg =
    if thr <? avg then Z.min 255 (nearest_even (100 * avg + 255 * mixv) 100)
    else Z.max 0 (nearest_even (100 * avg - 255 * mixv) 100).
Proof.
  intros Hm Ht Ha.
  assert (0 ≤ mixv < 0 + 101) as Hm' by lia. assert (0 ≤ avg < 0 + 256) as Ha' by lia.
  pose proof (forallb_tagged _ 0 256 avg (forallb_seqZ _ 0 101 mixv hardMix_table Hm') Ha')
    as Htab.
  apply andb_true_iff in Htab as [Hup Hdown].
  apply Z.eqb_eq in Hup. apply Z.eqb_eq in Hdown.
  unfold hardMix_channel. rewrite gt_num_integer by assumption.
  destruct (thr <? avg); assumption.
Qed.

(** ** Threshold pass *)

Lemma threshold_body_length t i d : length (threshold_body t i d) = length d.
Proof. unfold threshold_body. by rewrite !length_wr. Qed.

Lemma threshold_body_rd t i d j :
  rd (threshold_body t i d) j =
    if decide (i ≤ j < i + 3 ∧ 0 ≤ j < Z.of_nat (length d))
    then Some (thr_val t d i) else rd d j.
Proof.
  unfold threshold_body. fold (thr_val t d i).
  rewrite !rd_wr, !length_wr. repeat case_decide; try done; lia.
Qed.

Lemma threshold_body_frame t i d j :
  ¬ (i ≤ j < i + 4) → rd (threshold_body t i d) j = rd d j.
Proof. intros. rewrite threshold_body_rd. case_decide; [lia | done]. Qed.

Lemma threshold_body_local t i d d' :
  length d = length d' →
  (∀ j, i ≤ j < i + 4 → rd d j = rd d' j) →
  ∀ j, i ≤ j < i + 4 → rd (threshold_body t i d) j = rd (threshold_body t i d') j.
Proof.
  intros Hlen Heq j Hj. rewrite !threshold_body_rd. unfold thr_val.
  rewrite Hlen, !Heq by lia. done.
Qed.

Lemma positive_not_le_zero (t : number) :
  lt (num 0) t = true → le t (num 0) = false.
Proof. by destruct t as [[]|[]| |[] m e]. Qed.

Lemma ge_NaN (t : number) : ge NaN t = false.
Proof. by destruct t as [[]|[]| |[] m e]. Qed.

Lemma applyThreshold_rd (d : list Z) (t : number) j :
  le t (num 0) = false → 0 ≤ j < Z.of_nat (length d) →
  rd (applyThreshold d t) j =
    if decide (j `mod` 4 < 3) then Some (thr_val t d (4 * (j / 4))) else rd d j.
Proof.
  intros Ht Hj. unfold applyThreshold. rewrite Ht.
  rewrite for_pixels_rd;
    auto using threshold_body_length, threshold_body_frame, threshold_body_local.
  rewrite threshold_body_rd. repeat case_decide; try done; lia.
Qed.

Lemma applyThreshold_length (d : list Z) (t : number) :
  length (applyThreshold d t) = length d.
Proof.
  unfold applyThreshold. destruct (le t (num 0)); [done|].
  apply for_pixels_length. apply threshold_body_length.
Qed.

Lemma thr_val_cases t d i : thr_val t d i = 0 ∨ thr_val t d i = 255.
Proof. unfold thr_val. destruct (ge _ _); auto. Qed.

Lemma brightness_white :
  brightness3 (Some 255) (Some 255) (Some 255) = num 255.
Proof. vm_compute. reflexivity. Qed.

Lemma brightness_black : brightness3 (Some 0) (Some 0) (Some 0) = num 0.
Proof. vm_compute. reflexivity. Qed.

(** A second pass recomputes, pixel by pixel, the value the first one wrote. *)
Lemma thr_val_stable (d : list Z) (t : number) i :
  lt (num 0) t = true → le t (num 255) = true →
  0 ≤ i → i `mod` 4 = 0 →
  thr_val t (applyThreshold d t) i = thr_val t d i.
Proof.
  intros Hpos Hmax Hi Hmod.
  pose proof (positive_not_le_zero t Hpos) as Hle.
  assert (Hrd : ∀ c, 0 ≤ c < 3 →
    rd (applyThreshold d t) (i + c) =
      if decide (i + c < Z.of_nat (length d)) then Some (thr_val t d i) else None).
  { intros c Hc. case_decide as Hin.
    - rewrite applyThreshold_rd by (done || lia).
      rewrite decide_True by lia. do 2 f_equal. lia.
    - apply rd_out_of_range. rewrite applyThreshold_length. lia. }
  unfold thr_val at 1.
  replace i with (i + 0) at 1 by lia. rewrite !Hrd by lia.
  destruct (decide (i + 2 < Z.of_nat (length d))) as [Hin|Hout].
  - rewrite !decide_True by lia.
    destruct (thr_val_cases t d i) as [-> | ->].
    + rewrite brightness_black. unfold ge. fold (le t (num 0)). by rewrite Hle.
    + rewrite brightness_white. unfold ge. fold (le t (num 255)). by rewrite Hmax.
  - assert (brightness3 (rd d i) (rd d (i + 1)) (rd d (i + 2)) = NaN) as Hnan.
    { rewrite (rd_out_of_range d (i + 2)) by lia.
      by destruct (rd d i), (rd d (i + 1)). }
    assert (thr_val t d i = 0) as -> by (unfold thr_val; by rewrite Hnan, ge_NaN).
    assert (∀ a b, brightness3 a b None = NaN) as -> by (by intros [] []).
    by rewrite ge_NaN.
Qed.

(** C1. For every buffer and every threshold [t] with [0 < t <= 255], the
    threshold pass keeps the length of the buffer; it sets the R, G and B
    channels of each pixel to the same value, 255 when [(R+G+B)/3 >= t] and
    0 otherwise, and leaves the alpha channel unchanged; a second pass with
    the same threshold changes nothing.  The quotient and the comparison
    are those of the code, on doubles; for an integer threshold they agree
    with exact arithmetic, [R + G + B >= 3 * t]. *)
Theorem applyThreshold_binary_idempotent (data : list Z) (t : number) :
  lt (num 0) t = true → le t (num 255) = true →
  let out := applyThreshold data t in
  length out = length data
  ∧ (∀ p r g b a,
       0 ≤ p →
       rd data (4 * p) = Some r → rd data (4 * p + 1) = Some g →
       rd data (4 * p + 2) = Some b → rd data (4 * p + 3) = Some a →
       let val := if ge (div (num (r + g + b)) (num 3)) t then 255 else 0 in
       (val = 0 ∨ val = 255)
       ∧ rd out (4 * p) = Some val ∧ rd out (4 * p + 1) = Some val
       ∧ rd out (4 * p + 2) = Some val ∧ rd out (4 * p + 3) = Some a)
  ∧ (∀ tz r g b,
       t = num tz → 1 ≤ tz ≤ 255 → 0 ≤ r ≤ 255 → 0 ≤ g ≤ 255 → 0 ≤ b ≤ 255 →
       ge (div (num (r + g + b)) (num 3)) t = (3 * tz <=? r + g + b))
  ∧ applyThreshold out t = out.
Proof.
  intros Hpos Hmax out. subst out.
  pose proof (positive_not_le_zero t Hpos) as Hle.
  split; [apply applyThreshold_length|]. split; [|split].
  2:{ intros tz r g b -> Htz Hr Hg Hb. apply ge_brightness_integer; lia. }
  - intros p r g b a Hp Hr Hg Hb Ha val.
    assert (thr_val t data (4 * p) = val) as Hval.
    { unfold thr_val. by rewrite Hr, Hg, Hb. }
    pose proof (rd_Some_range _ _ _ Ha) as Hrange.
    split; [destruct (ge _ _); auto|].
    rewrite !applyThreshold_rd by (done || lia).
    rewrite !decide_True by lia. rewrite decide_False by lia.
    replace (4 * ((4 * p) / 4)) with (4 * p) by lia.
    replace (4 * ((4 * p + 1) / 4)) with (4 * p) by lia.
    replace (4 * ((4 * p + 2) / 4)) with (4 * p) by lia.
    by rewrite Hval.
  - apply rd_ext. intros j Hj.
    destruct (decide (j < Z.of_nat (length data))) as [Hin|Hout].
    + rewrite applyThreshold_rd by (done || rewrite applyThreshold_length; lia).
      rewrite (applyThreshold_rd data) by (done || lia).
      case_decide; [|done].
      rewrite thr_val_stable by (done || lia). done.
    + rewrite !rd_out_of_range; [done | |]; rewrite !applyThreshold_length; lia.
Qed.

Lemma applyThreshold_binary_idempotent_witness :
  let data := [10; 20; 30; 40; 200; 220; 240; 7] in
  let out := applyThreshold data (num 128) in
  out = [0; 0; 0; 40; 255; 255; 255; 7] ∧ applyThreshold out (num 128) = out.
Proof.
  intros data out.
  destruct (applyThreshold_binary_idempotent data (num 128)) as (_ & _ & _ & Hidem);
    [reflexivity | reflexivity |].
  split; [reflexivity | exact Hidem].
Defined.

(** ** 32-bit conversions and integer division on small values *)

Lemma toUint32_small v : 0 ≤ v < 2 ^ 32 → toUint32 v = v.
Proof. intros. unfold toUint32. apply Z.mod_small. lia. Qed.

Lemma toInt32_small v : - 2 ^ 31 ≤ v < 2 ^ 31 → toInt32 v = v.
Proof.
  intros. unfold toInt32. rewrite Z.mod_small; lia.
Qed.

Lemma shl2_small v : 0 ≤ v → 4 * v < 2 ^ 31 → shl2 v = 4 * v.
Proof.
  intros. unfold shl2. rewrite (toInt32_small v) by lia. apply toInt32_small. lia.
Qed.

Lemma shr2_small p : 0 ≤ p → 4 * p < 2 ^ 32 → shr2 (4 * p) = p.
Proof.
  intros. unfold shr2. rewrite toUint32_small by lia. lia.
Qed.

Lemma rd0_Some (d : list Z) i :
  0 ≤ i < Z.of_nat (length d) → rd d i = Some (rd0 d i).
Proof.
  intros Hi. unfold rd0. by destruct (rd_in_range d i Hi) as [v ->].
Qed.

(** Column and row of the pixel number [y * W + x]. *)
Lemma pixel_column W x y : 0 ≤ x < W → 0 ≤ y → Z.rem (y * W + x) W = x.
Proof.
  intros Hx Hy. rewrite Z.rem_mod_nonneg by nia.
  symmetry. apply (Z.mod_unique _ _ y); [lia | ring].
Qed.

Lemma pixel_row W x y : 0 ≤ x < W → 0 ≤ y → Z.quot (y * W + x - x) W = y.
Proof.
  intros Hx Hy. replace (y * W + x - x) with (y * W) by ring.
  rewrite Z.quot_div_nonneg by nia. apply Z.div_mul. lia.
Qed.

(** ** Channel shift *)

Lemma rgbShift_body_length buffer W offset len i d :
  length (rgbShift_body buffer W offset len i d) = length d.
Proof.
  unfold rgbShift_body. case_match; [apply length_wr | done].
Qed.

Lemma rgbShift_body_frame buffer W offset len i d j :
  ¬ (i ≤ j < i + 4) → rd (rgbShift_body buffer W offset len i d) j = rd d j.
Proof.
  intros Hj. unfold rgbShift_body. case_match; [|done]. apply rd_wr_ne. lia.
Qed.

Lemma rgbShift_body_local buffer W offset len i d d' :
  length d = length d' →
  (∀ j, i ≤ j < i + 4 → rd d j = rd d' j) →
  ∀ j, i ≤ j < i + 4 →
    rd (rgbShift_body buffer W offset len i d) j
    = rd (rgbShift_body buffer W offset len i d') j.
Proof.
  intros Hlen Heq j Hj. unfold rgbShift_body. case_match; [|by apply Heq].
  rewrite !rd_wr, Hlen, Heq by done. done.
Qed.

(** What one iteration computes on a [W] x [H] buffer. *)
Lemma rgbShift_body_pixel buffer W H offset x y d :
  1 ≤ W → 4 * W * H < 2 ^ 31 → 0 ≤ offset →
  0 ≤ x < W → 0 ≤ y < H →
  rgbShift_body buffer W offset (4 * W * H) (4 * (y * W + x)) d
  = wr d (4 * (y * W + x)) (rd0 buffer (4 * (y * W + (x + offset) `mod` W))).
Proof.
  intros HW Hsize Hoff Hx Hy. unfold rgbShift_body.
  assert (0 ≤ (x + offset) `mod` W < W) as Hnew by (apply Z.mod_pos_bound; lia).
  assert (y * W + W ≤ H * W) by nia.
  rewrite shr2_small by nia. unfold js_rem, js_quot, jneg, jadd, jmul, jtoInt.
  assert ((W =? 0) = false) as -> by lia.
  rewrite pixel_column by lia.
  replace (y * W + x + - x) with (y * W + x - x) by ring.
  rewrite pixel_row by lia.
  rewrite Z.rem_mod_nonneg by lia.
  rewrite shl2_small by nia.
  assert ((4 * (y * W + (x + offset) `mod` W) <? 4 * W * H) = true) as -> by nia.
  done.
Qed.

(** C7. The channel shift with offset 0 is the identity; for every offset
    from 0 (in particular every offset of [0, 50]) and every pixel [(x, y)]
    of a [W] x [H] buffer, the pass sets the red channel to the red channel
    the buffer had before the pass at column [(x + offset) mod W] of the
    same row, and leaves green, blue and alpha unchanged. *)
Theorem applyRGBShift_red_wraps :
  (∀ (data : list Z) (W H : Z), applyRGBShift data W H 0 = data)
  ∧ ∀ (data : list Z) (W H offset : Z),
      1 ≤ W → 1 ≤ H → Z.of_nat (length data) = 4 * W * H → 4 * W * H < 2 ^ 31 →
      0 ≤ offset →
      let out := applyRGBShift data W H offset in
      length out = length data
      ∧ ∀ x y, 0 ≤ x < W → 0 ≤ y < H →
          rd out (4 * (y * W + x)) = rd data (4 * (y * W + (x + offset) `mod` W))
          ∧ rd out (4 * (y * W + x) + 1) = rd data (4 * (y * W + x) + 1)
          ∧ rd out (4 * (y * W + x) + 2) = rd data (4 * (y * W + x) + 2)
          ∧ rd out (4 * (y * W + x) + 3) = rd data (4 * (y * W + x) + 3).
Proof.
  split; [done|].
  intros data W H offset HW HH Hlen Hsize Hoff out. subst out.
  unfold applyRGBShift. destruct (offset =? 0) eqn:Hz.
  { apply Z.eqb_eq in Hz. subst offset. split; [done|].
    intros x y Hx Hy. rewrite Z.add_0_r, Z.mod_small by lia. done. }
  split; [apply for_pixels_length, rgbShift_body_length|].
  intros x y Hx Hy.
  assert (y * W + W ≤ H * W) by nia.
  assert (0 ≤ (x + offset) `mod` W < W) as Hnew by (apply Z.mod_pos_bound; lia).
  rewrite !for_pixels_rd
    by (auto using rgbShift_body_length, rgbShift_body_frame, rgbShift_body_local
        || nia).
  replace (4 * ((4 * (y * W + x)) / 4)) with (4 * (y * W + x)) by lia.
  replace (4 * ((4 * (y * W + x) + 1) / 4)) with (4 * (y * W + x)) by lia.
  replace (4 * ((4 * (y * W + x) + 2) / 4)) with (4 * (y * W + x)) by lia.
  replace (4 * ((4 * (y * W + x) + 3) / 4)) with (4 * (y * W + x)) by lia.
  rewrite Hlen, (rgbShift_body_pixel data W H) by done.
  rewrite rd_wr_eq by nia. rewrite !rd_wr_ne by lia.
  split; [|done]. symmetry. apply rd0_Some. nia.
Qed.

Lemma applyRGBShift_red_wraps_witness :
  let data := [1; 2; 3; 4; 5; 6; 7; 8; 9; 10; 11; 12;
               13; 14; 15; 16; 17; 18; 19; 20; 21; 22; 23; 24] in
  applyRGBShift data 3 2 1
  = [5; 2; 3; 4; 9; 6; 7; 8; 1; 10; 11; 12;
     17; 14; 15; 16; 21; 18; 19; 20; 13; 22; 23; 24]
  ∧ rd (applyRGBShift data 3 2 1) (4 * (1 * 3 + 2)) = rd data (4 * (1 * 3 + 0)).
Proof.
  intros data. split; [reflexivity|].
  destruct (proj2 applyRGBShift_red_wraps data 3 2 1) as (_ & Hpix);
    [lia | lia | reflexivity | reflexivity | lia |].
  exact (proj1 (Hpix 2 1 ltac:(lia) ltac:(lia))).
Defined.

(** ** The seed of the glitch stage *)

(** C8. The output of the glitch stage does not depend on the seed: on the
    same buffer and with the same draws, two parameter records that differ
    only in [seed] give the same outcome (buffer and number of draws
    consumed). *)
Theorem processImage_seed_independent (data : list Z) (W H : Z)
    (p1 p2 : GlitchParams) (g : rng) (n : nat) :
  amount p1 = amount p2 → iterations p1 = iterations p2 →
  quality p1 = quality p2 → rgbShift p1 = rgbShift p2 →
  blockShift p1 = blockShift p2 → scanlines p1 = scanlines p2 →
  pixelSort p1 = pixelSort p2 →
  processImage data W H p1 g n = processImage data W H p2 g n.
Proof.
  destruct p1, p2; simpl. intros; subst. reflexivity.
Qed.

Lemma processImage_seed_independent_witness :
  let p s := {| amount := num 50; seed := s; iterations := num 1;
                quality := num 90; rgbShift := 1; blockShift := num 10;
                scanlines := num 2; pixelSort := num 50 |} in
  let data := [9; 9; 9; 1; 5; 5; 5; 2; 9; 0; 0; 3;
               1; 1; 1; 1; 0; 0; 0; 0; 0; 0; 0; 0] in
  processImage data 3 2 (p (num 12345)) (λ _, num 0) 0%nat
  = processImage data 3 2 (p (num 7)) (λ _, num 0) 0%nat.
Proof.
  intros p data.
  apply (processImage_seed_independent data 3 2 (p (num 12345)) (p (num 7)));
    reflexivity.
Defined.

(** ** Key colour strings *)

Lemma is_hex_digit_spec c : is_hex_digit c = existsb (Ascii.eqb c) hex_chars.
Proof. by destruct c as [[] [] [] [] [] [] [] []]. Qed.

Lemma hex_digit_value_spec c :
  is_hex_digit c = true → hex_digit_value c = digit_of c ∧ 0 ≤ digit_of c ≤ 15.
Proof. destruct c as [[] [] [] [] [] [] [] []]; (done || (vm_compute; intuition congruence)). Qed.

Lemma match_groups_spec s :
  match_groups s =
    match list_ascii_of_string s with
    | [c1; c2; c3; c4; c5; c6] =>
        if forallb is_hex_digit [c1; c2; c3; c4; c5; c6]
        then Some ((c1, c2), (c3, c4), (c5, c6)) else None
    | _ => None
    end.
Proof.
  by destruct s as [|c1 [|c2 [|c3 [|c4 [|c5 [|c6 [|c7 s]]]]]]].
Qed.

Lemma match_groups_hash rest : match_groups (String "#" rest) = None.
Proof.
  by destruct rest as [|c2 [|c3 [|c4 [|c5 [|c6 [|c7 s]]]]]].
Qed.

Lemma regex_exec_spec s : regex_exec s = match_groups (strip_hash s).
Proof.
  destruct s as [|c rest]; [done|].
  destruct (Ascii.eqb c "#") eqn:Hc.
  - apply Ascii.eqb_eq in Hc. subst c.
    change (strip_hash (String "#" rest)) with rest.
    change (regex_exec (String "#" rest))
      with (match match_groups rest with
            | Some result => Some result
            | None => match_groups (String "#" rest)
            end).
    rewrite match_groups_hash. by destruct (match_groups rest).
  - unfold strip_hash. rewrite Hc.
    destruct c as [[] [] [] [] [] [] [] []]; try done.
Qed.

Lemma forallb_is_hex_digit l :
  forallb is_hex_digit l = forallb (λ c, existsb (Ascii.eqb c) hex_chars) l.
Proof.
  induction l as [|c l IH]; [done|]. simpl forallb. by rewrite IH, is_hex_digit_spec.
Qed.

Lemma hexToRgb_malformed s : well_formed_color s = false → hexToRgb s = default_key.
Proof.
  unfold well_formed_color, hexToRgb. rewrite regex_exec_spec, match_groups_spec.
  rewrite <- forallb_is_hex_digit.
  destruct (list_ascii_of_string (strip_hash s))
    as [|c1 [|c2 [|c3 [|c4 [|c5 [|c6 [|c7 l]]]]]]]; try done.
  intros Hwf. change ((6 =? 6)%nat) with true in Hwf.
  rewrite andb_true_l in Hwf. by rewrite Hwf.
Qed.

Lemma hexToRgb_well_formed s :
  well_formed_color s = true → hexToRgb s = rgb_of_value (color_value (strip_hash s)).
Proof.
  unfold well_formed_color, hexToRgb, color_value.
  rewrite regex_exec_spec, match_groups_spec.
  rewrite <- forallb_is_hex_digit.
  destruct (list_ascii_of_string (strip_hash s))
    as [|c1 [|c2 [|c3 [|c4 [|c5 [|c6 [|c7 l]]]]]]]; try done.
  intros Hwf. change ((6 =? 6)%nat) with true in Hwf.
  rewrite andb_true_l in Hwf. rewrite Hwf.
  cbn [forallb] in Hwf. rewrite !andb_true_iff in Hwf.
  destruct Hwf as (H1 & H2 & H3 & H4 & H5 & H6 & _).
  apply hex_digit_value_spec in H1, H2, H3, H4, H5, H6.
  unfold parseInt16, rgb_of_value. cbn [fst snd foldl].
  destruct H1 as [-> ?], H2 as [-> ?], H3 as [-> ?],
           H4 as [-> ?], H5 as [-> ?], H6 as [-> ?].
  f_equal; lia.
Qed.

(** C9. A key colour string that is not six hexadecimal digits, with or
    without a leading [#], parses to the fixed default colour (0, 255, 0),
    and the chroma key then behaves, on every buffer and with every other
    parameter, as it does for the key colour [#00ff00]; a well-formed
    string parses to the RGB value of its digits. *)
Theorem hexToRgb_fallback :
  (∀ s, well_formed_color s = false →
     hexToRgb s = default_key
     ∧ ∀ data W H en sim sm sp,
         applyChromaKey data W H
           {| enabled := en; keyColor := s; similarity := sim;
              smoothness := sm; spill := sp |}
         = applyChromaKey data W H
             {| enabled := en; keyColor := "#00ff00"; similarity := sim;
                smoothness := sm; spill := sp |})
  ∧ (∀ s, well_formed_color s = true →
       hexToRgb s = rgb_of_value (color_value (strip_hash s))).
Proof.
  split; [|apply hexToRgb_well_formed].
  intros s Hs. pose proof (hexToRgb_malformed s Hs) as Hdef.
  split; [done|]. intros. unfold applyChromaKey. simpl.
  by rewrite Hdef.
Qed.

Lemma hexToRgb_fallback_witness :
  hexToRgb "green" = default_key
  ∧ applyChromaKey [0; 255; 0; 255; 9; 9; 9; 255] 2 1
      {| enabled := true; keyColor := "green"; similarity := div (num 1) (num 10);
         smoothness := num 0; spill := num 0 |}
    = [0; 255; 0; 0; 9; 9; 9; 255]
  ∧ hexToRgb "#FF8000" = {| red := 255; green := 128; blue := 0 |}
  ∧ hexToRgb "0a1b2c" = {| red := 10; green := 27; blue := 44 |}.
Proof.
  destruct hexToRgb_fallback as [Hbad Hgood].
  destruct (Hbad "green"%string eq_refl) as [Hdef Hkey].
  split; [exact Hdef|]. split.
  - rewrite Hkey. reflexivity.
  - split.
    + rewrite (Hgood "#FF8000"%string eq_refl). reflexivity.
    + rewrite (Hgood "0a1b2c"%string eq_refl). reflexivity.
Defined.

(** ** Chroma key *)

Lemma chroma_pixel_length target T s sp i d :
  length (chroma_pixel target T s sp i d) = length d.
Proof.
  unfold chroma_pixel. repeat case_match; by rewrite ?length_wr.
Qed.

Lemma chroma_pixel_frame target T s sp i d j :
  ¬ (i ≤ j < i + 4) → rd (chroma_pixel target T s sp i d) j = rd d j.
Proof.
  intros Hj. unfold chroma_pixel.
  repeat case_match; rewrite ?rd_wr_ne by lia; done.
Qed.

Lemma chroma_pixel_local target T s sp i d d' :
  length d = length d' →
  (∀ j, i ≤ j < i + 4 → rd d j = rd d' j) →
  ∀ j, i ≤ j < i + 4 →
    rd (chroma_pixel target T s sp i d) j = rd (chroma_pixel target T s sp i d') j.
Proof.
  intros Hlen Heq j Hj. unfold chroma_pixel.
  rewrite <- !(Heq i), <- !(Heq (i + 1)), <- !(Heq (i + 2)) by lia.
  repeat case_match; rewrite ?rd_wr, ?length_wr, <- ?Hlen, <- ?(Heq j) by lia; done.
Qed.

Lemma applyChromaKey_rd data W H params j :
  enabled params = true → 0 ≤ j < Z.of_nat (length data) →
  rd (applyChromaKey data W H params) j
  = rd (chroma_pixel (hexToRgb (keyColor params))
          (mul (mul (similarity params) (num 442)) (mul (similarity params) (num 442)))
          (mul (smoothness params) (num 100)) (spill params) (4 * (j / 4)) data) j.
Proof.
  intros Hen Hj. unfold applyChromaKey. rewrite Hen. simpl negb. cbv iota.
  apply for_pixels_rd;
    auto using chroma_pixel_length, chroma_pixel_frame, chroma_pixel_local.
Qed.

(** On the ramp, a pixel at distance 0 from the key gets alpha 0: the
    threshold is then not positive, and [sqrt 0 - sqrt T] is 0 or NaN. *)
Lemma ramp_alpha_at_key (T s : number) :
  lt (num 0) T = false → gt s (num 0) = true →
  toUint8Clamp (mul (div (sub (sqrt (num 0)) (sqrt T)) s) (num 255)) = 0.
Proof.
  destruct T as [[]|[]| |[] mT eT]; destruct s as [[]|[]| |[] ms es]; done.
Qed.

Lemma distSq_at_key target :
  distSq_of target (Some (red target)) (Some (green target)) (Some (blue target))
  = num 0.
Proof. unfold distSq_of. by rewrite !Z.sub_diag. Qed.

(** C2 (amended). In the enabled chroma key, a pixel whose R, G and B equal
    the key colour gets alpha 0 whenever the squared threshold
    [(similarity * 442)^2] is positive, and also whenever the feather band
    is active, that is [smoothness * 100 > 0] and
    [(similarity * 442)^2 + (smoothness * 100)^2 > 0]; with similarity 0
    and smoothness 0 the pixel is left unchanged. *)
Theorem chromaKey_exact_match (data : list Z) (W H : Z) (params : ChromaParams)
    (p a : Z) :
  enabled params = true → 0 ≤ p →
  let target := hexToRgb (keyColor params) in
  rd data (4 * p) = Some (red target) →
  rd data (4 * p + 1) = Some (green target) →
  rd data (4 * p + 2) = Some (blue target) →
  rd data (4 * p + 3) = Some a →
  let distThreshold := mul (similarity params) (num 442) in
  let distThresholdSq := mul distThreshold distThreshold in
  let smoothRange := mul (smoothness params) (num 100) in
  let out := applyChromaKey data W H params in
  (lt (num 0) distThresholdSq = true
   ∨ (gt smoothRange (num 0) = true
      ∧ lt (num 0) (add distThresholdSq (mul smoothRange smoothRange)) = true) →
   rd out (4 * p + 3) = Some 0)
  ∧ (similarity params = num 0 → smoothness params = num 0 →
     ∀ c, 0 ≤ c < 4 → rd out (4 * p + c) = rd data (4 * p + c)).
Proof.
  intros Hen Hp target Hr Hg Hb Ha dT T s out. subst out.
  pose proof (rd_Some_range _ _ _ Ha) as Hrange.
  assert (∀ c, 0 ≤ c < 4 → 4 * ((4 * p + c) / 4) = 4 * p) as Hpix by (intros; lia).
  split.
  - intros Hcase. rewrite applyChromaKey_rd by (done || lia).
    rewrite Hpix by lia. fold target dT T s. unfold chroma_pixel.
    rewrite Hr, Hg, Hb, distSq_at_key.
    destruct (lt (num 0) T) eqn:HT; [by rewrite rd_wr_eq by lia|].
    destruct Hcase as [?|[Hs Hband]]; [done|].
    rewrite Hs, Hband. cbn [andb].
    rewrite ramp_alpha_at_key by done.
    destruct (gt (spill params) (num 0)); rewrite rd_wr_eq; rewrite ?length_wr; (done || lia).
  - intros Hsim Hsm c Hc. rewrite applyChromaKey_rd by (done || lia).
    rewrite Hpix by lia. unfold chroma_pixel.
    rewrite Hr, Hg, Hb, distSq_at_key, Hsim, Hsm. done.
Qed.

Lemma chromaKey_exact_match_witness :
  let params := {| enabled := true; keyColor := "#00ff00";
                   similarity := div (num 2) (num 5); smoothness := num 0;
                   spill := num 0 |} in
  rd (applyChromaKey [9; 9; 9; 255; 0; 255; 0; 255] 2 1 params) (4 * 1 + 3) = Some 0.
Proof.
  intros params.
  assert (0 ≤ 1) as Hp by lia.
  pose proof (chromaKey_exact_match [9; 9; 9; 255; 0; 255; 0; 255] 2 1 params 1 255
                eq_refl Hp eq_refl eq_refl eq_refl eq_refl) as [Hzero _].
  apply Hzero. left. reflexivity.
Defined.

(** C2, as stated, fails: with similarity 0 and smoothness 0 a pixel equal
    to the key colour keeps its alpha. *)
Lemma chromaKey_exact_match_counterexample :
  let params := {| enabled := true; keyColor := "#00ff00";
                   similarity := num 0; smoothness := num 0; spill := num 0 |} in
  let data := [0; 255; 0; 255] in
  hexToRgb (keyColor params) = {| red := 0; green := 255; blue := 0 |}
  ∧ applyChromaKey data 1 1 params = [0; 255; 0; 255]
  ∧ rd (applyChromaKey data 1 1 params) 3 ≠ Some 0.
Proof.
  intros params data. split; [reflexivity|]. split; [reflexivity|].
  vm_compute. discriminate.
Qed.

(** ** Blend stage: hard mix *)

Lemma hardMix_pixel_length blend thresh mix255 i d :
  length (hardMix_pixel blend thresh mix255 i d) = length d.
Proof. unfold hardMix_pixel. by rewrite !length_wr. Qed.

Lemma hardMix_pixel_rd blend thresh mix255 i d j :
  rd (hardMix_pixel blend thresh mix255 i d) j =
    if decide (i ≤ j < i + 3 ∧ 0 ≤ j < Z.of_nat (length d))
    then Some (hardMix_channel thresh mix255 (avg_channel (rd d j) (rd blend j)))
    else rd d j.
Proof.
  unfold hardMix_pixel. rewrite !rd_wr, !length_wr.
  repeat case_decide; try done; try lia.
  all: destruct_and?; subst; repeat f_equal; lia.
Qed.

Lemma hardMix_pixel_frame blend thresh mix255 i d j :
  ¬ (i ≤ j < i + 4) → rd (hardMix_pixel blend thresh mix255 i d) j = rd d j.
Proof. intros. rewrite hardMix_pixel_rd. case_decide; [lia | done]. Qed.

Lemma hardMix_pixel_local blend thresh mix255 i d d' :
  length d = length d' →
  (∀ j, i ≤ j < i + 4 → rd d j = rd d' j) →
  ∀ j, i ≤ j < i + 4 →
    rd (hardMix_pixel blend thresh mix255 i d) j
    = rd (hardMix_pixel blend thresh mix255 i d') j.
Proof.
  intros Hlen Heq j Hj. rewrite !hardMix_pixel_rd, Hlen, Heq by done. done.
Qed.

Lemma bytes_rd (d : list Z) i v : bytes d → rd d i = Some v → 0 ≤ v ≤ 255.
Proof.
  unfold bytes, rd. rewrite Forall_lookup. intros Hall. case_decide; [|done].
  apply Hall.
Qed.

Lemma avg_channel_bytes a b :
  0 ≤ a ≤ 255 → 0 ≤ b ≤ 255 → avg_channel (Some a) (Some b) = (a + b) / 2.
Proof.
  intros. unfold avg_channel, sar1. rewrite toInt32_small; lia.
Qed.

(** C4 (amended). In hard-mix mode, for every pixel and each of the R, G
    and B channels: with [avg] the truncated average [floor((A + B) / 2)] of
    the two bytes and [mix255 = (mix / 100) * 255], the output channel is
    the byte nearest (ties to even) to [min(255, avg + mix255)] when
    [avg > threshold], and to [max(0, avg - mix255)] otherwise; the alpha
    channel is unchanged and no draw is consumed.  The arithmetic is that
    of the code, on doubles; for an integer mix of [0, 100] and an integer
    threshold of [0, 255] the stored byte is the exact value
    [avg + mix * 2.55] (or [avg - mix * 2.55]) clamped and rounded to the
    nearest integer, ties to even. *)
Theorem hardMix_channels (data blend : list Z) (W H : Z) (params : BlendParams)
    (g : rng) (n : nat) :
  mode params = hard_mix → bytes data → bytes blend →
  let mix255 := mul (div (mix params) (num 100)) (num 255) in
  let thresh := threshold params in
  ∃ out,
    renderBlend data (Some blend) W H params g n = Done (out, n)
    ∧ length out = length data
    ∧ ∀ p alpha, 0 ≤ p → rd data (4 * p + 3) = Some alpha →
        rd out (4 * p + 3) = Some alpha
        ∧ ∀ c a b, 0 ≤ c < 3 →
            rd data (4 * p + c) = Some a → rd blend (4 * p + c) = Some b →
            let avg := (a + b) / 2 in
            rd out (4 * p + c) =
              Some (toUint8Clamp
                      (if gt (num avg) thresh
                       then min (num 255) (add (num avg) mix255)
                       else max (num 0) (sub (num avg) mix255)))
            ∧ ∀ mixv thr,
                0 ≤ mixv ≤ 100 → 0 ≤ thr ≤ 255 →
                mix params = num mixv → threshold params = num thr →
                rd out (4 * p + c) =
                  Some (if thr <? avg
                        then Z.min 255 (nearest_even (100 * avg + 255 * mixv) 100)
                        else Z.max 0 (nearest_even (100 * avg - 255 * mixv) 100)).
Proof.
  intros Hmode Hdata Hblend mix255 thresh.
  unfold renderBlend. rewrite Hmode. fold mix255 thresh.
  eexists. split; [reflexivity|].
  split; [apply for_pixels_length, hardMix_pixel_length|].
  intros p alpha Hp Halpha.
  pose proof (rd_Some_range _ _ _ Halpha) as Hrange.
  split.
  - rewrite for_pixels_rd
      by (auto using hardMix_pixel_length, hardMix_pixel_frame, hardMix_pixel_local
          || lia).
    rewrite hardMix_pixel_rd. rewrite decide_False by lia. done.
  - intros c a b Hc Ha Hb.
    rewrite for_pixels_rd
      by (auto using hardMix_pixel_length, hardMix_pixel_frame, hardMix_pixel_local
          || lia).
    rewrite hardMix_pixel_rd. rewrite decide_True by lia.
    pose proof (bytes_rd _ _ _ Hdata Ha) as Hra.
    pose proof (bytes_rd _ _ _ Hblend Hb) as Hrb.
    rewrite Ha, Hb, avg_channel_bytes by done.
    split; [done|]. intros mixv thr Hmix Hthr Hm Ht.
    subst thresh mix255. rewrite Hm, Ht.
    rewrite hardMix_channel_integer by lia. done.
Qed.

Lemma hardMix_channels_witness :
  let params := {| mode := hard_mix; mix := num 50; threshold := num 5;
                   scale := num 0 |} in
  ∃ out,
    renderBlend [10; 10; 10; 255; 1; 2; 3; 4] (Some [10; 10; 10; 255; 0; 0; 0; 0])
      2 1 params (λ _, num 0) 0%nat = Done (out, 0%nat)
    ∧ rd out 0 = Some 138 ∧ rd out 3 = Some 255.
Proof.
  intros params.
  destruct (hardMix_channels [10; 10; 10; 255; 1; 2; 3; 4]
              [10; 10; 10; 255; 0; 0; 0; 0] 2 1 params (λ _, num 0) 0%nat)
    as (out & Hrun & _ & Hpix).
  - reflexivity.
  - unfold bytes. repeat constructor; lia.
  - unfold bytes. repeat constructor; lia.
  - exists out. split; [exact Hrun|].
    assert (0 ≤ 0) as H0 by lia.
    destruct (Hpix 0 255 H0 eq_refl) as [Halpha Hch].
    split; [|exact Halpha].
    assert (0 ≤ 0 < 3) as Hc by lia.
    exact (proj1 (Hch 0 10 10 Hc eq_refl eq_refl)).
Defined.

(** C4, as stated, fails: a stored channel is a byte, and the claimed
    value [min(255, avg + mix * 2.55)] need not be one. *)
Lemma hardMix_channels_counterexample :
  let params := {| mode := hard_mix; mix := num 50; threshold := num 5;
                   scale := num 0 |} in
  renderBlend [10; 10; 10; 255] (Some [10; 10; 10; 255]) 1 1 params (λ _, num 0) 0%nat
  = Done ([138; 138; 138; 255], 0%nat)
  ∧ (hardMix_claimed 10 10 (inject_Z 50) (inject_Z 5) == 275 # 2)%Q
  ∧ ¬ (inject_Z 138 == hardMix_claimed 10 10 (inject_Z 50) (inject_Z 5))%Q.
Proof.
  intros params. split; [reflexivity|]. split; [reflexivity|].
  vm_compute. discriminate.
Qed.


(** ** Rounding never produces NaN *)

Lemma shr_1_nonneg mrs : 0 ≤ shr_m mrs → 0 ≤ shr_m (shr_1 mrs).
Proof.
  destruct mrs as [m r s]. simpl. destruct m as [|[p|p|]|[p|p|]]; simpl; lia.
Qed.

Lemma iter_pos_shr_1_nonneg p mrs :
  0 ≤ shr_m mrs → 0 ≤ shr_m (SpecFloat.iter_pos shr_1 p mrs).
Proof.
  revert mrs. induction p as [p IH|p IH|]; intros mrs Hm; simpl;
    auto using shr_1_nonneg.
Qed.

Lemma shr_fexp_nonneg m e l :
  0 ≤ m → 0 ≤ shr_m (fst (shr_fexp prec emax m e l)).
Proof.
  intros Hm. unfold shr_fexp.
  generalize (fexp prec emax (Zdigits2 m + e) - e). intros k.
  assert (0 ≤ shr_m (shr_record_of_loc m l)) as Hrec by (by destruct l as [|[]]).
  unfold shr. destruct k; cbn [fst]; auto using iter_pos_shr_1_nonneg.
Qed.

Lemma round_nearest_even_nonneg m l : 0 ≤ m → 0 ≤ round_nearest_even m l.
Proof.
  intros Hm. unfold round_nearest_even.
  destruct l as [|[]]; try destruct (Z.even m); lia.
Qed.

Lemma binary_round_aux_not_nan sx mx ex lx :
  0 ≤ mx → binary_round_aux prec emax sx mx ex lx ≠ S754_nan.
Proof.
  intros Hm. unfold binary_round_aux.
  pose proof (shr_fexp_nonneg mx ex lx Hm) as H1.
  destruct (shr_fexp prec emax mx ex lx) as [mrs' e']. cbn [fst] in H1.
  pose proof (shr_fexp_nonneg _ e' loc_Exact
                (round_nearest_even_nonneg _ (loc_of_shr_record mrs') H1)) as H2.
  destruct (shr_fexp prec emax _ e' loc_Exact) as [mrs'' e'']. cbn [fst] in H2.
  destruct (shr_m mrs''); [discriminate | | lia].
  destruct (_ <=? _); discriminate.
Qed.

Lemma mul_finite_not_nan (u x : number) :
  is_finite_nonzero u = true → x ≠ NaN → mul u x ≠ NaN.
Proof.
  unfold NaN, mul, SFmul.
  destruct u as [| | |su mu eu]; try discriminate. intros _ Hx.
  destruct x as [sx|sx| |sx mx ex]; try discriminate; [congruence|].
  apply binary_round_aux_not_nan. lia.
Qed.

Lemma mul_two_not_nan (x : number) : x ≠ NaN → mul x (num 2) ≠ NaN.
Proof.
  change (num 2) with (S754_finite false 4503599627370496 (-51)).
  unfold NaN, mul, SFmul. intros Hx.
  destruct x as [sx|sx| |sx mx ex]; try discriminate; [congruence|].
  apply binary_round_aux_not_nan. lia.
Qed.

Lemma floor_not_nan (x : number) : x ≠ NaN → floor x ≠ JNaN.
Proof. unfold NaN. destruct x as [[]|[]| |[] m e]; (discriminate || congruence). Qed.

(** [channel / 127.5 - 1] is a finite non-zero number for every byte. *)
Lemma channel_offset_finite b :
  0 ≤ b ≤ 255 →
  is_finite_nonzero (sub (div (num b) (div (num 255) (num 2))) (num 1)) = true.
Proof.
  intros Hb.
  assert (forallb (λ b, is_finite_nonzero
                          (sub (div (num b) (div (num 255) (num 2))) (num 1)))
                  (seqZ 0 256) = true) as Hall by (vm_compute; reflexivity).
  rewrite forallb_forall in Hall. apply Hall.
  apply list_elem_of_In, elem_of_seqZ. lia.
Qed.

Lemma displace_not_nan b ds :
  0 ≤ b ≤ 255 → ds ≠ NaN → displace (Some b) ds ≠ JNaN.
Proof.
  intros Hb Hds. unfold displace. apply floor_not_nan.
  apply mul_finite_not_nan; [by apply channel_offset_finite | done].
Qed.

(** ** Loops in the monad *)

Lemma forM_app {A S : Type} (l1 l2 : list A) (body : A → S → M S) (s : S) g n :
  forM (l1 ++ l2) body s g n =
    match forM l1 body s g n with
    | Done (s', n') => forM l2 body s' g n'
    | RangeError => RangeError
    | Diverges => Diverges
    end.
Proof.
  revert s n. induction l1 as [|x l1 IH]; intros s n; [done|].
  cbn [forM app]. unfold mbind, M_bind.
  destruct (body x s g n) as [[s' n']| |]; [apply IH | done | done].
Qed.

(** A pixel loop whose iterations each consume exactly one draw. *)
Lemma forM_pixels_one_draw (body : Z → list Z → M (list Z))
    (f : number → Z → list Z → list Z) (g : rng) (m : nat) (d : list Z) (n : nat) :
  (∀ i d pos, body i d g pos = Done (f (g pos) i d, S pos)) →
  forM ((λ k : nat, 4 * Z.of_nat k) <$> seq 0 m) body d g n =
    Done (foldl (λ s i, f (g (n + Z.to_nat (i / 4))%nat) i s) d
                ((λ k : nat, 4 * Z.of_nat k) <$> seq 0 m),
          (n + m)%nat).
Proof.
  intros Hbody. induction m as [|m IH].
  - cbn. unfold mret, M_ret. do 2 f_equal. lia.
  - rewrite seq_S, fmap_app, forM_app, IH, foldl_app. cbn [fmap list_fmap forM foldl].
    unfold mbind, M_bind. rewrite Hbody. unfold mret, M_ret.
    do 3 f_equal; [|lia]. f_equal. lia.
Qed.

(** ** Blend stage: displacement *)

Lemma displacement_pixel_step buffer blend W H mx ds i d g pos :
  displacement_pixel buffer blend W H mx ds i d g pos
  = Done (displacement_write buffer blend W H mx ds (g pos) i d, S pos).
Proof.
  unfold displacement_pixel, displacement_write, mbind, M_bind, random.
  by destruct (gt (g pos) (sub (num 1) mx)).
Qed.

Lemma displacement_write_length buffer blend W H mx ds r i d :
  length (displacement_write buffer blend W H mx ds r i d) = length d.
Proof. unfold displacement_write. case_match; by rewrite ?length_wr. Qed.

Lemma displacement_write_rd buffer blend W H mx ds r i d j :
  rd (displacement_write buffer blend W H mx ds r i d) j =
    if decide (i ≤ j < i + 3 ∧ 0 ≤ j < Z.of_nat (length d))
    then (if gt r (sub (num 1) mx)
          then Some (rd0 buffer (displacement_source blend W H ds i + (j - i)))
          else rd d j)
    else rd d j.
Proof.
  unfold displacement_write. destruct (gt r _); [|by case_decide].
  rewrite !rd_wr, !length_wr.
  repeat case_decide; try done; try lia.
  all: destruct_and?; subst; repeat f_equal; lia.
Qed.

Lemma clamp_coord_spec c shift n :
  shift ≠ JNaN → 1 ≤ n → 0 ≤ c < n →
  clamp_coord (jadd (JInt c) shift) n = JInt (clamp_to_bounds c shift n)
  ∧ 0 ≤ clamp_to_bounds c shift n < n.
Proof.
  intros Hs Hn Hc. unfold clamp_coord, clamp_to_bounds.
  destruct shift as [| | |k]; [done | | |]; cbn [jadd jlt jge].
  - split; [done | lia].
  - assert ((n <=? n) = true) as Hnn by lia. split; [done | lia].
  - destruct (c + k <? 0) eqn:Hlt; [split; [f_equal|]; lia|].
    destruct (n <=? c + k) eqn:Hge; split; try f_equal; lia.
Qed.

Lemma js_column W x y : 1 ≤ W → 0 ≤ x < W → 0 ≤ y → js_rem (JInt (y * W + x)) W = JInt x.
Proof.
  intros. unfold js_rem. assert ((W =? 0) = false) as -> by lia.
  by rewrite pixel_column by lia.
Qed.

Lemma js_row W x y :
  1 ≤ W → 0 ≤ x < W → 0 ≤ y →
  js_quot (jadd (JInt (y * W + x)) (jneg (JInt x))) W = JInt y.
Proof.
  intros. unfold js_quot, jneg, jadd. assert ((W =? 0) = false) as -> by lia.
  replace (y * W + x + - x) with (y * W + x - x) by ring.
  by rewrite pixel_row by lia.
Qed.

(** The source index of the pixel [(x, y)]. *)
Lemma displacement_source_pixel blend W H ds x y :
  1 ≤ W → 1 ≤ H → 4 * W * H < 2 ^ 31 → 0 ≤ x < W → 0 ≤ y < H →
  displace (rd blend (4 * (y * W + x))) ds ≠ JNaN →
  displace (rd blend (4 * (y * W + x) + 1)) ds ≠ JNaN →
  let sx := clamp_to_bounds x (displace (rd blend (4 * (y * W + x))) ds) W in
  let sy := clamp_to_bounds y (displace (rd blend (4 * (y * W + x) + 1)) ds) H in
  (0 ≤ sx < W ∧ 0 ≤ sy < H)
  ∧ displacement_source blend W H ds (4 * (y * W + x)) = 4 * (sy * W + sx).
Proof.
  intros HW HH Hsize Hx Hy HsX HsY sx sy.
  destruct (clamp_coord_spec x _ W HsX HW Hx) as [HcX HrX].
  destruct (clamp_coord_spec y _ H HsY HH Hy) as [HcY HrY].
  fold sx in HcX, HrX. fold sy in HcY, HrY.
  split; [done|].
  assert (y * W + W ≤ H * W) by nia.
  unfold displacement_source.
  rewrite shr2_small by nia.
  rewrite js_column, js_row by lia. rewrite HcX, HcY. cbn [jmul jadd jtoInt].
  apply shl2_small; nia.
Qed.

(** C3 (amended). In displacement mode, with the draws [g n], [g (n+1)], ...
    given, the pass reads a snapshot of A taken before any write; the pixel
    [(x, y)] uses the draw number [y * W + x] and is updated exactly when
    that draw exceeds [1 - mix/100]; an updated pixel receives the R, G and
    B channels of the snapshot pixel at
    [(x + floor((B.red/127.5 - 1) * scale * 2),
      y + floor((B.green/127.5 - 1) * scale * 2))]
    clamped to the buffer bounds, and keeps its own alpha; the other
    pixels are unchanged.  The bar and the shifts are the values the code
    computes, on doubles. *)
Theorem displacement_copies_rgb (data blend : list Z) (W H : Z)
    (params : BlendParams) (g : rng) (n : nat) :
  mode params = displacement →
  1 ≤ W → 1 ≤ H → Z.of_nat (length data) = 4 * W * H →
  length blend = length data → 4 * W * H < 2 ^ 31 →
  bytes blend → scale params ≠ NaN →
  let bar := sub (num 1) (div (mix params) (num 100)) in
  let ds := mul (scale params) (num 2) in
  ∃ out,
    renderBlend data (Some blend) W H params g n
    = Done (out, (n + Z.to_nat (W * H))%nat)
    ∧ length out = length data
    ∧ ∀ x y, 0 ≤ x < W → 0 ≤ y < H →
        let p := y * W + x in
        let draw := g (n + Z.to_nat p)%nat in
        let sx := clamp_to_bounds x (displace (rd blend (4 * p)) ds) W in
        let sy := clamp_to_bounds y (displace (rd blend (4 * p + 1)) ds) H in
        let q := sy * W + sx in
        (0 ≤ sx < W ∧ 0 ≤ sy < H)
        ∧ rd out (4 * p + 3) = rd data (4 * p + 3)
        ∧ ∀ c, 0 ≤ c < 3 →
            rd out (4 * p + c) =
              if gt draw bar then rd data (4 * q + c) else rd data (4 * p + c).
Proof.
  intros Hmode HW HH Hlen Hblen Hsize Hbytes Hscale bar ds.
  assert (ds ≠ NaN) as Hds by (by apply mul_two_not_nan).
  set (mx := div (mix params) (num 100)).
  set (body' := λ (i : Z) (s : list Z),
         displacement_write data blend W H mx ds (g (n + Z.to_nat (i / 4))%nat) i s).
  assert (Hbl : ∀ i d, length (body' i d) = length d)
    by (intros; apply displacement_write_length).
  assert (Hbf : ∀ i d j, ¬ (i ≤ j < i + 4) → rd (body' i d) j = rd d j).
  { intros i d j Hj. unfold body'. rewrite displacement_write_rd.
    case_decide; [lia | done]. }
  assert (Hbc : ∀ i d d', length d = length d' →
            (∀ j, i ≤ j < i + 4 → rd d j = rd d' j) →
            ∀ j, i ≤ j < i + 4 → rd (body' i d) j = rd (body' i d') j).
  { intros i d d' Hl Heq j Hj. unfold body'.
    rewrite !displacement_write_rd, Hl, Heq by done. done. }
  assert (((length data + 3) `div` 4)%nat = Z.to_nat (W * H)) as Hcount.
  { apply Nat2Z.inj. rewrite Nat2Z.inj_div, Nat2Z.inj_add. simpl Z.of_nat. nia. }
  exists (for_pixels (length data) body' data).
  split; [|split].
  - unfold renderBlend. rewrite Hmode. fold mx ds.
    unfold pixel_starts.
    rewrite (forM_pixels_one_draw _ (displacement_write data blend W H mx ds))
      by (intros; apply displacement_pixel_step).
    by rewrite <- Hcount.
  - by apply for_pixels_length.
  - intros x y Hx Hy p draw sx sy q.
    assert (y * W + W ≤ H * W) by nia.
    assert (∀ c, 0 ≤ c < 4 →
              is_Some (rd blend (4 * p + c))) as Hbrd.
    { intros c Hc. apply rd_in_range. rewrite Hblen. subst p. nia. }
    assert (∀ c, 0 ≤ c < 4 → displace (rd blend (4 * p + c)) ds ≠ JNaN) as Hnn.
    { intros c Hc. destruct (Hbrd c Hc) as [b Hb]. rewrite Hb.
      apply displace_not_nan; [by eapply bytes_rd | done]. }
    pose proof (Hnn 0 ltac:(lia)) as HsX. rewrite Z.add_0_r in HsX.
    pose proof (Hnn 1 ltac:(lia)) as HsY.
    destruct (displacement_source_pixel blend W H ds x y HW HH Hsize Hx Hy HsX HsY)
      as [[HrX HrY] Hsrc].
    fold p sx sy q in HrX, HrY, Hsrc.
    split; [done|].
    assert (∀ c, 0 ≤ c < 4 → 4 * ((4 * p + c) / 4) = 4 * p) as Hpix by (intros; lia).
    assert (∀ c, 0 ≤ c < 4 →
              rd (for_pixels (length data) body' data) (4 * p + c)
              = rd (body' (4 * p) data) (4 * p + c)) as Hrd.
    { intros c Hc. rewrite for_pixels_rd by (done || subst p; nia).
      by rewrite Hpix. }
    unfold body' in Hrd.
    replace (Z.to_nat (4 * p / 4)) with (Z.to_nat p) in Hrd by lia.
    fold draw in Hrd.
    split.
    + rewrite Hrd by lia. rewrite displacement_write_rd.
      rewrite decide_False by lia. done.
    + intros c Hc. rewrite Hrd by lia. rewrite displacement_write_rd.
      rewrite decide_True by (subst p; nia).
      change (sub (num 1) mx) with bar. destruct (gt draw bar); [|done].
      rewrite Hsrc. replace (4 * p + c - 4 * p) with c by lia.
      symmetry. apply rd0_Some. subst q. nia.
Qed.

Lemma displacement_copies_rgb_witness :
  let params := {| mode := displacement; mix := num 100; threshold := num 5;
                   scale := num 1 |} in
  let g : rng := λ _, div (num 1) (num 2) in
  ∃ out,
    renderBlend [1; 2; 3; 4; 5; 6; 7; 8] (Some [255; 0; 0; 0; 0; 0; 0; 0]) 2 1 params g 0%nat
    = Done (out, 2%nat)
    ∧ rd out 0 = Some 5 ∧ rd out 3 = Some 4.
Proof.
  intros params g.
  assert (bytes [255; 0; 0; 0; 0; 0; 0; 0]) as Hbytes
    by (unfold bytes; repeat constructor; lia).
  assert (scale params ≠ NaN) as Hscale by (vm_compute; discriminate).
  assert (1 ≤ 2) as HW by lia. assert (1 ≤ 1) as HH by lia.
  destruct (displacement_copies_rgb [1; 2; 3; 4; 5; 6; 7; 8] [255; 0; 0; 0; 0; 0; 0; 0]
              2 1 params g 0%nat eq_refl HW HH eq_refl eq_refl eq_refl Hbytes Hscale)
    as (out & Hrun & _ & Hpix).
  exists out. split; [exact Hrun|].
  assert (0 ≤ 0 < 2) as Hx by lia. assert (0 ≤ 0 < 1) as Hy by lia.
  destruct (Hpix 0 0 Hx Hy) as (_ & Halpha & Hrgb).
  assert (0 ≤ 0 < 3) as Hc by lia.
  split; [exact (Hrgb 0 Hc) | exact Halpha].
Defined.

(** C3, as stated, fails: an updated pixel does not receive the whole
    snapshot pixel, its alpha channel is not copied.  Besides, the shift is
    the floor of a product of doubles, which can be one below the floor of
    the exact product: for scale 3 and a channel value of 170 the exact
    product is 2 and the shift is 1. *)
Lemma displacement_copies_rgb_counterexample :
  let params := {| mode := displacement; mix := num 100; threshold := num 5;
                   scale := num 1 |} in
  let g : rng := λ _, div (num 1) (num 2) in
  let A := [1; 2; 3; 4; 5; 6; 7; 8] in
  let B := [255; 0; 0; 0; 0; 0; 0; 0] in
  ∃ out,
    renderBlend A (Some B) 2 1 params g 0%nat = Done (out, 2%nat)
    ∧ gt (g 0%nat) (sub (num 1) (div (mix params) (num 100))) = true
    ∧ clamp_to_bounds 0 (displace (rd B 0) (mul (scale params) (num 2))) 2 = 1
    ∧ clamp_to_bounds 0 (displace (rd B 1) (mul (scale params) (num 2))) 1 = 0
    ∧ pixel_at A (4 * (0 * 2 + 1)) = (5, 6, 7, 8)
    ∧ pixel_at out (4 * (0 * 2 + 0)) = (5, 6, 7, 4)
    ∧ pixel_at out (4 * (0 * 2 + 0)) ≠ pixel_at A (4 * (0 * 2 + 1))
    ∧ displace (Some 170) (mul (num 3) (num 2)) = JInt 1
    ∧ Qfloor ((inject_Z 170 / (255 # 2) - inject_Z 1) * inject_Z 3 * inject_Z 2)%Q = 2.
Proof.
  intros params g A B. exists [5; 6; 7; 4; 1; 2; 3; 8].
  repeat (split; [reflexivity|]). split; [vm_compute; discriminate|].
  split; reflexivity.
Qed.

(** ** Block displacement *)

Lemma blockShift_pick_eq W H g n :
  blockShift_pick W H g n = Done (picked_block W H g n, (6 + n)%nat).
Proof. reflexivity. Qed.

Lemma subarray_in_range (d : list Z) s l :
  0 ≤ s → 0 ≤ l → s + l ≤ Z.of_nat (length d) →
  subarray d s (s + l) = take (Z.to_nat l) (drop (Z.to_nat s) d)
  ∧ length (subarray d s (s + l)) = Z.to_nat l.
Proof.
  intros Hs Hl Hfit. unfold subarray, rel_index.
  assert ((s <? 0) = false) as -> by lia.
  assert ((s + l <? 0) = false) as -> by lia.
  rewrite !Z.min_l by lia. replace (s + l - s) with l by lia.
  split; [done|]. rewrite length_take, length_drop. lia.
Qed.

Lemma set_in_range (d src : list Z) off :
  0 ≤ off → off + Z.of_nat (length src) ≤ Z.of_nat (length d) →
  ∃ d', set d src off = Done d'
        ∧ length d' = length d
        ∧ ∀ j, ¬ (off ≤ j < off + Z.of_nat (length src)) → rd d' j = rd d j.
Proof.
  intros Hoff Hfit. unfold set.
  assert ((off <? 0) = false) as -> by lia.
  assert ((Z.of_nat (length d) <? off + Z.of_nat (length src)) = false) as -> by lia.
  cbn [orb]. eexists. split; [reflexivity|]. split.
  - rewrite !length_app, length_take, length_drop. lia.
  - intros j Hj. unfold rd. case_decide; [|done].
    destruct (decide (j < off)) as [Hlt|Hge].
    + rewrite lookup_app_l by (rewrite length_take; lia).
      apply lookup_take_lt. lia.
    + rewrite lookup_app_r by (rewrite length_take; lia).
      rewrite lookup_app_r by (rewrite length_take; lia).
      rewrite lookup_drop, length_take. f_equal. lia.
Qed.

(** A row copy never throws; it either leaves the buffer as it is or
    replaces bytes of [destStart, destStart + len), a range inside the
    array. *)
Lemma blockShift_row_safe W blk y (d : list Z) g n :
  0 ≤ blockW blk →
  let destStart := ((destY blk + y) * W + destX blk) * 4 in
  let len := blockW blk * 4 in
  ∃ d', blockShift_row W blk y d g n = Done (d', n)
        ∧ length d' = length d
        ∧ (d' = d
           ∨ (0 ≤ destStart ∧ destStart + len < Z.of_nat (length d)
              ∧ ∀ j, ¬ (destStart ≤ j < destStart + len) → rd d' j = rd d j)).
Proof.
  intros Hw destStart len. unfold blockShift_row. fold destStart len.
  set (srcStart := ((srcY blk + y) * W + srcX blk) * 4).
  destruct (_ && _) eqn:Hguard; [|exists d; auto].
  rewrite !andb_true_iff in Hguard. destruct Hguard as [[[Hs Hd] Hs0] Hd0].
  apply Z.ltb_lt in Hs, Hd. apply Z.leb_le in Hs0, Hd0.
  assert (0 ≤ len) by (subst len; lia).
  clearbody destStart len srcStart.
  destruct (subarray_in_range d srcStart len) as [_ Hlen]; [lia..|].
  destruct (set_in_range d (subarray d srcStart (srcStart + len)) destStart)
    as (d' & Hset & Hl & Hout); [lia | rewrite Hlen; lia|].
  exists d'. unfold lift. rewrite Hset. split; [done|]. split; [done|]. right.
  split; [lia|]. split; [lia|]. intros j Hj. apply Hout. rewrite Hlen. lia.
Qed.

Lemma blockShift_rows_safe W blk (ys : list Z) (d : list Z) g n :
  0 ≤ blockW blk →
  ∃ d', forM ys (blockShift_row W blk) d g n = Done (d', n) ∧ length d' = length d.
Proof.
  intros Hw. revert d. induction ys as [|y ys IH]; intros d.
  - by exists d.
  - destruct (blockShift_row_safe W blk y d g n Hw) as (d1 & Hrow & Hl1 & _).
    destruct (IH d1) as (d2 & Hrows & Hl2).
    exists d2. cbn [forM]. unfold mbind, M_bind. rewrite Hrow.
    split; [done | congruence].
Qed.

Lemma blockShift_blocks_safe W H g (k : nat) :
  ∀ (s : Z) (n : nat) (d : list Z),
    (∀ b, (b < k)%nat → 0 ≤ blockW (picked_block W H g (n + 6 * b)%nat)) →
    ∃ d', forM (seqZ s (Z.of_nat k)) (blockShift_block W H) d g n
          = Done (d', (n + 6 * k)%nat)
          ∧ length d' = length d.
Proof.
  induction k as [|k IH]; intros s n d Hw.
  - exists d. split; [|done]. by rewrite Nat.mul_0_r, Nat.add_0_r.
  - rewrite seqZ_cons by lia. cbn [forM]. unfold mbind at 1, M_bind at 1.
    unfold blockShift_block at 1. unfold mbind at 1, M_bind at 1.
    rewrite blockShift_pick_eq.
    pose proof (Hw 0%nat ltac:(lia)) as Hw0.
    rewrite Nat.mul_0_r, Nat.add_0_r in Hw0.
    destruct (blockShift_rows_safe W (picked_block W H g n)
                (seqZ 0 (blockH (picked_block W H g n))) d g (6 + n)%nat Hw0)
      as (d1 & Hrows & Hl1).
    rewrite Hrows.
    destruct (IH (Z.succ s) (6 + n)%nat d1) as (d2 & Hrest & Hl2).
    { intros b Hb. replace (6 + n + 6 * b)%nat with (n + 6 * S b)%nat by lia.
      apply Hw. lia. }
    exists d2. replace (Z.pred (Z.of_nat (S k))) with (Z.of_nat k) by lia.
    rewrite Hrest. split; [|congruence]. do 2 f_equal. lia.
Qed.

Lemma no_blocks_at_zero (intensity : number) k :
  SFeqb intensity (num 0) = true →
  loop_count (floor (mul (div intensity (num 100)) (num 30))) = Some k →
  k = 0%nat.
Proof.
  destruct intensity as [[]|[]| |[] m e]; try discriminate; intros _ Hk;
    vm_compute in Hk; congruence.
Qed.

Lemma picked_block_in_bounds W H g n :
  let blk := picked_block W H g n in
  blockW blk ≤ W → blockH blk ≤ H → dest_in_bounds W H blk.
Proof.
  intros blk Hw Hh. unfold dest_in_bounds. subst blk. cbn [destX destY blockW blockH picked_block] in *. lia.
Qed.

(** C5 (amended). When the number of blocks is finite ([k]) and the drawn
    block widths are not negative, the block displacement returns normally
    on every buffer, with its length unchanged: no write leaves the byte
    array.  Every row copy is behind the bounds check and replaces only
    bytes of [destStart, destStart + 4 * blockW), a range inside the array,
    and every byte of the array of a [W] x [H] image belongs to a pixel of
    [0, W) x [0, H).
    When the drawn block is no larger than the image ([blockW <= W] and
    [blockH <= H]) its clamped destination rectangle lies inside
    [0, W) x [0, H). *)
Theorem applyBlockShift_writes_in_bounds (data : list Z) (W H : Z)
    (intensity seed : number) (g : rng) (n k : nat) :
  loop_count (floor (mul (div intensity (num 100)) (num 30))) = Some k →
  (∀ b, (b < k)%nat → 0 ≤ blockW (picked_block W H g (n + 6 * b)%nat)) →
  (∃ out,
     applyBlockShift data W H intensity seed g n = Done (out, (n + 6 * k)%nat)
     ∧ length out = length data)
  ∧ (∀ b y d pos,
       (b < k)%nat →
       let blk := picked_block W H g (n + 6 * b)%nat in
       let destStart := ((destY blk + y) * W + destX blk) * 4 in
       let len := blockW blk * 4 in
       ∃ d', blockShift_row W blk y d g pos = Done (d', pos)
             ∧ length d' = length d
             ∧ (d' = d
                ∨ (0 ≤ destStart ∧ destStart + len < Z.of_nat (length d)
                   ∧ ∀ j, ¬ (destStart ≤ j < destStart + len) → rd d' j = rd d j)))
  ∧ (∀ j, 1 ≤ W → Z.of_nat (length data) = 4 * W * H →
       0 ≤ j < Z.of_nat (length data) →
       0 ≤ (j / 4) `mod` W < W ∧ 0 ≤ j / 4 / W < H)
  ∧ (∀ b, (b < k)%nat →
       let blk := picked_block W H g (n + 6 * b)%nat in
       blockW blk ≤ W → blockH blk ≤ H → dest_in_bounds W H blk).
Proof.
  intros Hk Hw. split; [|split; [|split]].
  - unfold applyBlockShift. destruct (SFeqb intensity (num 0)) eqn:Hz.
    + rewrite (no_blocks_at_zero intensity k Hz Hk).
      exists data. split; [|done]. by rewrite Nat.mul_0_r, Nat.add_0_r.
    + unfold repeatM. rewrite Hk. by apply blockShift_blocks_safe.
  - intros b y d pos Hb. apply blockShift_row_safe. by apply Hw.
  - intros j HW Hlen Hj. rewrite Hlen in Hj.
    assert (0 ≤ j / 4 < H * W) as Hp by lia.
    split; [apply Z.mod_pos_bound; lia|].
    split; [apply Z.div_pos; lia | apply Z.div_lt_upper_bound; lia].
  - intros b Hb. apply picked_block_in_bounds.
Qed.

Lemma applyBlockShift_writes_in_bounds_witness :
  let g : rng := λ n, nth n [num 0; num 0; div (num 1) (num 2); div (num 1) (num 2);
                             div (num 13) (num 25); div (num 1) (num 2)] (num 0) in
  let data := replicate 192 7 in
  (∃ out, applyBlockShift data 12 4 (num 4) (num 0) g 0%nat = Done (out, 6%nat)
          ∧ length out = 192%nat)
  ∧ dest_in_bounds 12 4 (picked_block 12 4 g 0%nat).
Proof.
  intros g data.
  assert (∀ b, (b < 1)%nat → 0 ≤ blockW (picked_block 12 4 g (0 + 6 * b)%nat)) as Hw.
  { intros b Hb. assert (b = 0%nat) as -> by lia. vm_compute. discriminate. }
  destruct (applyBlockShift_writes_in_bounds data 12 4 (num 4) (num 0) g 0%nat 1%nat
              eq_refl Hw) as (Hsafe & _ & _ & Hrect).
  split; [exact Hsafe|].
  assert (0 < 1)%nat as Hb by lia.
  apply (Hrect 0%nat Hb); vm_compute; discriminate.
Defined.

(** C5, as stated, fails: on a narrow buffer the drawn block is wider than
    the image, the clamped destination column is negative, and a guarded
    row copy lands outside the rows of the destination rectangle (here on
    byte 24, that is pixel (2, 1), while the rectangle spans rows 3 and 4). *)
Lemma applyBlockShift_writes_in_bounds_counterexample :
  let g : rng := λ n, nth n [num 0; num 0; num 0; div (num 1) (num 2);
                             div (num 1) (num 2); div (num 1) (num 2)] (num 0) in
  let data := Z.of_nat <$> seq 0 128 in
  picked_block 4 8 g 0%nat
  = {| blockW := 10; blockH := 2; srcX := 0; srcY := 3; destX := -6; destY := 3 |}
  ∧ ¬ dest_in_bounds 4 8 (picked_block 4 8 g 0%nat)
  ∧ ∃ out, applyBlockShift data 4 8 (num 4) (num 0) g 0%nat = Done (out, 6%nat)
           ∧ rd data 24 = Some 24 ∧ rd out 24 = Some 48.
Proof.
  intros g data. split; [reflexivity|]. split.
  - intros [Hx _]. vm_compute in Hx. by apply Hx.
  - eexists. split; [vm_compute; reflexivity|]. split; reflexivity.
Qed.

(** ** The stable sort *)

Section StableSort.
Context {A : Type} (key : A → Z).

Lemma insert_by_perm x l : insert_by key x l ≡ₚ x :: l.
Proof.
  induction l as [|y l IH]; [done|]. cbn [insert_by].
  destruct (key x <=? key y); [done|]. rewrite IH. apply Permutation_swap.
Qed.

Lemma array_sort_perm l : array_sort key l ≡ₚ l.
Proof.
  induction l as [|x l IH]; [done|].
  cbn [array_sort foldr]. fold (array_sort key l). by rewrite insert_by_perm, IH.
Qed.

Lemma array_sort_length l : length (array_sort key l) = length l.
Proof. apply Permutation_length, array_sort_perm. Qed.

Lemma insert_by_sorted x l :
  StronglySorted (λ a b, key a ≤ key b) l →
  StronglySorted (λ a b, key a ≤ key b) (insert_by key x l).
Proof.
  induction 1 as [|y l Hsorted IH Hy]; cbn [insert_by].
  - repeat constructor.
  - destruct (key x <=? key y) eqn:Hle.
    + apply Z.leb_le in Hle. constructor; [by constructor|].
      constructor; [done|]. eapply Forall_impl; [exact Hy|].
      intros z Hz. cbn in Hz |- *. lia.
    + apply Z.leb_gt in Hle. constructor; [done|].
      rewrite insert_by_perm. constructor; [lia | done].
Qed.

Lemma array_sort_sorted l :
  StronglySorted (λ a b, key a ≤ key b) (array_sort key l).
Proof.
  induction l as [|x l IH]; [constructor|].
  cbn [array_sort foldr]. by apply insert_by_sorted.
Qed.

Lemma insert_by_filter k x l :
  filter (λ a, key a = k) (insert_by key x l) = filter (λ a, key a = k) (x :: l).
Proof.
  induction l as [|y l IH]; [done|]. cbn [insert_by].
  destruct (key x <=? key y) eqn:Hle; [done|]. apply Z.leb_gt in Hle.
  rewrite filter_cons, IH, !filter_cons.
  repeat case_decide; try done; lia.
Qed.

Lemma array_sort_filter k l :
  filter (λ a, key a = k) (array_sort key l) = filter (λ a, key a = k) l.
Proof.
  induction l as [|x l IH]; [done|].
  cbn [array_sort foldr]. fold (array_sort key l).
  by rewrite insert_by_filter, !filter_cons, IH.
Qed.

Lemma array_sort_stable l : stable_sort_of key l (array_sort key l).
Proof. split; [apply array_sort_sorted | intros k; apply array_sort_filter]. Qed.

Lemma array_sort_of_sorted l :
  StronglySorted (λ a b, key a ≤ key b) l → array_sort key l = l.
Proof.
  induction 1 as [|x l Hsorted IH Hx]; [done|].
  cbn [array_sort foldr]. fold (array_sort key l). rewrite IH.
  destruct l as [|y l]; [done|]. cbn [insert_by].
  apply Forall_cons_1 in Hx as [Hxy _].
  assert ((key x <=? key y) = true) as -> by lia. done.
Qed.

Lemma array_sort_idemp l : array_sort key (array_sort key l) = array_sort key l.
Proof. apply array_sort_of_sorted, array_sort_sorted. Qed.

End StableSort.

Lemma insert_by_fmap {A B : Type} (f : A → B) (key : B → Z) x l :
  f <$> insert_by (key ∘ f) x l = insert_by key (f x) (f <$> l).
Proof.
  induction l as [|y l IH]; [done|]. cbn [insert_by fmap list_fmap compose].
  destruct (key (f x) <=? key (f y)); [done|]. cbn [fmap list_fmap]. by rewrite <- IH.
Qed.

Lemma array_sort_fmap {A B : Type} (f : A → B) (key : B → Z) l :
  f <$> array_sort (key ∘ f) l = array_sort key (f <$> l).
Proof.
  induction l as [|x l IH]; [done|].
  cbn [array_sort foldr fmap list_fmap].
  fold (array_sort (key ∘ f) l). fold (array_sort key (f <$> l)).
  by rewrite insert_by_fmap, IH.
Qed.

(** ** Row pixel sort: one row *)

Lemma unquad_length (ps : list pixel) : length (flat_map quad ps) = (4 * length ps)%nat.
Proof.
  induction ps as [|[[[r g] b] a] ps IH]; [done|].
  cbn [flat_map quad app length]. lia.
Qed.

Lemma unquad_lookup (ps : list pixel) (x c : nat) p :
  ps !! x = Some p → (c < 4)%nat →
  flat_map quad ps !! (4 * x + c)%nat = quad p !! c.
Proof.
  revert x. induction ps as [|[[[r g] b] a] ps IH]; intros x Hp Hc; [done|].
  destruct x as [|x].
  - apply (inj Some) in Hp. subst p.
    by destruct c as [|[|[|[|c]]]]; try lia.
  - replace (4 * S x + c)%nat with (S (S (S (S (4 * x + c))))) by lia.
    cbn [flat_map quad app lookup list_lookup]. by apply IH.
Qed.

Lemma set_spec (d src : list Z) off :
  0 ≤ off → off + Z.of_nat (length src) ≤ Z.of_nat (length d) →
  ∃ d', set d src off = Done d'
        ∧ length d' = length d
        ∧ (∀ j, ¬ (off ≤ j < off + Z.of_nat (length src)) → rd d' j = rd d j)
        ∧ (∀ i : nat, (i < length src)%nat → rd d' (off + Z.of_nat i) = src !! i).
Proof.
  intros Hoff Hfit.
  destruct (set_in_range d src off Hoff Hfit) as (d' & Hset & Hlen & Hout).
  exists d'. repeat split; try done.
  intros i Hi. unfold set in Hset.
  assert ((off <? 0) = false) as Hf1 by lia.
  assert ((Z.of_nat (length d) <? off + Z.of_nat (length src)) = false) as Hf2 by lia.
  rewrite Hf1, Hf2 in Hset. cbn [orb] in Hset. injection Hset as <-.
  unfold rd. case_decide; [|lia].
  rewrite lookup_app_r by (rewrite length_take; lia).
  rewrite length_take, lookup_app_l by lia. f_equal. lia.
Qed.

Lemma pixel_at_ext (d d' : list Z) i :
  (∀ c, 0 ≤ c < 4 → rd d' (i + c) = rd d (i + c)) → pixel_at d' i = pixel_at d i.
Proof.
  intros Heq. unfold pixel_at, rd0.
  rewrite <- (Z.add_0_r i) at 1 5. rewrite !Heq by lia. done.
Qed.

Lemma pixel_at_quad (d : list Z) i p :
  (∀ c : nat, (c < 4)%nat → rd d (i + Z.of_nat c) = quad p !! c) → pixel_at d i = p.
Proof.
  intros Heq. destruct p as [[[r g] b] a]. unfold pixel_at, rd0.
  pose proof (Heq 0%nat ltac:(lia)) as H0. rewrite Z.add_0_r in H0.
  pose proof (Heq 1%nat ltac:(lia)) as H1.
  pose proof (Heq 2%nat ltac:(lia)) as H2.
  pose proof (Heq 3%nat ltac:(lia)) as H3.
  change (Z.of_nat 1) with 1 in H1. change (Z.of_nat 2) with 2 in H2.
  change (Z.of_nat 3) with 3 in H3.
  cbn [quad lookup list_lookup] in H0, H1, H2, H3. by rewrite H0, H1, H2, H3.
Qed.

Lemma pixelSort_row_spec W y (d : list Z) :
  0 ≤ W → 0 ≤ y → 4 * (y + 1) * W ≤ Z.of_nat (length d) →
  ∃ d', pixelSort_row W y d = Done d'
        ∧ length d' = length d
        ∧ row_pixels d' W y = array_sort pixel_brightness (row_pixels d W y)
        ∧ ∀ y', 0 ≤ y' → y' ≠ y → row_pixels d' W y' = row_pixels d W y'.
Proof.
  intros HW Hy Hfit. unfold pixelSort_row.
  assert ((W <? 0) = false) as -> by lia.
  set (rowStart := y * W * 4).
  set (pa := λ a : Z, pixel_at d (rowStart + a * 4)).
  change (λ a : Z, rd0 d (rowStart + a * 4) + rd0 d (rowStart + a * 4 + 1)
                   + rd0 d (rowStart + a * 4 + 2))
    with (pixel_brightness ∘ pa).
  set (sorted := array_sort (pixel_brightness ∘ pa) (seqZ 0 W)).
  set (ps := pa <$> sorted).
  assert (flat_map (λ a : Z, [rd0 d (rowStart + a * 4); rd0 d (rowStart + a * 4 + 1);
                              rd0 d (rowStart + a * 4 + 2); rd0 d (rowStart + a * 4 + 3)])
                   sorted = flat_map quad ps) as ->.
  { subst ps. generalize sorted. intros l. induction l as [|a l IH]; [done|].
    cbn [flat_map fmap list_fmap]. by rewrite IH. }
  assert (length ps = Z.to_nat W) as Hps.
  { subst ps sorted. by rewrite length_fmap, array_sort_length, length_seqZ. }
  assert (ps = array_sort pixel_brightness (row_pixels d W y)) as Hsorted.
  { subst ps sorted. rewrite array_sort_fmap. f_equal. unfold row_pixels.
    apply list_fmap_ext. intros i a _. subst pa rowStart. cbn beta. f_equal. lia. }
  destruct (set_spec d (flat_map quad ps) rowStart) as (d' & Hset & Hlen & Hout & Hin).
  { subst rowStart. nia. }
  { rewrite unquad_length, Hps. subst rowStart. nia. }
  exists d'. split; [done|]. split; [done|]. split.
  - rewrite <- Hsorted. unfold row_pixels. apply list_eq. intros i.
    rewrite list_lookup_fmap.
    destruct (decide (i < Z.to_nat W)%nat) as [Hi|Hi].
    + rewrite lookup_seqZ_lt by lia. cbn [fmap option_fmap option_map].
      destruct (lookup_lt_is_Some_2 ps i) as [p Hp]; [lia|].
      rewrite Hp. f_equal. apply pixel_at_quad. intros c Hc.
      replace (4 * (y * W + (0 + Z.of_nat i)) + Z.of_nat c)
        with (rowStart + Z.of_nat (4 * i + c)) by (subst rowStart; lia).
      rewrite Hin by (rewrite unquad_length; lia).
      by apply unquad_lookup.
    + rewrite lookup_seqZ_ge by lia. symmetry. apply lookup_ge_None. lia.
  - intros y' Hy' Hne. unfold row_pixels. apply list_fmap_ext.
    intros i x Hx. apply lookup_seqZ in Hx as [-> Hi].
    apply pixel_at_ext. intros c Hc. apply Hout.
    rewrite unquad_length, Hps. subst rowStart. nia.
Qed.
(** ** Row pixel sort: the loop *)

Lemma picked_rows_S H g n k :
  picked_rows H g n (S k)
  = randomInt_of 0 (H - 1) (g n) :: picked_rows H g (S n) k.
Proof.
  unfold picked_rows. cbn [seq fmap list_fmap]. rewrite Nat.add_0_r. f_equal.
  rewrite <- seq_shift, <- list_fmap_compose. apply list_fmap_ext.
  intros i j _. cbn. do 2 f_equal. lia.
Qed.

Lemma pixelSort_step_eq W H r (d : list Z) g n :
  pixelSort_step W H r d g n =
    match pixelSort_row W (randomInt_of 0 (H - 1) (g n)) d with
    | Done d' => Done (d', S n)
    | RangeError => RangeError
    | Diverges => Diverges
    end.
Proof.
  unfold pixelSort_step, randomInt, random, mbind, M_bind, mret, M_ret, lift.
  by destruct (pixelSort_row _ _ _).
Qed.

Lemma pixelSort_loop W H g (k : nat) :
  0 ≤ W → 0 ≤ H →
  ∀ (s : Z) (n : nat) (d : list Z),
    Z.of_nat (length d) = 4 * W * H →
    Forall (λ y, 0 ≤ y < H) (picked_rows H g n k) →
    ∃ d', forM (seqZ s (Z.of_nat k)) (pixelSort_step W H) d g n = Done (d', (n + k)%nat)
          ∧ length d' = length d
          ∧ ∀ y, 0 ≤ y < H →
              row_pixels d' W y =
                if decide (y ∈ picked_rows H g n k)
                then array_sort pixel_brightness (row_pixels d W y)
                else row_pixels d W y.
Proof.
  intros HW HH. induction k as [|k IH]; intros s n d Hlen Hrows.
  - exists d. split; [by rewrite Nat.add_0_r|]. split; [done|].
    intros y Hy. rewrite decide_False; [done|]. cbn. apply not_elem_of_nil.
  - rewrite picked_rows_S in Hrows |- *.
    apply Forall_cons_1 in Hrows as [Hr0 Hrest].
    set (r0 := randomInt_of 0 (H - 1) (g n)) in *.
    destruct (pixelSort_row_spec W r0 d) as (d1 & Hrow & Hl1 & Hsorted & Hother);
      [lia | lia | nia |].
    destruct (IH (Z.succ s) (S n) d1) as (d2 & Hloop & Hl2 & Hrows2);
      [congruence | done |].
    exists d2. split; [|split; [congruence|]].
    + rewrite seqZ_cons by lia. cbn [forM]. unfold mbind at 1, M_bind at 1.
      rewrite pixelSort_step_eq. fold r0. rewrite Hrow.
      replace (Z.pred (Z.of_nat (S k))) with (Z.of_nat k) by lia.
      rewrite Hloop. do 2 f_equal. lia.
    + intros y Hy. rewrite Hrows2 by done.
      destruct (decide (y = r0)) as [->|Hne].
      * rewrite Hsorted, array_sort_idemp.
        rewrite (decide_True (P := r0 ∈ r0 :: _)) by (apply elem_of_cons; by left).
        by case_decide.
      * rewrite Hother by (done || lia).
        destruct (decide (y ∈ picked_rows H g (S n) k)) as [Hin|Hnin].
        -- rewrite decide_True; [done|]. apply elem_of_cons. by right.
        -- rewrite decide_False; [done|]. rewrite elem_of_cons. tauto.
Qed.

Lemma no_rows_at_zero H (t : number) k :
  SFeqb t (num 0) = true → loop_count (rowsToSort H t) = Some k → k = 0%nat.
Proof.
  unfold rowsToSort.
  destruct t as [[]|[]| |[] m e]; try discriminate; intros _.
  - change (div (S754_zero true) (num 100)) with (S754_zero true).
    unfold mul, SFmul.
    destruct (num H) as [[]|[]| |[] mh eh]; intros Hk; vm_compute in Hk; congruence.
  - change (div (S754_zero false) (num 100)) with (S754_zero false).
    unfold mul, SFmul.
    destruct (num H) as [[]|[]| |[] mh eh]; intros Hk; vm_compute in Hk; congruence.
Qed.

(** The rows after the pass, for both claims about the pixel sort. *)
Lemma applyPixelSort_rows (data : list Z) (W H : Z) (t : number) (g : rng) (n k : nat) :
  0 ≤ W → 0 ≤ H → Z.of_nat (length data) = 4 * W * H →
  loop_count (rowsToSort H t) = Some k →
  Forall (λ y, 0 ≤ y < H) (picked_rows H g n k) →
  ∃ out, applyPixelSort data W H t g n = Done (out, (n + k)%nat)
         ∧ length out = length data
         ∧ ∀ y, 0 ≤ y < H →
             row_pixels out W y =
               if decide (y ∈ picked_rows H g n k)
               then array_sort pixel_brightness (row_pixels data W y)
               else row_pixels data W y.
Proof.
  intros HW HH Hlen Hk Hrows. unfold applyPixelSort.
  destruct (SFeqb t (num 0)) eqn:Hz.
  - rewrite (no_rows_at_zero H t k Hz Hk). exists data.
    split; [by rewrite Nat.add_0_r|]. split; [done|].
    intros y Hy. rewrite decide_False; [done|]. cbn. apply not_elem_of_nil.
  - unfold repeatM. rewrite Hk. by apply pixelSort_loop.
Qed.

Lemma concat_fmap_perm {A B : Type} (f f' : A → list B) (l : list A) :
  (∀ x, x ∈ l → f x ≡ₚ f' x) → concat (f <$> l) ≡ₚ concat (f' <$> l).
Proof.
  induction l as [|x l IH]; intros Hf; [done|].
  cbn [fmap list_fmap concat]. apply Permutation_app.
  - apply Hf, elem_of_cons. by left.
  - apply IH. intros z Hz. apply Hf, elem_of_cons. by right.
Qed.

(** C6 (amended). With the draws given, the row pixel sort performs [k]
    row selections, where [k] is the value of
    [Math.floor(height * (pixelSort / 100))] in double arithmetic (not
    always [floor(H * pixelSort / 100)]); selection number [j] takes the
    row [randomInt(0, H - 1)] of the draw [g (n + j)], so rows may repeat;
    when these rows are rows of the buffer, the pass returns with [k] draws
    consumed, every selected row is the stable sort of its original pixels
    by ascending brightness [R + G + B], and every row never selected is
    unchanged. *)
Theorem applyPixelSort_stable_rows (data : list Z) (W H : Z) (t : number)
    (g : rng) (n k : nat) :
  0 ≤ W → 0 ≤ H → Z.of_nat (length data) = 4 * W * H →
  loop_count (rowsToSort H t) = Some k →
  Forall (λ y, 0 ≤ y < H) (picked_rows H g n k) →
  ∃ out,
    applyPixelSort data W H t g n = Done (out, (n + k)%nat)
    ∧ length (picked_rows H g n k) = k
    ∧ ∀ y, 0 ≤ y < H →
        (y ∈ picked_rows H g n k →
         stable_sort_of pixel_brightness (row_pixels data W y) (row_pixels out W y))
        ∧ (y ∉ picked_rows H g n k → row_pixels out W y = row_pixels data W y).
Proof.
  intros HW HH Hlen Hk Hrows.
  destruct (applyPixelSort_rows data W H t g n k HW HH Hlen Hk Hrows)
    as (out & Hrun & _ & Hout).
  exists out. split; [done|]. split.
  { unfold picked_rows. by rewrite length_fmap, length_seq. }
  intros y Hy. rewrite (Hout y Hy). split; intros Hin.
  - rewrite decide_True by done. apply array_sort_stable.
  - by rewrite decide_False.
Qed.

Lemma applyPixelSort_stable_rows_witness :
  let data := [9; 9; 9; 1; 5; 5; 5; 2; 9; 0; 0; 3;
               1; 1; 1; 1; 0; 0; 0; 0; 0; 0; 0; 0] in
  let g : rng := λ _, num 0 in
  ∃ out,
    applyPixelSort data 3 2 (num 50) g 0%nat = Done (out, 1%nat)
    ∧ stable_sort_of pixel_brightness (row_pixels data 3 0) (row_pixels out 3 0)
    ∧ row_pixels out 3 1 = row_pixels data 3 1.
Proof.
  intros data g.
  assert (picked_rows 2 g 0 1 = [0]) as Hpicked by (vm_compute; reflexivity).
  assert (Forall (λ y, 0 ≤ y < 2) (picked_rows 2 g 0 1)) as Hrows
    by (rewrite Hpicked; repeat constructor; lia).
  assert (0 ≤ 3) as HW by lia. assert (0 ≤ 2) as HH by lia.
  destruct (applyPixelSort_stable_rows data 3 2 (num 50) g 0%nat 1%nat
              HW HH eq_refl eq_refl Hrows) as (out & Hrun & _ & Hout).
  exists out. split; [exact Hrun|]. split.
  - assert (0 ≤ 0 < 2) as Hy by lia.
    apply (proj1 (Hout 0 Hy)). rewrite Hpicked. apply elem_of_cons. by left.
  - assert (0 ≤ 1 < 2) as Hy by lia.
    apply (proj2 (Hout 1 Hy)). rewrite Hpicked.
    intros Hin. apply elem_of_cons in Hin as [Hin|Hin]; [lia|].
    by apply elem_of_nil in Hin.
Defined.

(** C6, as stated, fails on the number of rows: for a height of 100 and
    pixelSort 29 the double product [100 * (29 / 100)] is just below 29,
    and 28 rows are selected, not [floor(100 * 29 / 100) = 29]. *)
Lemma applyPixelSort_stable_rows_counterexample :
  rowsToSort 100 (num 29) = JInt 28
  ∧ 100 * 29 / 100 = 29
  ∧ ∃ out, applyPixelSort (replicate 400 0) 1 100 (num 29) (λ _, num 0) 0%nat
           = Done (out, 28%nat).
Proof.
  split; [vm_compute; reflexivity|]. split; [reflexivity|].
  eexists. vm_compute. reflexivity.
Qed.

(** C10. Under the same conditions (a finite number of selections, each a
    row of the buffer), for every pixelSort value and every sequence of
    draws the row pixel sort returns a buffer of the same length in which
    every row is a permutation of the pixels (whole RGBA 4-tuples) of the
    same row of the input; hence no pixel changes row and the pixels of
    the whole buffer are a permutation of the original ones. *)
Theorem applyPixelSort_permutes_rows (data : list Z) (W H : Z) (t : number)
    (g : rng) (n k : nat) :
  0 ≤ W → 0 ≤ H → Z.of_nat (length data) = 4 * W * H →
  loop_count (rowsToSort H t) = Some k →
  Forall (λ y, 0 ≤ y < H) (picked_rows H g n k) →
  ∃ out,
    applyPixelSort data W H t g n = Done (out, (n + k)%nat)
    ∧ length out = length data
    ∧ (∀ y, 0 ≤ y < H → row_pixels out W y ≡ₚ row_pixels data W y)
    ∧ all_pixels out W H ≡ₚ all_pixels data W H.
Proof.
  intros HW HH Hlen Hk Hrows.
  destruct (applyPixelSort_rows data W H t g n k HW HH Hlen Hk Hrows)
    as (out & Hrun & Hlout & Hout).
  assert (∀ y, 0 ≤ y < H → row_pixels out W y ≡ₚ row_pixels data W y) as Hperm.
  { intros y Hy. rewrite (Hout y Hy). case_decide; [apply array_sort_perm | done]. }
  exists out. split; [done|]. split; [done|]. split; [done|].
  unfold all_pixels. apply concat_fmap_perm.
  intros y Hy. apply Hperm. apply elem_of_seqZ in Hy. lia.
Qed.

Lemma applyPixelSort_permutes_rows_witness :
  let data := [9; 9; 9; 1; 5; 5; 5; 2; 9; 0; 0; 3;
               1; 1; 1; 1; 0; 0; 0; 0; 0; 0; 0; 0] in
  let g : rng := λ j, if (j =? 0)%nat then div (num 3) (num 4) else num 0 in
  ∃ out,
    applyPixelSort data 3 2 (num 100) g 0%nat = Done (out, 2%nat)
    ∧ length out = 24%nat
    ∧ all_pixels out 3 2 ≡ₚ all_pixels data 3 2.
Proof.
  intros data g.
  assert (picked_rows 2 g 0 2 = [1; 0]) as Hpicked by (vm_compute; reflexivity).
  assert (Forall (λ y, 0 ≤ y < 2) (picked_rows 2 g 0 2)) as Hrows
    by (rewrite Hpicked; repeat constructor; lia).
  assert (0 ≤ 3) as HW by lia. assert (0 ≤ 2) as HH by lia.
  destruct (applyPixelSort_permutes_rows data 3 2 (num 100) g 0%nat 2%nat
              HW HH eq_refl eq_refl Hrows) as (out & Hrun & Hlen & _ & Hall).
  exists out. split; [exact Hrun|]. split; [exact Hlen | exact Hall].
Defined.

(** * Further properties of the passes *)

(** ** Channel shift: the other channels, and negative offsets *)

Lemma applyRGBShift_only_red_bytes (data : list Z) (W H offset j : Z) :
  j `mod` 4 ≠ 0 → rd (applyRGBShift data W H offset) j = rd data j.
Proof.
  intros Hj. unfold applyRGBShift. destruct (offset =? 0); [done|].
  destruct (decide (0 ≤ j < Z.of_nat (length data))) as [Hin|Hout].
  - rewrite for_pixels_rd
      by auto using rgbShift_body_length, rgbShift_body_frame, rgbShift_body_local.
    unfold rgbShift_body. case_match; [|done]. apply rd_wr_ne. lia.
  - rewrite !rd_out_of_range; [done | done |].
    by rewrite for_pixels_length by apply rgbShift_body_length.
Qed.

(** X1. For every buffer, width, height and offset, the channel shift
    keeps the length of the buffer and never changes a byte that is not
    the first (red) byte of a pixel: green, blue and alpha are left as they
    are. *)
Theorem applyRGBShift_only_red (data : list Z) (W H offset : Z) :
  length (applyRGBShift data W H offset) = length data
  ∧ ∀ j, j `mod` 4 ≠ 0 → rd (applyRGBShift data W H offset) j = rd data j.
Proof.
  split; [|intros j Hj; by apply applyRGBShift_only_red_bytes].
  unfold applyRGBShift. destruct (offset =? 0); [done|].
  apply for_pixels_length, rgbShift_body_length.
Qed.




(** ** Block displacement: what a row copy does *)

(** X3. A row copy of the block displacement whose source and destination
    ranges pass the bounds check copies the [4 * blockW] bytes of the
    source range, as they were before the copy, to the destination range
    (also when the ranges overlap) and changes no other byte.  The check is
    strict: a range that ends exactly at the end of the buffer is not
    copied. *)
Theorem blockShift_row_copies (W : Z) (blk : block) (y : Z) (d : list Z)
    (g : rng) (n : nat) :
  0 ≤ blockW blk →
  let srcStart := ((srcY blk + y) * W + srcX blk) * 4 in
  let destStart := ((destY blk + y) * W + destX blk) * 4 in
  let len := blockW blk * 4 in
  (0 ≤ srcStart → 0 ≤ destStart →
   srcStart + len < Z.of_nat (length d) → destStart + len < Z.of_nat (length d) →
   ∃ d', blockShift_row W blk y d g n = Done (d', n)
         ∧ length d' = length d
         ∧ (∀ k, 0 ≤ k < len → rd d' (destStart + k) = rd d (srcStart + k))
         ∧ (∀ j, ¬ (destStart ≤ j < destStart + len) → rd d' j = rd d j))
  ∧ (Z.of_nat (length d) ≤ srcStart + len ∨ Z.of_nat (length d) ≤ destStart + len →
     blockShift_row W blk y d g n = Done (d, n)).
Proof.
  intros Hw srcStart destStart len. split.
  - intros Hs0 Hd0 Hs Hd. unfold blockShift_row. fold srcStart destStart len.
    assert (0 ≤ len) by (subst len; lia).
    clearbody destStart len srcStart.
    assert ((srcStart + len <? Z.of_nat (length d)) = true) as -> by lia.
    assert ((destStart + len <? Z.of_nat (length d)) = true) as -> by lia.
    assert ((0 <=? srcStart) = true) as -> by lia.
    assert ((0 <=? destStart) = true) as -> by lia.
    cbn [andb].
    destruct (subarray_in_range d srcStart len) as [Hsub Hlen]; [lia..|].
    destruct (set_spec d (subarray d srcStart (srcStart + len)) destStart)
      as (d' & Hset & Hl & Hout & Hin); [lia | rewrite Hlen; lia|].
    exists d'. unfold lift. rewrite Hset. split; [done|]. split; [done|]. split.
    + intros k Hk. replace k with (Z.of_nat (Z.to_nat k)) at 1 by lia.
      rewrite Hin by (rewrite Hlen; lia). rewrite Hsub.
      rewrite lookup_take_lt by lia. rewrite lookup_drop.
      unfold rd. case_decide; [|lia]. f_equal. lia.
    + intros j Hj. apply Hout. rewrite Hlen. lia.
  - intros Hend. unfold blockShift_row. fold srcStart destStart len.
    destruct Hend.
    + assert ((srcStart + len <? Z.of_nat (length d)) = false) as -> by lia. done.
    + assert ((destStart + len <? Z.of_nat (length d)) = false) as -> by lia.
      by rewrite andb_false_r.
Qed.

Lemma blockShift_row_copies_witness :
  let blk := {| blockW := 1; blockH := 1; srcX := 0; srcY := 0; destX := 1; destY := 0 |} in
  let d := [1; 2; 3; 4; 5; 6; 7; 8; 9; 10; 11; 12] in
  blockShift_row 3 blk 0 d (λ _, num 0) 0%nat
    = Done ([1; 2; 3; 4; 1; 2; 3; 4; 9; 10; 11; 12], 0%nat)
  ∧ ∃ d', blockShift_row 3 blk 0 d (λ _, num 0) 0%nat = Done (d', 0%nat)
          ∧ rd d' (((0 + 0) * 3 + 1) * 4 + 2) = rd d (((0 + 0) * 3 + 0) * 4 + 2).
Proof.
  intros blk d. split; [reflexivity|].
  assert (0 ≤ blockW blk) as Hw by (vm_compute; discriminate).
  destruct (proj1 (blockShift_row_copies 3 blk 0 d (λ _, num 0) 0%nat Hw))
    as (d' & Hrun & _ & Hcopy & _);
    [vm_compute; discriminate | vm_compute; discriminate | reflexivity | reflexivity |].
  exists d'. split; [exact Hrun|]. apply Hcopy. vm_compute. split; [discriminate | reflexivity].
Defined.

(** ** Loops that return *)






(** ** Scanline degradation *)


(** ** Loops with an invariant *)

Lemma forM_invariant {A S : Type} (I : nat → S → Prop) (l : list A)
    (body : A → S → M S) (g : rng) :
  (∀ k x s n, l !! k = Some x → I k s →
     ∃ s' n', body x s g n = Done (s', n') ∧ I (Datatypes.S k) s') →
  ∀ s n, I 0%nat s → ∃ s' n', forM l body s g n = Done (s', n') ∧ I (length l) s'.
Proof.
  revert I. induction l as [|x l IH]; intros I Hbody s n Hs.
  - by exists s, n.
  - destruct (Hbody 0%nat x s n eq_refl Hs) as (s1 & n1 & Hx & Hs1).
    destruct (IH (λ k, I (Datatypes.S k)) (λ k, Hbody (Datatypes.S k)) s1 n1 Hs1)
      as (s2 & n2 & Hl & Hs2).
    exists s2, n2. cbn [forM]. unfold mbind, M_bind. by rewrite Hx.
Qed.

(** ** Scanline degradation without noise *)

Lemma scale_channel_rd factor d i j :
  rd (scale_channel factor d i) j = if decide (i = j) then scaled factor (rd d j) else rd d j.
Proof.
  unfold scale_channel. rewrite rd_wr. case_decide as Hc.
  - destruct Hc as [-> Hi]. rewrite decide_True by done.
    destruct (rd_in_range d j Hi) as [v Hv]. by rewrite Hv.
  - case_decide as He; [|done]. subst j.
    rewrite rd_out_of_range; [done|]. intros Hi. apply Hc. by split.
Qed.

Lemma scanlines_scale_rd factor d i j :
  rd (scanlines_scale factor i d) j
  = if decide (i ≤ j < i + 3) then scaled factor (rd d j) else rd d j.
Proof.
  unfold scanlines_scale. rewrite !scale_channel_rd.
  repeat case_decide; try done; lia.
Qed.

Lemma scanlines_scale_length factor d i : length (scanlines_scale factor i d) = length d.
Proof. unfold scanlines_scale, scale_channel. by rewrite !length_wr. Qed.

Lemma scanlines_pixel_quiet factor noiseChance i d g n :
  lt (g n) noiseChance = false →
  scanlines_pixel factor noiseChance i d g n = Done (scanlines_scale factor i d, S n).
Proof.
  intros Hq. unfold scanlines_pixel, mbind, M_bind, random. by rewrite Hq.
Qed.

Lemma scanline_bounds_table :
  forallb (λ i, let f := scanline_factor (num i) in
                forallb (λ v, let s := toUint8Clamp (mul (num v) f) in
                              (v / 2 <=? s) && (s <=? v))
                        (seqZ 0 256))
          (seqZ 1 10) = true.
Proof. vm_compute. reflexivity. Qed.

Section Quiet.
Variables (data : list Z) (W H : Z) (lineSkip : jsint) (factor noiseChance : number).
Variable g : rng.
Hypothesis HW : 0 < W.
Hypothesis Hquiet : ∀ k, lt (g k) noiseChance = false.


Local Lemma col_range j : 0 ≤ (j `mod` (4 * W)) / 4 < W.
Proof.
  assert (0 ≤ j `mod` (4 * W) < 4 * W) by (apply Z.mod_pos_bound; lia). lia.
Qed.

Local Lemma done_to_next_row row d : scanlines_done data W lineSkip factor row W d → scanlines_done data W lineSkip factor (row + 1) 0 d.
Proof.
  intros [Hl Hd]. split; [done|]. intros j. rewrite Hd. apply decide_ext.
  pose proof (col_range j) as Hc.
  generalize dependent ((j `mod` (4 * W)) / 4). generalize (j / (4 * W)).
  intros q c Hc. split; (intros [Hg Hq]; split; [done | lia]).
Qed.

Local Lemma done_to_skip row d :
  on_scanline row lineSkip = false → scanlines_done data W lineSkip factor row 0 d → scanlines_done data W lineSkip factor (row + 1) 0 d.
Proof.
  intros Hoff [Hl Hd]. split; [done|]. intros j. rewrite Hd. apply decide_ext.
  pose proof (col_range j) as Hc. unfold scanline_byte.
  destruct (decide (j / (4 * W) = row)) as [Heq|Hne].
  - rewrite Heq, Hoff. split; intros [(_ & _ & ?) _]; done.
  - generalize dependent ((j `mod` (4 * W)) / 4). generalize dependent (j / (4 * W)).
    intros q Hne c Hc. split; (intros [Hg Hq]; split; [done | lia]).
Qed.

Local Lemma pixel_of_byte row (k : nat) j :
  0 ≤ row → (Z.of_nat k < W) →
  let i := row * W * 4 + 4 * (0 + Z.of_nat k) in
  (i ≤ j < i + 4) ↔ (0 ≤ j ∧ j / (4 * W) = row ∧ (j `mod` (4 * W)) / 4 = Z.of_nat k).
Proof.
  intros Hrow Hk i. subst i. split.
  - intros Hj. assert (j / (4 * W) = row) as Hr by nia.
    split; [nia|]. split; [done|]. rewrite Z.mod_eq, Hr by lia. lia.
  - intros (Hj & Hr & Hc). rewrite Z.mod_eq, Hr in Hc by lia.
    assert (0 ≤ j - 4 * W * row).
    { rewrite <- Hr. pose proof (Z.mul_div_le j (4 * W)). lia. }
    lia.
Qed.

Local Lemma quiet_row row d n :
  0 ≤ row → on_scanline row lineSkip = true → scanlines_done data W lineSkip factor row 0 d →
  ∃ d' n', forM ((λ k, row * W * 4 + 4 * k) <$> seqZ 0 W)
             (scanlines_pixel factor noiseChance) d g n = Done (d', n')
           ∧ scanlines_done data W lineSkip factor row W d'.
Proof.
  intros Hrow Hon Hd.
  destruct (forM_invariant (λ k, scanlines_done data W lineSkip factor row (Z.of_nat k))
              ((λ k, row * W * 4 + 4 * k) <$> seqZ 0 W)
              (scanlines_pixel factor noiseChance) g) with (s := d) (n := n)
    as (d' & n' & Hrun & Hd'); [|done|].
  - intros k i s pos Hi [Hl Hs].
    rewrite list_lookup_fmap in Hi.
    destruct (seqZ 0 W !! k) as [x|] eqn:Hx; [|done].
    apply lookup_seqZ in Hx as [-> Hk]. apply (inj Some) in Hi. subst i.
    rewrite scanlines_pixel_quiet by done.
    eexists _, _. split; [reflexivity|].
    split; [by rewrite scanlines_scale_length|].
    intros j. rewrite scanlines_scale_rd, Hs.
    pose proof (pixel_of_byte row k j Hrow ltac:(lia)) as Hpix. cbv zeta in Hpix.
    set (i := row * W * 4 + 4 * (0 + Z.of_nat k)) in *.
    pose proof (col_range j) as Hc.
    destruct (decide (i ≤ j < i + 3)) as [Hin|Hout].
    + destruct (proj1 Hpix ltac:(lia)) as (Hj & Hr & Hcol).
      rewrite decide_False by (rewrite Hr, Hcol; lia).
      rewrite decide_True; [done|]. rewrite Hr, Hcol. split; [|lia].
      unfold scanline_byte. rewrite Hr. split; [subst i; lia | done].
    + apply decide_ext. unfold scanline_byte.
      replace (Z.of_nat (S k)) with (Z.of_nat k + 1) by lia.
      split; (intros [(Hm & Hj & Hg) Hq]; split; [done|]); [lia|].
      destruct Hq as [?|[Hr Hcol]]; [lia|]. right. split; [done|].
      assert ((j `mod` (4 * W)) / 4 ≠ Z.of_nat k); [|lia].
      intros Hk'. apply Hout. destruct (proj2 Hpix) as [? ?]; [done|].
      assert (j ≠ i + 3); [|lia]. subst i. lia.
  - exists d', n'. split; [done|].
    rewrite length_fmap, length_seqZ in Hd'. by rewrite Z2Nat.id in Hd' by lia.
Qed.

Lemma quiet_rows n :
  0 ≤ H →
  ∃ d' n', forM (seqZ 0 H) (scanlines_row W lineSkip factor noiseChance) data g n
             = Done (d', n')
           ∧ length d' = length data
           ∧ ∀ j, rd d' j =
               if decide (j `mod` 4 ≠ 3 ∧ 0 ≤ j ∧ j / (4 * W) < H
                          ∧ on_scanline (j / (4 * W)) lineSkip = true)
               then scaled factor (rd data j) else rd data j.
Proof.
  intros HH.
  destruct (forM_invariant (λ k, scanlines_done data W lineSkip factor (Z.of_nat k) 0)
              (seqZ 0 H) (scanlines_row W lineSkip factor noiseChance) g)
    with (s := data) (n := n) as (d' & n' & Hrun & Hl & Hd').
  - intros k y s pos Hy Hs. apply lookup_seqZ in Hy as [-> Hk].
    rewrite Z.add_0_l. unfold scanlines_row.
    replace (Z.of_nat (S k)) with (Z.of_nat k + 1) by lia.
    destruct (on_scanline (Z.of_nat k) lineSkip) eqn:Hon.
    + destruct (quiet_row (Z.of_nat k) s pos) as (s' & pos' & Hrow & Hs');
        [lia | done | done |].
      exists s', pos'. split; [done|]. by apply done_to_next_row.
    + exists s, pos. split; [done|]. by apply done_to_skip.
  - split; [done|]. intros j. rewrite decide_False; [done|].
    pose proof (col_range j) as Hc. intros [(_ & Hj & _) Hq].
    assert (0 ≤ j / (4 * W)) by (apply Z.div_pos; lia). lia.
  - rewrite length_seqZ, Z2Nat.id in Hd' by lia.
    exists d', n'. split; [done|]. split; [done|]. intros j. rewrite Hd'.
    apply decide_ext. pose proof (col_range j) as Hc. unfold scanline_byte.
    split.
    + intros [(Hm & Hj & Hg) Hq]. repeat split; try done. lia.
    + intros (Hm & Hj & Hq & Hg). repeat split; try done. lia.
Qed.

End Quiet.


(** X5. When no draw falls below the noise chance, the scanline pass
    multiplies the red, green and blue bytes of every pixel of every
    scanline row ([y % lineSkip = 0]) by the factor
    [0.5 + (10 - intensity) / 20], the product being stored as a clamped
    byte, rounded to nearest, ties to even.  For an integer intensity of
    [1, 10] the stored byte [s] of a channel [v] satisfies
    [v / 2 <= s <= v]: such a row is darkened, to no less than half. *)
Theorem applyScanlines_darkens (data : list Z) (W H : Z) (intensity : number)
    (g : rng) (n : nat) :
  let lineSkip := jadd (JInt 2) (floor (div (sub (num 10) intensity) (num 2))) in
  let factor := scanline_factor intensity in
  let noiseChance := mul intensity (div (num 1) (num 100)) in
  SFeqb intensity (num 0) = false → 0 < W → 0 ≤ H →
  (∀ k, lt (g k) noiseChance = false) →
  (∃ out n',
     applyScanlines data W H intensity g n = Done (out, n')
     ∧ ∀ x y c v,
         0 ≤ x < W → 0 ≤ y < H → 0 ≤ c < 3 → on_scanline y lineSkip = true →
         rd data (4 * (y * W + x) + c) = Some v →
         rd out (4 * (y * W + x) + c) = Some (toUint8Clamp (mul (num v) factor)))
  ∧ (∀ i v, intensity = num i → 1 ≤ i ≤ 10 → 0 ≤ v ≤ 255 →
       v / 2 ≤ toUint8Clamp (mul (num v) factor) ≤ v).
Proof.
  intros lineSkip factor noiseChance Hon HW HH Hquiet. split.
  - destruct (quiet_rows data W H lineSkip factor noiseChance g HW Hquiet n HH)
      as (out & n' & Hrun & _ & Hout).
    exists out, n'. unfold applyScanlines. rewrite Hon. split; [exact Hrun|].
    intros x y c v Hx Hy Hc Hgrid Hv. rewrite Hout.
    assert ((4 * (y * W + x) + c) / (4 * W) = y) as Hrow by nia.
    rewrite decide_True; [by rewrite Hv|].
    rewrite Hrow. split; [lia|]. split; [nia|]. split; [lia | done].
  - intros i v -> Hi Hv. subst factor.
    pose proof (forallb_seqZ _ _ _ i scanline_bounds_table ltac:(lia)) as Hrow.
    cbv zeta in Hrow.
    pose proof (forallb_seqZ _ _ _ v Hrow ltac:(lia)) as Hcell.
    cbv zeta in Hcell. apply andb_true_iff in Hcell as [Hlo Hhi].
    apply Z.leb_le in Hlo, Hhi. lia.
Qed.

Lemma applyScanlines_darkens_witness :
  let g : rng := λ _, div (num 1) (num 2) in
  applyScanlines [100; 101; 7; 255; 9; 9; 9; 9] 1 2 (num 10) g 0%nat
  = Done ([50; 50; 4; 255; 9; 9; 9; 9], 1%nat)
  ∧ 101 / 2 ≤ toUint8Clamp (mul (num 101) (scanline_factor (num 10))) ≤ 101.
Proof.
  intros g.
  assert (0 < 1) as HW by lia. assert (0 ≤ 2) as HH by lia.
  assert (∀ k, lt (g k) (mul (num 10) (div (num 1) (num 100))) = false) as Hquiet
    by (intros k; reflexivity).
  destruct (applyScanlines_darkens [100; 101; 7; 255; 9; 9; 9; 9] 1 2 (num 10) g 0%nat
              eq_refl HW HH Hquiet) as [_ Hbound].
  split; [reflexivity|].
  apply (Hbound 10 101 eq_refl); lia.
Defined.


(** ** Block displacement: the number of blocks *)

Lemma numBlocks_table :
  forallb (λ i, match floor (mul (div (num i) (num 100)) (num 30)) with
                | JInt z => z =? 3 * i / 10
                | _ => false
                end)
          (seqZ 0 101) = true.
Proof. vm_compute. reflexivity. Qed.

Lemma applyBlockShift_integer (data : list Z) (W H i : Z) (seed : number)
    (g : rng) (n : nat) :
  0 ≤ i ≤ 100 →
  floor (mul (div (num i) (num 100)) (num 30)) = JInt (3 * i / 10)
  ∧ applyBlockShift data W H (num i) seed g n
    = forM (seqZ 0 (3 * i / 10)) (blockShift_block W H) data g n.
Proof.
  intros Hi.
  pose proof (forallb_seqZ _ _ _ i numBlocks_table ltac:(lia)) as Hcell.
  cbv beta in Hcell.
  destruct (floor (mul (div (num i) (num 100)) (num 30))) as [| | |z] eqn:Hfl;
    try discriminate.
  apply Z.eqb_eq in Hcell. subst z.
  split; [done|].
  unfold applyBlockShift. rewrite Hfl.
  destruct (SFeqb (num i) (num 0)) eqn:Hz.
  - assert (i = 0) as ->.
    { assert (i = 0 ∨ 1 ≤ i ≤ 100) as [?|Hpos] by lia; [done|]. exfalso.
      pose proof (forallb_seqZ (λ i, negb (SFeqb (num i) (num 0))) 1 100 i
                    ltac:(vm_compute; reflexivity) ltac:(lia)) as Hnz.
      cbv beta in Hnz. by rewrite Hz in Hnz. }
    reflexivity.
  - unfold repeatM, loop_count.
    assert ((3 * i / 10 <=? 2 ^ 53) = true) as -> by lia.
    by rewrite Z2Nat.id by lia.
Qed.

(** X6. For an integer intensity of [0, 100] (the range of the control)
    the block displacement moves [floor(3 * intensity / 10)] blocks, at
    most 30: here the double arithmetic of
    [Math.floor((intensity / 100) * 30)] agrees with the exact quotient. *)
Theorem applyBlockShift_block_count (data : list Z) (W H i : Z) (seed : number)
    (g : rng) (n : nat) :
  0 ≤ i ≤ 100 →
  floor (mul (div (num i) (num 100)) (num 30)) = JInt (3 * i / 10)
  ∧ 3 * i / 10 ≤ 30
  ∧ applyBlockShift data W H (num i) seed g n
    = forM (seqZ 0 (3 * i / 10)) (blockShift_block W H) data g n.
Proof.
  intros Hi. destruct (applyBlockShift_integer data W H i seed g n Hi) as [Hfl Hrun].
  split; [exact Hfl|]. split; [lia | exact Hrun].
Qed.

Lemma applyBlockShift_block_count_witness :
  floor (mul (div (num 10) (num 100)) (num 30)) = JInt 3
  ∧ applyBlockShift [1; 2; 3; 4] 1 1 (num 10) (num 0) (λ _, num 0) 0%nat
    = forM (seqZ 0 3) (blockShift_block 1 1) [1; 2; 3; 4] (λ _, num 0) 0%nat.
Proof.
  assert (0 ≤ 10 ≤ 100) as Hi by lia.
  destruct (applyBlockShift_block_count [1; 2; 3; 4] 1 1 10 (num 0) (λ _, num 0) 0%nat Hi)
    as (Hfl & _ & Hrun).
  split; [exact Hfl | exact Hrun].
Defined.


(** ** Blend stage: difference *)

Lemma difference_pixel_step blend mx i d g pos :
  difference_pixel blend mx i d g pos
  = Done (difference_write blend mx (g pos) i d, S pos).
Proof.
  unfold difference_pixel, difference_write, mbind, M_bind, random.
  by destruct (lt (g pos) mx).
Qed.

Lemma difference_write_length blend mx r i d :
  length (difference_write blend mx r i d) = length d.
Proof. unfold difference_write. case_match; by rewrite ?length_wr. Qed.

Lemma difference_write_rd blend mx r i d j :
  rd (difference_write blend mx r i d) j =
    if decide (i ≤ j < i + 3 ∧ 0 ≤ j < Z.of_nat (length d))
    then (if lt r mx then Some (abs_diff (rd d j) (rd blend j)) else rd d j)
    else rd d j.
Proof.
  unfold difference_write. destruct (lt r _); [|by case_decide].
  cbv zeta. rewrite !rd_wr, !length_wr.
  repeat case_decide; destruct_and?; try done; try lia.
  all: subst; repeat f_equal; lia.
Qed.

(** X7. In difference mode with a positive mix, iteration [p] of the loop
    takes one draw; when the draw is below [mix / 100] the red, green and
    blue bytes of pixel [p] become the absolute difference with the blend
    image (0 where the blend image has no such byte), otherwise the pixel
    is kept; alpha is never changed.  With a mix that is not positive the
    buffer is returned as it is and no draw is taken. *)
Theorem difference_blend (data blend : list Z) (W H : Z) (params : BlendParams)
    (g : rng) (n : nat) :
  mode params = difference →
  let mx := div (mix params) (num 100) in
  (gt mx (num 0) = false → renderBlend data (Some blend) W H params g n = Done (data, n))
  ∧ (gt mx (num 0) = true →
     ∃ out,
       renderBlend data (Some blend) W H params g n
       = Done (out, (n + (length data + 3) `div` 4)%nat)
       ∧ length out = length data
       ∧ ∀ p, 0 ≤ p →
           rd out (4 * p + 3) = rd data (4 * p + 3)
           ∧ ∀ c a, 0 ≤ c < 3 → rd data (4 * p + c) = Some a →
               rd out (4 * p + c) =
                 if lt (g (n + Z.to_nat p)%nat) mx
                 then Some (abs_diff (Some a) (rd blend (4 * p + c)))
                 else Some a)
  ∧ (∀ a b, 0 ≤ a ≤ 255 → 0 ≤ b ≤ 255 → abs_diff (Some a) (Some b) = Z.abs (a - b)).
Proof.
  intros Hmode mx. split; [|split].
  - intros Hoff. unfold renderBlend. rewrite Hmode. fold mx. by rewrite Hoff.
  - intros Hon.
    set (body' := λ (i : Z) (s : list Z),
           difference_write blend mx (g (n + Z.to_nat (i / 4))%nat) i s).
    assert (Hbl : ∀ i d, length (body' i d) = length d)
      by (intros; apply difference_write_length).
    assert (Hbf : ∀ i d j, ¬ (i ≤ j < i + 4) → rd (body' i d) j = rd d j).
    { intros i d j Hj. unfold body'. rewrite difference_write_rd.
      case_decide; [lia | done]. }
    assert (Hbc : ∀ i d d', length d = length d' →
              (∀ j, i ≤ j < i + 4 → rd d j = rd d' j) →
              ∀ j, i ≤ j < i + 4 → rd (body' i d) j = rd (body' i d') j).
    { intros i d d' Hl Heq j Hj. unfold body'.
      rewrite !difference_write_rd, Hl, Heq by done. done. }
    exists (for_pixels (length data) body' data).
    split; [|split].
    + unfold renderBlend. rewrite Hmode. fold mx. rewrite Hon.
      unfold pixel_starts.
      by rewrite (forM_pixels_one_draw _ (difference_write blend mx))
        by (intros; apply difference_pixel_step).
    + by apply for_pixels_length.
    + intros p Hp.
      assert (∀ c, 0 ≤ c < 4 → 4 * ((4 * p + c) / 4) = 4 * p) as Hpix by (intros; lia).
      assert (∀ c, 0 ≤ c < 4 →
                rd (for_pixels (length data) body' data) (4 * p + c)
                = rd (body' (4 * p) data) (4 * p + c)) as Hrd.
      { intros c Hc.
        destruct (decide (4 * p + c < Z.of_nat (length data))) as [Hin|Hout].
        - rewrite for_pixels_rd by (done || lia). by rewrite Hpix.
        - rewrite !rd_out_of_range; [done | rewrite Hbl; lia |].
          rewrite for_pixels_length by done. lia. }
      unfold body' in Hrd.
      replace (Z.to_nat (4 * p / 4)) with (Z.to_nat p) in Hrd by lia.
      split.
      * rewrite Hrd by lia. rewrite difference_write_rd.
        rewrite decide_False by lia. done.
      * intros c a Hc Ha. rewrite Hrd by lia. rewrite difference_write_rd.
        pose proof (rd_Some_range _ _ _ Ha).
        rewrite decide_True by lia. by rewrite Ha.
  - intros a b Ha Hb. unfold abs_diff, clamp8. lia.
Qed.

Lemma difference_blend_witness :
  let params := {| mode := difference; mix := num 50; threshold := num 0;
                   scale := num 0 |} in
  let g : rng := λ k, if (k =? 0)%nat then num 0 else div (num 3) (num 4) in
  renderBlend [10; 200; 30; 255; 10; 200; 30; 255] (Some [30; 50; 30; 0; 1; 2; 3; 4])
              2 1 params g 0%nat
  = Done ([20; 150; 0; 255; 10; 200; 30; 255], 2%nat)
  ∧ abs_diff (Some 10) (Some 30) = Z.abs (10 - 30).
Proof.
  intros params g. split; [reflexivity|].
  destruct (difference_blend [10; 200; 30; 255; 10; 200; 30; 255]
              [30; 50; 30; 0; 1; 2; 3; 4] 2 1 params g 0%nat eq_refl)
    as (_ & _ & Habs).
  apply Habs; lia.
Defined.

(** ** Blend stage: interlace *)

Lemma foldl_wr_rd (f : Z → Z) (l : list Z) (d : list Z) j :
  rd (foldl (λ d j, wr d j (f j)) d l) j =
    if decide (j ∈ l ∧ 0 ≤ j < Z.of_nat (length d)) then Some (f j) else rd d j.
Proof.
  revert d. induction l as [|x l IH]; intros d.
  - cbn [foldl]. rewrite decide_False; [done|]. intros [Hin _]. by apply elem_of_nil in Hin.
  - cbn [foldl]. rewrite IH, length_wr, rd_wr.
    destruct (decide (x = j)) as [->|Hne].
    + destruct (decide (0 ≤ j < Z.of_nat (length d))) as [Hr|Hr].
      * rewrite (decide_True (P := j ∈ j :: l ∧ _)) by (split; [apply elem_of_cons; by left | done]).
        rewrite (decide_True (P := j = j ∧ _)) by done. by destruct (decide _).
      * rewrite !decide_False by (intros [_ ?]; done). done.
    + rewrite (decide_False (P := x = j ∧ _)) by (intros [? _]; done).
      apply decide_ext. rewrite elem_of_cons. intuition congruence.
Qed.

Lemma foldl_wr_length (f : Z → Z) (l : list Z) (d : list Z) :
  length (foldl (λ d j, wr d j (f j)) d l) = length d.
Proof.
  revert d. induction l as [|x l IH]; intros d; [done|].
  cbn [foldl]. by rewrite IH, length_wr.
Qed.

Lemma interlace_row_length blend W mx rh d y :
  length (interlace_row blend W mx rh d y) = length d.
Proof. unfold interlace_row. case_match; [apply foldl_wr_length | done]. Qed.

Lemma interlace_row_rd blend W mx rh d y j :
  rd (interlace_row blend W mx rh d y) j =
    if decide ((interlace_useImg2 y rh && gt mx (div (num 1) (num 10)) = true
                ∧ in_row W y j)
               ∧ 0 ≤ j < Z.of_nat (length d))
    then Some (rd0 blend j) else rd d j.
Proof.
  unfold interlace_row. destruct (_ && _).
  - rewrite foldl_wr_rd. apply decide_ext. unfold in_row.
    rewrite elem_of_seqZ. intuition lia.
  - rewrite decide_False; [done|]. by intros [[? _] _].
Qed.

Lemma interlace_rows_rd blend W mx rh (ys : list Z) d j :
  rd (foldl (interlace_row blend W mx rh) d ys) j =
    if decide (Exists (λ y, interlace_useImg2 y rh && gt mx (div (num 1) (num 10)) = true
                            ∧ in_row W y j) ys
               ∧ 0 ≤ j < Z.of_nat (length d))
    then Some (rd0 blend j) else rd d j.
Proof.
  revert d. induction ys as [|y ys IH]; intros d.
  - cbn [foldl]. rewrite decide_False; [done|]. intros [Hex _]. by apply Exists_nil in Hex.
  - cbn [foldl]. rewrite IH, interlace_row_length, interlace_row_rd.
    destruct (decide (Exists _ (y :: ys) ∧ _)) as [[Hex Hr]|Hn].
    + apply Exists_cons in Hex as [Hy|Hys].
      * destruct (decide (Exists _ ys ∧ _)); [done|]. by rewrite decide_True.
      * by rewrite decide_True.
    + rewrite !decide_False; [done | |].
      * intros [Hy Hr]. apply Hn. split; [by apply Exists_cons_hd | done].
      * intros [Hys Hr]. apply Hn. split; [by apply Exists_cons_tl | done].
Qed.

Lemma interlace_tables :
  forallb (λ s, match interlace_rowHeight (num s) with
                | JInt h => h =? Z.max 1 (s / 10)
                | _ => false
                end) (seqZ 0 101)
  && forallb (λ m, Bool.eqb (gt (div (num m) (num 100)) (div (num 1) (num 10)))
                            (10 <? m)) (seqZ 0 101) = true.
Proof. vm_compute. reflexivity. Qed.

(** X8. In interlace mode no draw is taken and the buffer keeps its
    length; every byte of a row [y] with [floor(y / rowHeight)] even is
    replaced by the byte of the blend image at the same index, alpha
    included (by 0 where the blend image is shorter), provided
    [mix / 100 > 0.1]; every other byte is kept.  For integer parameters
    of [0, 100] the row height is [max(1, floor(scale / 10))] and the
    condition on the mix is [mix > 10]. *)
Theorem interlace_rows (data blend : list Z) (W H : Z) (params : BlendParams)
    (g : rng) (n : nat) :
  mode params = interlace → 0 < W →
  let rowHeight := interlace_rowHeight (scale params) in
  let active := gt (div (mix params) (num 100)) (div (num 1) (num 10)) in
  (∃ out,
     renderBlend data (Some blend) W H params g n = Done (out, n)
     ∧ length out = length data
     ∧ ∀ j, 0 ≤ j < Z.of_nat (length data) →
         rd out j =
           if (j / (4 * W) <? H) && interlace_useImg2 (j / (4 * W)) rowHeight
              && active
           then Some (rd0 blend j) else rd data j)
  ∧ (∀ s m, scale params = num s → mix params = num m →
       0 ≤ s ≤ 100 → 0 ≤ m ≤ 100 →
       rowHeight = JInt (Z.max 1 (s / 10)) ∧ active = (10 <? m)).
Proof.
  intros Hmode HW rowHeight active. split.
  - eexists. unfold renderBlend. rewrite Hmode. split; [reflexivity|].
    fold rowHeight. split.
    { generalize (seqZ 0 H). intros ys. revert data.
      induction ys as [|y ys IH]; intros d; [done|].
      cbn [foldl]. by rewrite IH, interlace_row_length. }
    intros j Hj. rewrite interlace_rows_rd. fold active.
    assert (0 ≤ j / (4 * W)) as Hq by (apply Z.div_pos; lia).
    destruct (decide (j / (4 * W) < H)) as [Hrow|Hrow].
    + assert ((j / (4 * W) <? H) = true) as -> by lia. cbn [andb].
      destruct (interlace_useImg2 (j / (4 * W)) rowHeight && active) eqn:Hc.
      * rewrite decide_True; [done|]. split; [|done].
        apply Exists_exists. exists (j / (4 * W)).
        split; [apply elem_of_seqZ; lia|].
        split; [done|]. unfold in_row. nia.
      * rewrite decide_False; [done|]. intros [Hex _].
        apply Exists_exists in Hex as (y & Hy & Hcond & Hin).
        unfold in_row in Hin. assert (j / (4 * W) = y) as Hy' by nia.
        rewrite Hy' in Hc. rewrite Hcond in Hc. done.
    + assert ((j / (4 * W) <? H) = false) as -> by lia. cbn [andb].
      rewrite decide_False; [done|].
      intros [Hex _]. apply Exists_exists in Hex as (y & Hy & Hcond & Hin).
      apply elem_of_seqZ in Hy.
      unfold in_row in Hin. assert (j / (4 * W) = y) as Hy' by nia. lia.
  - intros s m Hs Hm Hsr Hmr. subst rowHeight active. rewrite Hs, Hm.
    pose proof interlace_tables as Htab. apply andb_true_iff in Htab as [Hh Ha].
    pose proof (forallb_seqZ _ _ _ s Hh ltac:(lia)) as Hhs. cbv beta in Hhs.
    pose proof (forallb_seqZ _ _ _ m Ha ltac:(lia)) as Ham. cbv beta in Ham.
    apply Bool.eqb_prop in Ham. split; [|done].
    destruct (interlace_rowHeight (num s)) as [| | |h]; [discriminate Hhs..|].
    apply Z.eqb_eq in Hhs. by rewrite Hhs.
Qed.

Lemma interlace_rows_witness :
  let params := {| mode := interlace; mix := num 50; threshold := num 0;
                   scale := num 20 |} in
  renderBlend [1; 2; 3; 4; 5; 6; 7; 8; 9; 10; 11; 12; 13; 14; 15; 16]
              (Some [101; 102; 103; 104; 105; 106; 107; 108; 109; 110; 111; 112])
              1 4 params (λ _, num 0) 7%nat
  = Done ([101; 102; 103; 104; 105; 106; 107; 108; 9; 10; 11; 12; 13; 14; 15; 16], 7%nat)
  ∧ interlace_rowHeight (num 20) = JInt (Z.max 1 (20 / 10)).
Proof.
  intros params. split; [reflexivity|].
  assert (0 < 1) as HW by lia.
  destruct (interlace_rows [] [] 1 4 params (λ _, num 0) 0%nat eq_refl HW) as [_ Hint].
  apply (Hint 20 50 eq_refl eq_refl); lia.
Defined.


(** ** Chroma key: what is written *)

(** X9. The chroma key keeps the length of the buffer; disabled, it
    returns the buffer as it is; and unless the spill is positive it
    changes alpha bytes only: no red, green or blue byte is written. *)
Theorem applyChromaKey_only_alpha (data : list Z) (W H : Z) (params : ChromaParams) :
  let out := applyChromaKey data W H params in
  length out = length data
  ∧ (enabled params = false → out = data)
  ∧ (gt (spill params) (num 0) = false →
     ∀ j, j `mod` 4 ≠ 3 → rd out j = rd data j).
Proof.
  intros out. subst out. split; [|split].
  - unfold applyChromaKey. destruct (negb _); [done|].
    apply for_pixels_length, chroma_pixel_length.
  - intros Hen. unfold applyChromaKey. by rewrite Hen.
  - intros Hspill j Hj. destruct (enabled params) eqn:Hen.
    2:{ unfold applyChromaKey. by rewrite Hen. }
    destruct (decide (0 ≤ j < Z.of_nat (length data))) as [Hin|Hout].
    + rewrite applyChromaKey_rd by done. unfold chroma_pixel. rewrite Hspill.
      repeat case_match; rewrite ?rd_wr_ne by lia; done.
    + rewrite !rd_out_of_range; [done | done |].
      unfold applyChromaKey. rewrite Hen. cbn [negb].
      by rewrite for_pixels_length by apply chroma_pixel_length.
Qed.

Lemma applyChromaKey_only_alpha_witness :
  let params := {| enabled := true; keyColor := "#00ff00";
                   similarity := div (num 2) (num 5); smoothness := div (num 1) (num 2);
                   spill := num 0 |} in
  let data := [9; 9; 9; 255; 0; 255; 0; 255; 100; 200; 100; 255] in
  applyChromaKey data 3 1 params = [9; 9; 9; 255; 0; 255; 0; 0; 100; 200; 100; 0]
  ∧ rd (applyChromaKey data 3 1 params) 9 = rd data 9.
Proof.
  intros params data. split; [reflexivity|].
  destruct (applyChromaKey_only_alpha data 3 1 params) as (_ & _ & Hrgb).
  apply Hrgb; [reflexivity | lia].
Defined.

(** X10. In the enabled chroma key a pixel whose squared distance to the
    key colour is below the squared threshold [(similarity * 442)^2] keeps
    its red, green and blue bytes and gets alpha 0, whatever the spill; a
    pixel that is neither below the threshold nor inside the feather band
    keeps its four bytes. *)
Theorem applyChromaKey_zones (data : list Z) (W H : Z) (params : ChromaParams)
    (p r g b a : Z) :
  enabled params = true → 0 ≤ p →
  rd data (4 * p) = Some r → rd data (4 * p + 1) = Some g →
  rd data (4 * p + 2) = Some b → rd data (4 * p + 3) = Some a →
  let target := hexToRgb (keyColor params) in
  let distSq :=
    num ((r - red target) * (r - red target) + (g - green target) * (g - green target)
         + (b - blue target) * (b - blue target)) in
  let distThreshold := mul (similarity params) (num 442) in
  let distThresholdSq := mul distThreshold distThreshold in
  let smoothRange := mul (smoothness params) (num 100) in
  let out := applyChromaKey data W H params in
  (lt distSq distThresholdSq = true →
   rd out (4 * p) = Some r ∧ rd out (4 * p + 1) = Some g
   ∧ rd out (4 * p + 2) = Some b ∧ rd out (4 * p + 3) = Some 0)
  ∧ (lt distSq distThresholdSq = false →
     gt smoothRange (num 0)
     && lt distSq (add distThresholdSq (mul smoothRange smoothRange)) = false →
     rd out (4 * p) = Some r ∧ rd out (4 * p + 1) = Some g
     ∧ rd out (4 * p + 2) = Some b ∧ rd out (4 * p + 3) = Some a).
Proof.
  intros Hen Hp Hr Hg Hb Ha target distSq dT T s out. subst out.
  pose proof (rd_Some_range _ _ _ Ha) as Hrange.
  assert (∀ c, 0 ≤ c < 4 → 4 * ((4 * p + c) / 4) = 4 * p) as Hpix by (intros; lia).
  assert (∀ c, 0 ≤ c < 4 →
            rd (applyChromaKey data W H params) (4 * p + c)
            = rd (chroma_pixel target T s (spill params) (4 * p) data) (4 * p + c)) as Hrd.
  { intros c Hc. rewrite applyChromaKey_rd by (done || lia). by rewrite Hpix. }
  pose proof (Hrd 0 ltac:(lia)) as Hrd0. rewrite Z.add_0_r in Hrd0.
  rewrite Hrd0, !Hrd by lia. clear Hrd Hrd0.
  unfold chroma_pixel. rewrite Hr, Hg, Hb. unfold distSq_of. fold target distSq.
  split.
  - intros Hin. rewrite Hin. rewrite !rd_wr_ne by lia. rewrite rd_wr_eq by lia. done.
  - intros Hout Hband. rewrite Hout, Hband. done.
Qed.

Lemma applyChromaKey_zones_witness :
  let params := {| enabled := true; keyColor := "#00ff00";
                   similarity := div (num 2) (num 5); smoothness := num 0;
                   spill := num 1 |} in
  let data := [9; 200; 9; 255; 250; 0; 250; 255] in
  rd (applyChromaKey data 2 1 params) 3 = Some 0
  ∧ rd (applyChromaKey data 2 1 params) 7 = Some 255.
Proof.
  intros params data.
  assert (0 ≤ 0) as Hp0 by lia. assert (0 ≤ 1) as Hp1 by lia.
  pose proof (applyChromaKey_zones data 2 1 params 0 9 200 9 255
                eq_refl Hp0 eq_refl eq_refl eq_refl eq_refl) as [Hin _].
  pose proof (applyChromaKey_zones data 2 1 params 1 250 0 250 255
                eq_refl Hp1 eq_refl eq_refl eq_refl eq_refl) as [_ Hout].
  split.
  - apply Hin. reflexivity.
  - apply Hout; reflexivity.
Defined.

(** ** Key colour strings: components *)

(** X11. Whatever the string, the three components of the parsed key
    colour are byte values. *)
Theorem hexToRgb_bytes (s : string) :
  0 ≤ red (hexToRgb s) ≤ 255 ∧ 0 ≤ green (hexToRgb s) ≤ 255
  ∧ 0 ≤ blue (hexToRgb s) ≤ 255.
Proof.
  unfold hexToRgb. rewrite regex_exec_spec, match_groups_spec.
  destruct (list_ascii_of_string (strip_hash s))
    as [|c1 [|c2 [|c3 [|c4 [|c5 [|c6 [|c7 l]]]]]]]; try (cbn; lia).
  destruct (forallb is_hex_digit [c1; c2; c3; c4; c5; c6]) eqn:Hwf; [|cbn; lia].
  cbn [forallb] in Hwf. rewrite !andb_true_iff in Hwf.
  destruct Hwf as (H1 & H2 & H3 & H4 & H5 & H6 & _).
  apply hex_digit_value_spec in H1, H2, H3, H4, H5, H6.
  unfold parseInt16. cbn [fst snd red green blue].
  destruct H1 as [-> ?], H2 as [-> ?], H3 as [-> ?],
           H4 as [-> ?], H5 as [-> ?], H6 as [-> ?].
  lia.
Qed.


(** ** Row pixel sort: errors and repetition *)

Lemma pixelSort_tempRow_length W y (d : list Z) :
  0 ≤ W →
  length (flat_map (λ a, let originalIdx := y * W * 4 + a * 4 in
                         [rd0 d originalIdx; rd0 d (originalIdx + 1);
                          rd0 d (originalIdx + 2); rd0 d (originalIdx + 3)])
            (array_sort (λ a, let idx := y * W * 4 + a * 4 in
                              rd0 d idx + rd0 d (idx + 1) + rd0 d (idx + 2))
               (seqZ 0 W)))
  = Z.to_nat (4 * W).
Proof.
  intros HW.
  generalize (array_sort_length
                (λ a, let idx := y * W * 4 + a * 4 in
                      rd0 d idx + rd0 d (idx + 1) + rd0 d (idx + 2)) (seqZ 0 W)).
  rewrite length_seqZ. generalize (array_sort (λ a, let idx := y * W * 4 + a * 4 in
                      rd0 d idx + rd0 d (idx + 1) + rd0 d (idx + 2)) (seqZ 0 W)).
  intros l Hl. assert (length l = Z.to_nat W → length
    (flat_map (λ a, let originalIdx := y * W * 4 + a * 4 in
                    [rd0 d originalIdx; rd0 d (originalIdx + 1);
                     rd0 d (originalIdx + 2); rd0 d (originalIdx + 3)]) l)
    = (4 * length l)%nat) as Hflat.
  { intros _. clear Hl. induction l as [|a l IH]; [done|].
    cbn [flat_map length app]. cbv zeta in IH |- *. cbn [app length]. lia. }
  rewrite Hflat, Hl by done. lia.
Qed.

(** X12. Sorting a row of pixels throws a RangeError exactly when the row
    does not lie inside the buffer (its first byte is before the start, or
    its last byte after the end), or the width is negative; otherwise,
    for a width below [2^32], it returns. *)
Theorem pixelSort_row_throws (W y : Z) (d : list Z) :
  (W < 0 ∨ y * W * 4 < 0 ∨ Z.of_nat (length d) < y * W * 4 + 4 * W →
   pixelSort_row W y d = RangeError)
  ∧ (0 ≤ W < 2 ^ 32 → 0 ≤ y * W * 4 → y * W * 4 + 4 * W ≤ Z.of_nat (length d) →
     ∃ d', pixelSort_row W y d = Done d' ∧ length d' = length d).
Proof.
  split.
  - intros Hbad. unfold pixelSort_row. destruct (W <? 0) eqn:HW; [done|].
    apply Z.ltb_ge in HW. unfold set. rewrite pixelSort_tempRow_length by done.
    destruct Hbad as [?|[Hneg|Hend]]; [lia | |].
    + assert ((y * W * 4 <? 0) = true) as -> by lia. done.
    + rewrite Z2Nat.id by lia.
      assert ((Z.of_nat (length d) <? y * W * 4 + 4 * W) = true) as -> by (apply Z.ltb_lt; lia).
      by rewrite orb_true_r.
  - intros [HW _] Hstart Hend. unfold pixelSort_row.
    assert ((W <? 0) = false) as -> by lia.
    edestruct set_in_range as (d' & Hset & Hlen & _); [exact Hstart | |].
    2:{ exists d'. split; [exact Hset | exact Hlen]. }
    rewrite pixelSort_tempRow_length by done. lia.
Qed.

Lemma pixelSort_row_throws_witness :
  pixelSort_row 2 1 [1; 2; 3; 4; 5; 6; 7; 8; 9; 10; 11; 12] = RangeError
  ∧ ∃ d', pixelSort_row 2 0 [9; 9; 9; 1; 5; 5; 5; 2; 9; 0; 0; 3] = Done d'
          ∧ length d' = 12%nat.
Proof.
  split.
  - apply (proj1 (pixelSort_row_throws 2 1 [1; 2; 3; 4; 5; 6; 7; 8; 9; 10; 11; 12])).
    right. right. vm_compute. reflexivity.
  - apply (proj2 (pixelSort_row_throws 2 0 [9; 9; 9; 1; 5; 5; 5; 2; 9; 0; 0; 3]));
      [split; [lia | reflexivity] | vm_compute; discriminate | vm_compute; discriminate].
Defined.

Lemma row_pixels_ext W (d d' : list Z) :
  0 < W → length d' = length d →
  (∀ y, 0 ≤ y → row_pixels d' W y = row_pixels d W y) → d' = d.
Proof.
  intros HW Hlen Hrows. apply rd_ext. intros i Hi.
  destruct (decide (i < Z.of_nat (length d))) as [Hin|Hout].
  2:{ rewrite !rd_out_of_range; [done | lia | lia]. }
  rewrite (rd0_Some d), (rd0_Some d') by lia. f_equal.
  set (p := i / 4). set (y := p / W). set (x := p `mod` W).
  assert (0 ≤ p) by (subst p; lia).
  assert (0 ≤ y) by (subst y; apply Z.div_pos; lia).
  assert (0 ≤ x < W) as Hx by (subst x; apply Z.mod_pos_bound; lia).
  assert (p = y * W + x) as Hp by (subst y x; rewrite Z.mod_eq by lia; lia).
  pose proof (Hrows y ltac:(done)) as Hrow. unfold row_pixels in Hrow.
  assert (pixel_at d' (4 * (y * W + x)) = pixel_at d (4 * (y * W + x))) as Hpx.
  { apply (f_equal (λ l, l !! Z.to_nat x)) in Hrow.
    rewrite !list_lookup_fmap, lookup_seqZ_lt in Hrow by lia.
    cbn in Hrow. apply (inj Some) in Hrow.
    by replace (0 + Z.of_nat (Z.to_nat x)) with x in Hrow by lia. }
  rewrite <- Hp in Hpx. unfold pixel_at in Hpx.
  injection Hpx as Hc0 Hc1 Hc2 Hc3.
  assert (i = 4 * p ∨ i = 4 * p + 1 ∨ i = 4 * p + 2 ∨ i = 4 * p + 3)
    as [Hi0|[Hi0|[Hi0|Hi0]]] by (subst p; lia); rewrite Hi0; done.
Qed.

Lemma pixelSort_row_empty y (d : list Z) : pixelSort_row 0 y d = Done d.
Proof.
  unfold pixelSort_row, set. rewrite Z.mul_0_r, Z.mul_0_l.
  change (seqZ 0 0) with (@nil Z). cbn [array_sort foldr flat_map length app].
  change (0 <? 0) with false. change (0 + Z.of_nat 0) with 0.
  assert ((Z.of_nat (length d) <? 0) = false) as -> by (apply Z.ltb_ge; lia).
  cbn [orb]. by rewrite drop_0.
Qed.

(** X13. Sorting a row a second time changes nothing: the result of a row
    sort is a fixed point of the sort of the same row. *)
Theorem pixelSort_row_idempotent (W y : Z) (d d' : list Z) :
  0 ≤ W → 0 ≤ y → 4 * (y + 1) * W ≤ Z.of_nat (length d) →
  pixelSort_row W y d = Done d' → pixelSort_row W y d' = Done d'.
Proof.
  intros HW Hy Hfit Hrun.
  destruct (pixelSort_row_spec W y d HW Hy Hfit) as (d1 & Hrun1 & Hl1 & Hrow1 & Hoth1).
  rewrite Hrun in Hrun1. injection Hrun1 as <-.
  destruct (pixelSort_row_spec W y d' HW Hy) as (d2 & Hrun2 & Hl2 & Hrow2 & Hoth2);
    [lia|].
  rewrite Hrun2. f_equal.
  destruct (decide (W = 0)) as [->|Hne].
  { rewrite pixelSort_row_empty in Hrun2. by injection Hrun2. }
  apply row_pixels_ext with (W := W); [lia | done |].
  intros y' Hy'. destruct (decide (y' = y)) as [->|Hny].
  - by rewrite Hrow2, Hrow1, array_sort_idemp.
  - by apply Hoth2.
Qed.

Lemma pixelSort_row_idempotent_witness :
  pixelSort_row 3 0 [9; 9; 9; 1; 5; 5; 5; 2; 9; 0; 0; 3]
  = Done [9; 0; 0; 3; 5; 5; 5; 2; 9; 9; 9; 1]
  ∧ pixelSort_row 3 0 [9; 0; 0; 3; 5; 5; 5; 2; 9; 9; 9; 1]
    = Done [9; 0; 0; 3; 5; 5; 5; 2; 9; 9; 9; 1].
Proof.
  split; [reflexivity|].
  apply (pixelSort_row_idempotent 3 0 [9; 9; 9; 1; 5; 5; 5; 2; 9; 0; 0; 3]);
    [lia | lia | vm_compute; discriminate | reflexivity].
Defined.

Lemma applyRGBShift_length (data : list Z) (W H offset : Z) :
  length (applyRGBShift data W H offset) = length data.
Proof.
  unfold applyRGBShift. destruct (offset =? 0); [done|].
  apply for_pixels_length, rgbShift_body_length.
Qed.


(** ** The buffer through the glitch stage *)

Lemma round_half_even_nonneg m e : 0 ≤ m → 0 ≤ round_half_even m e.
Proof.
  intros Hm. unfold round_half_even. destruct (0 <=? e) eqn:He.
  - rewrite Z.shiftl_mul_pow2 by lia. apply Z.mul_nonneg_nonneg; [done|].
    apply Z.pow_nonneg. lia.
  - cbv zeta. rewrite Z.shiftl_mul_pow2 by lia. rewrite Z.mul_1_l.
    assert (0 < 2 ^ (- e)) as Hd by (apply Z.pow_pos_nonneg; lia).
    assert (0 ≤ m / 2 ^ (- e)) as Hq by (apply Z.div_pos; lia).
    destruct (_ ?= _); [destruct (Z.even _) | |]; lia.
Qed.

Lemma toUint8Clamp_range (x : number) : 0 ≤ toUint8Clamp x ≤ 255.
Proof.
  destruct x as [[]|[]| |[] m e]; cbn [toUint8Clamp]; try lia.
  pose proof (round_half_even_nonneg (Z.pos m) e ltac:(lia)). lia.
Qed.

Lemma keeps_buffer_refl d : keeps_buffer d d.
Proof. by split. Qed.

Lemma keeps_buffer_trans d1 d2 d3 :
  keeps_buffer d1 d2 → keeps_buffer d2 d3 → keeps_buffer d1 d3.
Proof. intros [Hl1 Hb1] [Hl2 Hb2]. split; [congruence | auto]. Qed.

Lemma bytes_wr (d : list Z) i v : 0 ≤ v ≤ 255 → bytes d → bytes (wr d i v).
Proof.
  intros Hv Hd. unfold wr. case_decide; [|done].
  unfold bytes in *. rewrite Forall_lookup in Hd |- *. intros k x Hk.
  destruct (decide (Z.to_nat i = k)) as [<-|Hne].
  - destruct (decide (Z.to_nat i < length d)%nat) as [Hlt|Hge].
    + rewrite list_lookup_insert_eq in Hk by done. by injection Hk as <-.
    + rewrite list_insert_ge in Hk by lia. by eapply Hd.
  - rewrite list_lookup_insert_ne in Hk by done. by eapply Hd.
Qed.

Lemma keeps_buffer_wr (d : list Z) i v : 0 ≤ v ≤ 255 → keeps_buffer d (wr d i v).
Proof. intros Hv. split; [apply length_wr | by apply bytes_wr]. Qed.

Lemma bytes_rd0 (d : list Z) i : bytes d → 0 ≤ rd0 d i ≤ 255.
Proof.
  intros Hd. unfold rd0. destruct (rd d i) as [v|] eqn:Hv; [|cbn; lia].
  by eapply bytes_rd.
Qed.

Lemma keeps_buffer_set (d src d' : list Z) off :
  (bytes d → bytes src) → set d src off = Done d' → keeps_buffer d d'.
Proof.
  intros Hsrc. unfold set. destruct (_ || _) eqn:Hguard; [done|].
  apply orb_false_iff in Hguard as [Hoff Hfit].
  apply Z.ltb_ge in Hoff, Hfit. intros [= <-]. split.
  - rewrite !length_app, length_take, length_drop. lia.
  - intros Hd. unfold bytes in *. rewrite !Forall_app.
    split; [by apply Forall_take|]. split; [by apply Hsrc | by apply Forall_drop].
Qed.

(** A loop whose iterations, when they return, keep the buffer. *)
Lemma forM_keeps_buffer {A : Type} (l : list A) (body : A → list Z → M (list Z))
    (g : rng) :
  (∀ x d n d' n', body x d g n = Done (d', n') → keeps_buffer d d' ∧ (n ≤ n')%nat) →
  ∀ d n d' n', forM l body d g n = Done (d', n') → keeps_buffer d d' ∧ (n ≤ n')%nat.
Proof.
  intros Hbody. induction l as [|x l IH]; intros d n d' n'.
  - intros [= <- <-]. split; [apply keeps_buffer_refl | done].
  - cbn [forM]. unfold mbind, M_bind.
    destruct (body x d g n) as [[d1 n1]| |] eqn:Hx; [|done..].
    intros Hl. destruct (Hbody _ _ _ _ _ Hx) as [Hk1 Hn1].
    destruct (IH _ _ _ _ Hl) as [Hk2 Hn2].
    split; [by eapply keeps_buffer_trans | lia].
Qed.

Lemma repeatM_keeps_buffer (bound : jsint) (body : Z → list Z → M (list Z)) (g : rng) :
  (∀ x d n d' n', body x d g n = Done (d', n') → keeps_buffer d d' ∧ (n ≤ n')%nat) →
  ∀ d n d' n', repeatM bound body d g n = Done (d', n') → keeps_buffer d d' ∧ (n ≤ n')%nat.
Proof.
  intros Hbody d n d' n'. unfold repeatM. destruct (loop_count bound); [|done].
  by apply forM_keeps_buffer.
Qed.

Lemma for_pixels_bytes (body : Z → list Z → list Z) (len : nat) (d : list Z) :
  (∀ i d, bytes d → bytes (body i d)) → bytes d → bytes (for_pixels len body d).
Proof.
  intros Hbody. unfold for_pixels. generalize (pixel_starts len). intros l.
  revert d. induction l as [|i l IH]; intros d Hd; [done|].
  cbn [foldl]. apply IH, Hbody, Hd.
Qed.

Lemma applyPixelSort_keeps data W H t g n d' n' :
  applyPixelSort data W H t g n = Done (d', n') → keeps_buffer data d' ∧ (n ≤ n')%nat.
Proof.
  unfold applyPixelSort. destruct (SFeqb _ _).
  { intros [= <- <-]. split; [apply keeps_buffer_refl | done]. }
  apply repeatM_keeps_buffer. clear. intros r d n d' n'.
  rewrite pixelSort_step_eq.
  destruct (pixelSort_row _ _ _) as [d1| |] eqn:Hrow; [|done..].
  intros [= <- <-]. split; [|lia].
  unfold pixelSort_row in Hrow. destruct (W <? 0); [done|].
  eapply keeps_buffer_set; [|exact Hrow].
  intros Hd. unfold bytes. apply Forall_flat_map, Forall_forall. intros a _.
  repeat (apply Forall_cons; split; [by apply bytes_rd0|]). apply Forall_nil_2.
Qed.

Lemma blockShift_row_keeps W blk y d g n d' n' :
  blockShift_row W blk y d g n = Done (d', n') → keeps_buffer d d' ∧ (n ≤ n')%nat.
Proof.
  unfold blockShift_row. destruct (_ && _).
  2:{ intros [= <- <-]. split; [apply keeps_buffer_refl | done]. }
  unfold lift. destruct (set _ _ _) as [d1| |] eqn:Hset; [|done..].
  intros [= <- <-]. split; [|done].
  eapply keeps_buffer_set; [|exact Hset].
  intros Hd. unfold subarray, bytes. by apply Forall_take, Forall_drop.
Qed.

Lemma applyBlockShift_keeps data W H intensity seed g n d' n' :
  applyBlockShift data W H intensity seed g n = Done (d', n') →
  keeps_buffer data d' ∧ (n ≤ n')%nat.
Proof.
  unfold applyBlockShift. destruct (SFeqb _ _).
  { intros [= <- <-]. split; [apply keeps_buffer_refl | done]. }
  apply repeatM_keeps_buffer. clear. intros b d n d' n'.
  unfold blockShift_block. unfold mbind at 1, M_bind at 1.
  rewrite blockShift_pick_eq. intros Hrows.
  eapply forM_keeps_buffer in Hrows as [Hk Hn]; [split; [exact Hk | lia]|].
  intros y d0 n0 d1 n1. apply blockShift_row_keeps.
Qed.

Lemma applyRGBShift_keeps data W H offset :
  keeps_buffer data (applyRGBShift data W H offset).
Proof.
  split; [apply applyRGBShift_length|].
  intros Hd. unfold applyRGBShift. destruct (offset =? 0); [done|].
  apply for_pixels_bytes; [|done]. intros i d Hb. unfold rgbShift_body.
  case_match; [|done]. apply bytes_wr; [by apply bytes_rd0 | done].
Qed.

Lemma scanlines_pixel_keeps factor noiseChance i d g n d' n' :
  scanlines_pixel factor noiseChance i d g n = Done (d', n') →
  keeps_buffer d d' ∧ (n ≤ n')%nat.
Proof.
  unfold scanlines_pixel, mbind, M_bind, random, mret, M_ret.
  assert (∀ f d i, keeps_buffer d (scale_channel f d i)) as Hscale
    by (intros; apply keeps_buffer_wr, toUint8Clamp_range).
  assert (∀ f d i, keeps_buffer d (add_noise f d i)) as Hnoise
    by (intros; apply keeps_buffer_wr, toUint8Clamp_range).
  destruct (lt (g n) noiseChance); intros [= <- <-]; (split; [|lia]);
    repeat (eapply keeps_buffer_trans; [|apply Hscale || apply Hnoise]);
    apply keeps_buffer_refl.
Qed.

Lemma applyScanlines_keeps data W H intensity g n d' n' :
  applyScanlines data W H intensity g n = Done (d', n') →
  keeps_buffer data d' ∧ (n ≤ n')%nat.
Proof.
  unfold applyScanlines. destruct (SFeqb _ _).
  { intros [= <- <-]. split; [apply keeps_buffer_refl | done]. }
  apply forM_keeps_buffer. intros y d0 n0 d1 n1. unfold scanlines_row.
  destruct (on_scanline _ _).
  2:{ intros [= <- <-]. split; [apply keeps_buffer_refl | done]. }
  apply forM_keeps_buffer. intros i d2 n2 d3 n3. apply scanlines_pixel_keeps.
Qed.

(** X14. Whenever the glitch stage returns, the buffer has the length it
    had, it holds byte values if it did before, and the position in the
    sequence of draws has not moved back. *)
Theorem processImage_keeps_buffer (data : list Z) (W H : Z) (params : GlitchParams)
    (g : rng) (n : nat) (out : list Z) (n' : nat) :
  processImage data W H params g n = Done (out, n') →
  length out = length data ∧ (bytes data → bytes out) ∧ (n ≤ n')%nat.
Proof.
  unfold processImage. unfold mbind at 1, M_bind at 1.
  destruct (applyPixelSort _ _ _ _ _ _) as [[d1 n1]| |] eqn:Hsort; [|done..].
  unfold mbind, M_bind.
  destruct (applyBlockShift _ _ _ _ _ _ _) as [[d2 n2]| |] eqn:Hblock; [|done..].
  intros Hscan.
  apply applyPixelSort_keeps in Hsort as [Hk1 Hn1].
  apply applyBlockShift_keeps in Hblock as [Hk2 Hn2].
  apply applyScanlines_keeps in Hscan as [Hk4 Hn4].
  pose proof (applyRGBShift_keeps d2 W H (rgbShift params)) as Hk3.
  destruct (keeps_buffer_trans _ _ _ Hk1
              (keeps_buffer_trans _ _ _ Hk2 (keeps_buffer_trans _ _ _ Hk3 Hk4)))
    as [Hl Hb].
  split; [done|]. split; [done | lia].
Qed.

Lemma processImage_keeps_buffer_witness :
  let params := {| amount := num 50; seed := num 12345; iterations := num 1;
                   quality := num 90; rgbShift := 1; blockShift := num 10;
                   scanlines := num 10; pixelSort := num 50 |} in
  let g : rng := λ _, div (num 1) (num 2) in
  let data := [9; 9; 9; 1; 5; 5; 5; 2; 9; 0; 0; 3;
               1; 1; 1; 1; 0; 0; 0; 0; 8; 8; 8; 8] in
  ∃ out n', processImage data 3 2 params g 0%nat = Done (out, n')
            ∧ length out = length data.
Proof.
  intros params g data.
  destruct (processImage data 3 2 params g 0%nat) as [[out n']| |] eqn:Hrun.
  - exists out, n'. split; [reflexivity|].
    exact (proj1 (processImage_keeps_buffer data 3 2 params g 0%nat out n' Hrun)).
  - vm_compute in Hrun. discriminate.
  - vm_compute in Hrun. discriminate.
Defined.



(** ** Rounding: digits, shifts and the round bit *)

Lemma digits2_pos_spec (m : positive) :
  2 ^ (Z.pos (digits2_pos m) - 1) ≤ Z.pos m < 2 ^ Z.pos (digits2_pos m).
Proof.
  induction m as [m IH|m IH|]; cbn [digits2_pos]; [| |by vm_compute].
  all: rewrite Pos2Z.inj_succ;
    replace (Z.succ (Z.pos (digits2_pos m)) - 1)
      with (Z.succ (Z.pos (digits2_pos m) - 1)) by lia;
    rewrite !Z.pow_succ_r by lia.
  1: rewrite (Pos2Z.inj_xI m). 2: rewrite (Pos2Z.inj_xO m).
  all: revert IH;
    generalize (2 ^ (Z.pos (digits2_pos m) - 1)) (2 ^ Z.pos (digits2_pos m)) (Z.pos m);
    lia.
Qed.

Lemma Zdigits2_le (m j : Z) : 0 ≤ m < 2 ^ j → 0 ≤ j → Zdigits2 m ≤ j.
Proof.
  intros [Hm Hlt] Hj. destruct m as [|p|p]; [done| |lia].
  cbn [Zdigits2]. pose proof (digits2_pos_spec p) as [Hlo _].
  destruct (decide (Z.pos (digits2_pos p) ≤ j)) as [|Hgt]; [done|].
  assert (2 ^ j ≤ 2 ^ (Z.pos (digits2_pos p) - 1)) by (apply Z.pow_le_mono_r; lia).
  lia.
Qed.

Lemma Zdigits2_ge (p : positive) (j : Z) : 2 ^ j ≤ Z.pos p → 0 ≤ j → j + 1 ≤ Z.pos (digits2_pos p).
Proof.
  intros Hge Hj. pose proof (digits2_pos_spec p) as [_ Hhi].
  destruct (decide (j + 1 ≤ Z.pos (digits2_pos p))) as [|Hgt]; [done|].
  assert (2 ^ Z.pos (digits2_pos p) ≤ 2 ^ j) by (apply Z.pow_le_mono_r; lia).
  lia.
Qed.

Lemma shr_1_spec (mrs : shr_record) :
  0 ≤ shr_m mrs →
  shr_m (shr_1 mrs) = shr_m mrs / 2 ∧ shr_r (shr_1 mrs) = Z.odd (shr_m mrs).
Proof.
  destruct mrs as [[|[p|p|]|p] r s]; cbn [shr_m shr_r shr_1]; intros Hm; try lia.
  - done.
  - rewrite Pos2Z.inj_xI. split; [lia | done].
  - rewrite Pos2Z.inj_xO. split; [lia | done].
  - done.
Qed.

Lemma iter_pos_nat {A : Type} (f : A → A) (p : positive) (x : A) :
  SpecFloat.iter_pos f p x = Nat.iter (Pos.to_nat p) f x.
Proof.
  revert x. induction p as [p IH|p IH|]; intros x; cbn [SpecFloat.iter_pos].
  - rewrite !IH, Pos2Nat.inj_xI.
    replace (S (2 * Pos.to_nat p)) with (Pos.to_nat p + S (Pos.to_nat p))%nat by lia.
    by rewrite Nat.iter_add, Nat.iter_succ_r.
  - rewrite !IH, Pos2Nat.inj_xO.
    replace (2 * Pos.to_nat p)%nat with (Pos.to_nat p + Pos.to_nat p)%nat by lia.
    by rewrite Nat.iter_add.
  - done.
Qed.

Lemma shr_iter_spec (j : nat) (mrs : shr_record) :
  0 ≤ shr_m mrs →
  shr_m (Nat.iter (S j) shr_1 mrs) = shr_m mrs / 2 ^ Z.of_nat (S j)
  ∧ shr_r (Nat.iter (S j) shr_1 mrs) = Z.odd (shr_m mrs / 2 ^ Z.of_nat j).
Proof.
  intros Hm. induction j as [|j [IHm IHr]].
  - change (Nat.iter 1 shr_1 mrs) with (shr_1 mrs).
    destruct (shr_1_spec mrs Hm) as [-> ->].
    change (2 ^ Z.of_nat 1) with 2. change (2 ^ Z.of_nat 0) with 1.
    by rewrite Z.div_1_r.
  - change (Nat.iter (S (S j)) shr_1 mrs) with (shr_1 (Nat.iter (S j) shr_1 mrs)).
    assert (0 < 2 ^ Z.of_nat (S j)) by (apply Z.pow_pos_nonneg; lia).
    destruct (shr_1_spec (Nat.iter (S j) shr_1 mrs)) as [-> ->].
    { rewrite IHm. apply Z.div_pos; lia. }
    rewrite IHm. split; [|done].
    rewrite Z.div_div by lia. f_equal.
    replace (Z.of_nat (S (S j))) with (Z.succ (Z.of_nat (S j))) by lia.
    rewrite Z.pow_succ_r by lia. lia.
Qed.

(** The round bit of a shift by [k] is set only from the middle of the
    interval on. *)
Lemma round_bit_half (m k : Z) :
  0 ≤ m → 1 ≤ k → Z.odd (m / 2 ^ (k - 1)) = true → 2 ^ (k - 1) ≤ m mod 2 ^ k.
Proof.
  intros Hm Hk Hodd.
  assert (0 < 2 ^ (k - 1)) as Hp by (apply Z.pow_pos_nonneg; lia).
  assert (2 ^ k = 2 * 2 ^ (k - 1)) as Hpk.
  { replace k with (Z.succ (k - 1)) at 1 by lia. apply Z.pow_succ_r. lia. }
  set (q := m / 2 ^ (k - 1)) in *.
  assert (m = 2 ^ (k - 1) * q + m mod 2 ^ (k - 1)) as Hdm by (apply Z.div_mod; lia).
  pose proof (Z.mod_pos_bound m (2 ^ (k - 1)) Hp) as Hr.
  apply Z.odd_spec in Hodd as [h Hh].
  rewrite Hpk.
  assert (m mod (2 * 2 ^ (k - 1)) = 2 ^ (k - 1) + m mod 2 ^ (k - 1)) as ->; [|lia].
  symmetry. apply (Z.mod_unique _ _ h); [lia|].
  rewrite Hdm at 1. rewrite Hh. ring.
Qed.

(** A shift to the right by [k >= 1] places, from an exact location. *)
Lemma shr_spec (m e k : Z) :
  0 ≤ m → 1 ≤ k →
  ∃ mrs, shr (shr_record_of_loc m loc_Exact) e k = (mrs, e + k)
         ∧ shr_m mrs = m / 2 ^ k
         ∧ (shr_r mrs = true → 2 ^ (k - 1) ≤ m mod 2 ^ k).
Proof.
  intros Hm Hk. destruct k as [|p|p]; [lia| |lia].
  cbn [shr shr_record_of_loc]. eexists. split; [reflexivity|].
  rewrite iter_pos_nat.
  destruct (Pos2Nat.is_succ p) as [j Hj]. rewrite Hj.
  destruct (shr_iter_spec j (Build_shr_record m false false) Hm) as [Hsm Hsr].
  cbn [shr_m] in Hsm, Hsr.
  assert (Z.pos p = Z.of_nat (S j)) as Hp by lia.
  rewrite Hp. split; [done|].
  intros Hr. apply round_bit_half; [done | lia |].
  rewrite <- Hr, Hsr. do 3 f_equal. lia.
Qed.

Lemma round_nearest_even_le (mrs : shr_record) :
  let m1 := round_nearest_even (shr_m mrs) (loc_of_shr_record mrs) in
  shr_m mrs ≤ m1 ≤ shr_m mrs + 1 ∧ (shr_r mrs = false → m1 = shr_m mrs).
Proof.
  destruct mrs as [m [] []]; cbn [shr_m shr_r loc_of_shr_record round_nearest_even];
    try destruct (Z.even m); split; (done || lia).
Qed.


(** ** Integers as doubles *)

Lemma iter_xO_spec (p q : positive) :
  Z.pos (Pos.iter xO p q) = Z.pos p * 2 ^ Z.pos q
  ∧ Z.pos (digits2_pos (Pos.iter xO p q)) = Z.pos (digits2_pos p) + Z.pos q.
Proof.
  induction q as [|q [IHv IHd]] using Pos.peano_ind.
  - cbn [Pos.iter digits2_pos]. rewrite Pos2Z.inj_xO, Pos2Z.inj_succ.
    change (2 ^ 1) with 2. lia.
  - rewrite Pos.iter_succ. cbn [digits2_pos].
    rewrite Pos2Z.inj_xO, !Pos2Z.inj_succ, IHv, IHd, Z.pow_succ_r by lia.
    split; [ring | lia].
Qed.

Lemma binary_round_aux_canonical (sx : bool) (m : positive) (e : Z) :
  Z.pos (digits2_pos m) = 53 → -1074 ≤ e ≤ 971 →
  binary_round_aux prec emax sx (Z.pos m) e loc_Exact = S754_finite sx m e.
Proof.
  intros Hd He. unfold binary_round_aux, shr_fexp. cbn [Zdigits2]. rewrite Hd.
  assert (fexp prec emax (53 + e) - e = 0) as Hk
    by (unfold fexp, SpecFloat.emin, prec, emax; lia).
  rewrite Hk. cbn [shr shr_record_of_loc shr_m loc_of_shr_record round_nearest_even].
  cbn [Zdigits2]. rewrite Hd, Hk.
  cbn [shr shr_record_of_loc shr_m].
  assert ((e <=? emax - prec) = true) as -> by (unfold prec, emax; lia).
  done.
Qed.

(** An integer of magnitude in [1, 2^53) is a double with a 53-bit mantissa. *)
Lemma num_spec (n : Z) :
  1 ≤ Z.abs n < 2 ^ 53 →
  ∃ mz ez, num n = S754_finite (n <? 0) mz ez
           ∧ 2 ^ 52 ≤ Z.pos mz < 2 ^ 53 ∧ -52 ≤ ez ≤ 0
           ∧ Z.pos mz = Z.abs n * 2 ^ (- ez).
Proof.
  intros Hn.
  assert (∀ (sx : bool) (p : positive),
            Z.pos p < 2 ^ 53 →
            ∃ mz ez, binary_round prec emax sx p 0 = S754_finite sx mz ez
                     ∧ 2 ^ 52 ≤ Z.pos mz < 2 ^ 53 ∧ -52 ≤ ez ≤ 0
                     ∧ Z.pos mz = Z.pos p * 2 ^ (- ez)) as Hround.
  { intros sx p Hp. unfold binary_round, shl_align.
    pose proof (digits2_pos_spec p) as Hdig.
    set (d := Z.pos (digits2_pos p)) in *.
    assert (1 ≤ d ≤ 53) as Hd.
    { split; [subst d; lia|]. apply (Zdigits2_le (Z.pos p) 53); lia. }
    assert (fexp prec emax (d + 0) - 0 = d - 53) as ->
      by (unfold fexp, SpecFloat.emin, prec, emax; lia).
    assert (fexp prec emax (d + 0) = d - 53) as ->
      by (unfold fexp, SpecFloat.emin, prec, emax; lia).
    destruct (d - 53) as [|q|q] eqn:Hq; [|lia|].
    - exists p, 0. rewrite binary_round_aux_canonical by (subst d; lia).
      split; [done|]. assert (d = 53) as Hd53 by lia. rewrite Hd53 in Hdig.
      change (2 ^ (53 - 1)) with (2 ^ 52) in Hdig. change (2 ^ (- 0)) with 1. lia.
    - destruct (iter_xO_spec p q) as [Hv Hdq]. fold d in Hdq.
      exists (Pos.iter xO p q), (Z.neg q).
      rewrite binary_round_aux_canonical by lia.
      split; [done|].
      assert (Z.pos q = 53 - d) as Hq' by lia.
      pose proof (digits2_pos_spec (Pos.iter xO p q)) as Hdig'.
      rewrite Hdq in Hdig'. replace (d + Z.pos q) with 53 in Hdig' by lia.
      change (2 ^ (53 - 1)) with (2 ^ 52) in Hdig'.
      split; [done|]. split; [lia|]. rewrite Hv. by rewrite Pos2Z.opp_neg. }
  destruct n as [|p|p]; [lia| |].
  - apply (Hround false p). lia.
  - apply (Hround true p). lia.
Qed.


(** ** The product of a draw and an integer *)

Lemma pow2_pos (k : Z) : 0 ≤ k → 0 < 2 ^ k.
Proof. intros. apply Z.pow_pos_nonneg; lia. Qed.

Lemma pow2_le (a b : Z) : 0 ≤ a ≤ b → 2 ^ a ≤ 2 ^ b.
Proof. intros. apply Z.pow_le_mono_r; lia. Qed.

(** The rounded mantissa of the product stays below the mantissa of the
    integer factor, scaled: the product of a draw and [n] rounds below [n]. *)
Lemma draw_product_bound (mr mz er ez d k m1 : Z) :
  1 ≤ mr < 2 ^ 53 → -1074 ≤ er ≤ -53 →
  2 ^ 52 ≤ mz < 2 ^ 53 → -52 ≤ ez ≤ 0 →
  2 ^ (d - 1) ≤ mr * mz < 2 ^ d →
  k = Z.max (d - 53) (-1074 - (er + ez)) →
  (mr * mz) / 2 ^ k ≤ m1 ≤ (mr * mz) / 2 ^ k + 1 →
  (m1 ≠ (mr * mz) / 2 ^ k → 1 ≤ k ∧ 2 ^ (k - 1) ≤ (mr * mz) mod 2 ^ k) →
  0 ≤ k ≤ 53 ∧ -1074 ≤ er + ez + k ≤ 0 ∧ 0 ≤ m1 ≤ 2 ^ 53
  ∧ m1 < mz * 2 ^ (- er - k).
Proof.
  intros Hmr Her Hmz Hez Hd Hk Hm1 Hup.
  set (M := mr * mz) in *.
  assert (2 ^ 52 ≤ M) as HMlo by (subst M; nia).
  assert (M < 2 ^ 106) as HMhi.
  { change (2 ^ 106) with (2 ^ 53 * 2 ^ 53). subst M. nia. }
  assert (53 ≤ d) as Hd53.
  { destruct (decide (53 ≤ d)) as [|Hlt]; [done|]. exfalso.
    destruct (decide (0 ≤ d)) as [Hd0|Hd0].
    - pose proof (pow2_le d 52 ltac:(lia)). lia.
    - rewrite (Z.pow_neg_r 2 d) in Hd by lia. lia. }
  assert (d ≤ 106) as Hd106.
  { destruct (decide (d ≤ 106)) as [|Hgt]; [done|]. exfalso.
    pose proof (pow2_le 106 (d - 1) ltac:(lia)). lia. }
  assert (0 ≤ k ≤ 53) as Hk53 by lia.
  assert (-1074 ≤ er + ez + k ≤ 0) as He' by lia.
  split; [done|]. split; [done|].
  set (t := - er - k). assert (0 ≤ t) as Ht by (subst t; lia).
  pose proof (pow2_pos k ltac:(lia)) as HP. pose proof (pow2_pos t Ht) as HQ.
  assert (2 ^ k * 2 ^ t = 2 ^ (- er)) as HR.
  { rewrite <- Z.pow_add_r by lia. f_equal. subst t. lia. }
  assert (2 ^ 53 ≤ 2 ^ (- er)) as HR53 by (apply pow2_le; lia).
  assert (0 ≤ M / 2 ^ k) as Hm'0 by (apply Z.div_pos; lia).
  assert (M / 2 ^ k < 2 ^ 53) as Hm'53.
  { apply Z.div_lt_upper_bound; [done|].
    assert (2 ^ d ≤ 2 ^ k * 2 ^ 53); [|lia].
    rewrite <- Z.pow_add_r by lia. apply pow2_le. lia. }
  split; [lia|].
  (* the exact product *)
  assert (M ≤ mz * 2 ^ t * 2 ^ k - mz) as HMle.
  { replace (mz * 2 ^ t * 2 ^ k) with (mz * 2 ^ (- er)) by (rewrite <- HR; ring).
    subst M. nia. }
  assert (M / 2 ^ k < mz * 2 ^ t) as Hm'B.
  { apply Z.div_lt_upper_bound; [done|]. nia. }
  destruct (decide (m1 = M / 2 ^ k)) as [->|Hne]; [done|].
  destruct (Hup Hne) as [Hk1 Hbit].
  assert (m1 = M / 2 ^ k + 1) as -> by lia.
  destruct (decide (M / 2 ^ k + 1 < mz * 2 ^ t)) as [|Hge]; [done|]. exfalso.
  assert (M / 2 ^ k = mz * 2 ^ t - 1) as Hm'eq by lia.
  assert (M = 2 ^ k * (M / 2 ^ k) + M mod 2 ^ k) as HMdiv by (apply Z.div_mod; lia).
  assert (2 ^ k = 2 * 2 ^ (k - 1)) as Hpk.
  { replace k with (Z.succ (k - 1)) at 1 by lia. apply Z.pow_succ_r. lia. }
  pose proof (pow2_pos (k - 1) ltac:(lia)) as HP1.
  assert (mz ≤ 2 ^ (k - 1)) as Hmzle.
  { rewrite Hm'eq in HMdiv. 
    assert (2 ^ k * (mz * 2 ^ t - 1) + 2 ^ (k - 1) ≤ mz * 2 ^ t * 2 ^ k - mz) by lia.
    nia. }
  destruct (decide (k ≤ 52)) as [Hk52|Hk52].
  - pose proof (pow2_le (k - 1) 51 ltac:(lia)).
    assert (2 ^ 51 < 2 ^ 52) by done. lia.
  - assert (k = 53) as Hk53' by lia. assert (d = 106) as Hd' by lia.
    rewrite Hk53' in Hmzle. change (2 ^ (53 - 1)) with (2 ^ 52) in Hmzle.
    rewrite Hd' in Hd. change (2 ^ (106 - 1)) with (2 ^ 105) in Hd.
    assert (M ≤ (2 ^ 53 - 1) * 2 ^ 52) by (subst M; nia).
    assert ((2 ^ 53 - 1) * 2 ^ 52 < 2 ^ 105) by done. lia.
Qed.


Lemma shr_exact (m e k : Z) :
  0 ≤ m →
  ∃ mrs, shr (shr_record_of_loc m loc_Exact) e k = (mrs, e + Z.max k 0)
         ∧ shr_m mrs = m / 2 ^ Z.max k 0
         ∧ (shr_r mrs = true → 1 ≤ k ∧ 2 ^ (k - 1) ≤ m mod 2 ^ k).
Proof.
  intros Hm. destruct (decide (1 ≤ k)) as [Hk|Hk].
  - destruct (shr_spec m e k Hm Hk) as (mrs & Hshr & Hsm & Hsr).
    exists mrs. rewrite Z.max_l by lia. auto.
  - exists (Build_shr_record m false false). rewrite Z.max_r by lia.
    change (2 ^ 0) with 1. rewrite Z.div_1_r, Z.add_0_r.
    split; [by destruct k as [|p|p]; [| lia |]|]. split; [done|].
    cbn [shr_r]. done.
Qed.

Lemma shiftl_halved (m e k : Z) :
  0 ≤ m → 0 ≤ k → Z.shiftl (m / 2 ^ k) (e + k) ≤ Z.shiftl m e.
Proof.
  intros Hm Hk. pose proof (pow2_pos k Hk) as HP.
  assert (0 ≤ m / 2 ^ k) as Hq by (apply Z.div_pos; lia).
  assert (2 ^ k * (m / 2 ^ k) ≤ m) as Hmul by (apply Z.mul_div_le; lia).
  destruct (decide (0 ≤ e)) as [He|He].
  - rewrite !Z.shiftl_mul_pow2 by lia. rewrite Z.pow_add_r by lia.
    pose proof (pow2_pos e He). nia.
  - rewrite (Z.shiftl_div_pow2 m e) by lia.
    pose proof (pow2_pos (- e) ltac:(lia)) as HE.
    destruct (decide (0 ≤ e + k)) as [Hek|Hek].
    + rewrite Z.shiftl_mul_pow2 by lia. apply Z.div_le_lower_bound; [done|].
      assert (2 ^ (- e) * 2 ^ (e + k) = 2 ^ k) as Hpk.
      { rewrite <- Z.pow_add_r by lia. f_equal. lia. }
      pose proof (pow2_pos (e + k) Hek). nia.
    + rewrite Z.shiftl_div_pow2 by lia.
      pose proof (pow2_pos (- (e + k)) ltac:(lia)).
      rewrite Z.div_div by lia.
      rewrite <- Z.pow_add_r by lia. replace (k + - (e + k)) with (- e) by lia. done.
Qed.

Lemma shiftl_opp_ge (m e : Z) : 0 ≤ m → - Z.shiftl m e - 1 ≤ Z.shiftl (- m) e ≤ 0.
Proof.
  intros Hm. destruct (decide (0 ≤ e)) as [He|He].
  - rewrite !Z.shiftl_mul_pow2 by lia. pose proof (pow2_pos e He). nia.
  - rewrite !Z.shiftl_div_pow2 by lia. pose proof (pow2_pos (- e) ltac:(lia)) as HP.
    generalize dependent (2 ^ (- e)). intros P HP.
    pose proof (Z.div_mod m P ltac:(lia)) as Hdm.
    pose proof (Z.mod_pos_bound m P HP) as Hr.
    split.
    + apply Z.div_le_lower_bound; [done|]. nia.
    + apply Z.div_le_upper_bound; [done|]. nia.
Qed.

(** The rounded product of a double of [0, 1) and a double that holds an
    integer of magnitude [n]: zero, or a number of magnitude below [n]. *)
Lemma round_draw_product (sx : bool) (mr mz : positive) (er ez n : Z) :
  Z.pos mr < 2 ^ 53 → -1074 ≤ er ≤ -53 →
  2 ^ 52 ≤ Z.pos mz < 2 ^ 53 → -52 ≤ ez ≤ 0 → Z.pos mz = n * 2 ^ (- ez) →
  binary_round_aux prec emax sx (Z.pos (mr * mz)) (er + ez) loc_Exact = S754_zero sx
  ∨ ∃ q e, binary_round_aux prec emax sx (Z.pos (mr * mz)) (er + ez) loc_Exact
           = S754_finite sx q e
           ∧ 0 ≤ Z.shiftl (Z.pos q) e ≤ n - 1.
Proof.
  intros Hmr Her Hmz Hez Hval.
  unfold binary_round_aux, shr_fexp.
  cbn [Zdigits2].
  pose proof (digits2_pos_spec (mr * mz)) as Hdig.
  assert (53 ≤ Z.pos (digits2_pos (mr * mz))) as Hd53.
  { apply (Zdigits2_ge (mr * mz) 52); [|lia]. rewrite Pos2Z.inj_mul. nia. }
  set (d := Z.pos (digits2_pos (mr * mz))) in *.
  rewrite Pos2Z.inj_mul in Hdig |- *.
  set (M := Z.pos mr * Z.pos mz) in *.
  set (k := Z.max (d - 53) (-1074 - (er + ez))).
  assert (fexp prec emax (d + (er + ez)) - (er + ez) = k) as ->
    by (subst k; unfold fexp, SpecFloat.emin, prec, emax; lia).
  assert (0 ≤ M) as HM0 by (subst M; lia).
  assert (0 ≤ k) as Hk0 by (subst k; lia).
  destruct (shr_exact M (er + ez) k HM0) as (mrs & -> & Hsm & Hsr).
  pose proof (round_nearest_even_le mrs) as Hrne. cbv zeta in Hrne.
  set (m1 := round_nearest_even (shr_m mrs) (loc_of_shr_record mrs)) in *.
  destruct Hrne as [Hm1 Hkeep].
  destruct (draw_product_bound (Z.pos mr) (Z.pos mz) er ez d k m1)
    as (Hk & He' & Hm1r & Hm1B); try done; try lia.
  { rewrite Z.max_l in Hsm by lia. fold M. by rewrite <- Hsm. }
  { fold M. intros Hne. apply Hsr. destruct (shr_r mrs); [done|].
    exfalso. apply Hne. rewrite Z.max_l in Hsm by lia. rewrite <- Hsm. by apply Hkeep. }
  rewrite (Z.max_l k 0) by lia.
  set (e' := er + ez + k) in *.
  set (k2 := fexp prec emax (Zdigits2 m1 + e') - e').
  assert (k2 ≤ 1) as Hk2.
  { pose proof (Zdigits2_le m1 54 ltac:(change (2 ^ 54) with (2 * 2 ^ 53); lia) ltac:(lia)).
    subst k2. unfold fexp, SpecFloat.emin, prec, emax. lia. }
  destruct (shr_exact m1 e' k2 ltac:(lia)) as (mrs2 & -> & Hsm2 & _).
  assert (0 ≤ Z.max k2 0 ≤ 1) as Hk2' by lia.
  pose proof (pow2_pos (Z.max k2 0) ltac:(lia)) as HP2.
  assert (0 ≤ shr_m mrs2) as Hm2 by (rewrite Hsm2; apply Z.div_pos; lia).
  assert (Z.shiftl (shr_m mrs2) (e' + Z.max k2 0) ≤ n - 1) as Hfloor.
  { rewrite Hsm2. etransitivity; [apply shiftl_halved; lia|].
    rewrite Z.shiftl_div_pow2 by lia.
    pose proof (pow2_pos (- e') ltac:(lia)) as HE.
    assert (m1 / 2 ^ (- e') < n); [|lia].
    apply Z.div_lt_upper_bound; [done|].
    assert (Z.pos mz * 2 ^ (- er - k) = 2 ^ (- e') * n) as <-; [|done].
    rewrite Hval. rewrite <- Z.mul_assoc, <- Z.pow_add_r by lia.
    replace (- ez + (- er - k)) with (- e') by (subst e'; lia). ring. }
  destruct (shr_m mrs2) as [|q|q] eqn:Hq; [| |lia].
  - by left.
  - assert ((e' + Z.max k2 0 <=? emax - prec) = true) as ->
      by (unfold emax, prec; lia).
    right. exists q, (e' + Z.max k2 0). split; [done|].
    split; [apply Z.shiftl_nonneg; lia | done].
Qed.

(** The floor of the product of a double of [0, 1) and an integer [n] with
    [1 <= |n| < 2^53] is an integer between 0 and [n], [n] excluded when
    it is positive. *)
Lemma floor_mul_draw_signed (mr : positive) (er : Z) (n : Z) :
  Z.pos mr < 2 ^ 53 → -1074 ≤ er ≤ -53 → 1 ≤ Z.abs n < 2 ^ 53 →
  ∃ z, floor (mul (S754_finite false mr er) (num n)) = JInt z
       ∧ (0 < n → 0 ≤ z ≤ n - 1) ∧ (n < 0 → n ≤ z ≤ 0).
Proof.
  intros Hmr Her Hn.
  destruct (num_spec n Hn) as (mz & ez & -> & Hmz & Hez & Hval).
  unfold mul, SFmul. cbn [xorb].
  destruct (round_draw_product (n <? 0) mr mz er ez (Z.abs n) Hmr Her Hmz Hez Hval)
    as [->|(q & e & -> & Hq)].
  - exists 0. split; [done | lia].
  - destruct (n <? 0) eqn:Hsign; cbn [floor].
    + exists (Z.shiftl (Z.neg q) e). split; [done|].
      pose proof (shiftl_opp_ge (Z.pos q) e ltac:(lia)) as Hopp.
      change (- Z.pos q) with (Z.neg q) in Hopp. lia.
    + exists (Z.shiftl (Z.pos q) e). split; [done | lia].
Qed.


(** ** Draws *)

Lemma is_draw_spec (r : number) :
  is_draw r = true →
  (∃ s, r = S754_zero s)
  ∨ ∃ m e, r = S754_finite false m e ∧ Z.pos m < 2 ^ 53 ∧ -1074 ≤ e ≤ -53.
Proof.
  unfold is_draw. change (num 0) with (S754_zero false).
  change (num 1) with (S754_finite false 4503599627370496 (-52)).
  unfold le, lt, SFleb, SFltb. intros Hr.
  destruct r as [s|[]| |[] m e]; cbn [valid_binary SFcompare andb] in Hr;
    try discriminate Hr.
  { left. by exists s. }
  { rewrite andb_false_r in Hr. discriminate Hr. }
  unfold bounded, canonical_mantissa in Hr.
  rewrite !andb_true_iff in Hr. destruct Hr as [[[Hcan _] _] Hlt].
  apply Z.eqb_eq in Hcan. unfold fexp, SpecFloat.emin, prec, emax in Hcan.
  pose proof (digits2_pos_spec m) as [Hlo Hhi].
  set (d := Z.pos (digits2_pos m)) in *.
  assert (d ≤ 53 ∧ -1074 ≤ e) as [Hd He] by lia.
  assert (Z.pos m < 2 ^ 53) as Hm.
  { pose proof (pow2_le d 53 ltac:(subst d; lia)). lia. }
  right. exists m, e. split; [done|]. split; [done|]. split; [done|].
  destruct (e ?= -52) eqn:Hcmp; [| |discriminate Hlt].
  - apply Z.compare_eq in Hcmp. exfalso.
    destruct (Pos.compare_cont Eq m 4503599627370496) eqn:Hm52;
      [discriminate Hlt | | discriminate Hlt].
    pose proof (proj1 (Pos.compare_lt_iff m 4503599627370496) Hm52) as Hmlt.
    assert (Z.pos m < 2 ^ 52) as Hm'.
    { change (2 ^ 52) with (Z.pos 4503599627370496). exact Hmlt. }
    clear Hm52 Hmlt Hlt.
    assert (0 ≤ Z.pos m) as Hm0 by lia.
    pose proof (Zdigits2_le (Z.pos m) 52 (conj Hm0 Hm') ltac:(lia)) as Hd52.
    cbn [Zdigits2] in Hd52. fold d in Hd52.
    clearbody d. clear Hlo Hhi Hm Hm' Hm0. lia.
  - change (e < -52) in Hcmp. clear Hlt. lia.
Qed.

Lemma randomInt_of_range (min max : Z) (r : number) :
  is_draw r = true → min ≤ max → max - min + 1 < 2 ^ 53 →
  ∃ z, floor (mul r (num (max - min + 1))) = JInt z
       ∧ 0 ≤ z ≤ max - min ∧ randomInt_of min max r = z + min.
Proof.
  intros Hdraw Hle Hsize.
  assert (∃ z, floor (mul r (num (max - min + 1))) = JInt z
               ∧ 0 ≤ z ≤ max - min) as (z & Hz & Hrange).
  { destruct (is_draw_spec _ Hdraw) as [[s ->]|(m & e & -> & Hm & He)].
    - destruct (num_spec (max - min + 1) ltac:(lia)) as (mz & ez & -> & _).
      exists 0. split; [reflexivity | lia].
    - destruct (floor_mul_draw_signed m e (max - min + 1) Hm He ltac:(lia))
        as (z & Hz & Hr & _).
      specialize (Hr ltac:(lia)). exists z. split; [exact Hz | lia]. }
  exists z. split; [exact Hz|]. split; [exact Hrange|].
  unfold randomInt_of, floorZ. by rewrite Hz.
Qed.

Lemma randomInt_of_reversed (min max : Z) (r : number) :
  is_draw r = true → max < min → min - max < 2 ^ 53 →
  ∃ z, floor (mul r (num (max - min + 1))) = JInt z
       ∧ max - min + 1 ≤ z ≤ 0 ∧ randomInt_of min max r = z + min.
Proof.
  intros Hdraw Hlt Hsize.
  assert (∃ z, floor (mul r (num (max - min + 1))) = JInt z
               ∧ max - min + 1 ≤ z ≤ 0) as (z & Hz & Hrange).
  { destruct (decide (max - min + 1 = 0)) as [->|Hne].
    { exists 0. split; [|lia]. change (num 0) with (S754_zero false).
      by destruct (is_draw_spec _ Hdraw) as [[s ->]|(m & e & -> & _)]. }
    destruct (is_draw_spec _ Hdraw) as [[s ->]|(m & e & -> & Hm & He)].
    - destruct (num_spec (max - min + 1) ltac:(lia)) as (mz & ez & -> & _).
      exists 0. split; [reflexivity | lia].
    - destruct (floor_mul_draw_signed m e (max - min + 1) Hm He ltac:(lia))
        as (z & Hz & _ & Hr).
      exists z. split; [exact Hz | lia]. }
  exists z. split; [exact Hz|]. split; [exact Hrange|].
  unfold randomInt_of, floorZ. by rewrite Hz.
Qed.

(** X16. For a draw [r] of [0, 1) and bounds [min <= max] less than
    [2^53] apart, [Math.floor(r * (max - min + 1))] is an integer (neither
    NaN nor infinite) and the result of [randomInt(min, max)] lies in
    [min, max]: the rounding of the double product never reaches
    [max - min + 1]. *)
Theorem randomInt_in_range (min max : Z) (g : rng) (n : nat) :
  is_draw (g n) = true → min ≤ max → max - min + 1 < 2 ^ 53 →
  (∃ z, floor (mul (g n) (num (max - min + 1))) = JInt z)
  ∧ min ≤ randomInt_of min max (g n) ≤ max
  ∧ randomInt min max g n = Done (randomInt_of min max (g n), S n).
Proof.
  intros Hdraw Hle Hsize.
  destruct (randomInt_of_range min max (g n) Hdraw Hle Hsize) as (z & Hz & Hr & Heq).
  split; [by exists z|]. split; [lia | reflexivity].
Qed.

Lemma randomInt_in_range_witness :
  let g : rng := λ _, S754_finite false 9007199254740991 (-53) in
  randomInt_of 0 99 (g 0%nat) = 99 ∧ 0 ≤ randomInt_of 0 99 (g 0%nat) ≤ 99.
Proof.
  intros g. split; [reflexivity|].
  assert (0 ≤ 99) as Hle by lia.
  exact (proj1 (proj2 (randomInt_in_range 0 99 g 0%nat eq_refl Hle eq_refl))).
Defined.


(** ** The pixel sort on every sequence of draws *)

Lemma mul_comm (x y : number) : mul x y = mul y x.
Proof.
  unfold mul, SFmul.
  destruct x as [[]|[]| |sx mx ex], y as [[]|[]| |sy my ey]; try reflexivity;
    try (by destruct sx); try (by destruct sy).
  by rewrite Pos.mul_comm, Z.add_comm, xorb_comm.
Qed.

Lemma percent_table :
  forallb (λ i, is_draw (div (num i) (num 100))) (seqZ 0 100) = true.
Proof. vm_compute. reflexivity. Qed.

Lemma rowsToSort_bound (H i : Z) :
  1 ≤ H < 2 ^ 53 → 0 ≤ i ≤ 99 →
  ∃ k, rowsToSort H (num i) = JInt k ∧ 0 ≤ k ≤ H - 1.
Proof.
  intros HH Hi. unfold rowsToSort. rewrite mul_comm.
  pose proof (forallb_seqZ _ _ _ i percent_table ltac:(lia)) as Hdraw. cbv beta in Hdraw.
  destruct (randomInt_of_range 0 (H - 1) _ Hdraw ltac:(lia) ltac:(lia))
    as (z & Hz & Hr & _).
  replace (H - 1 - 0 + 1) with H in Hz by lia.
  exists z. split; [exact Hz | lia].
Qed.

Lemma picked_rows_in_range (H : Z) (g : rng) (n k : nat) :
  1 ≤ H < 2 ^ 53 → (∀ j, is_draw (g j) = true) →
  Forall (λ y, 0 ≤ y < H) (picked_rows H g n k).
Proof.
  intros HH Hdraws. unfold picked_rows. apply Forall_fmap, Forall_forall.
  intros j _. cbn.
  destruct (randomInt_of_range 0 (H - 1) (g (n + j)%nat) (Hdraws _) ltac:(lia) ltac:(lia))
    as (z & _ & Hr & ->).
  lia.
Qed.

(** X17. On a [W] x [H] buffer with [H >= 1], for an integer pixelSort
    setting of [0, 99] and draws of [0, 1), the row pixel sort always
    returns: no selected row is outside the buffer, so [data.set] never
    throws, and the loop ends after at most [H - 1] selections, one draw
    each; every row of the result is a permutation of the pixels of the
    same row of the input. *)
Theorem applyPixelSort_returns (data : list Z) (W H i : Z) (g : rng) (n : nat) :
  0 ≤ W → 1 ≤ H < 2 ^ 53 → Z.of_nat (length data) = 4 * W * H →
  0 ≤ i ≤ 99 → (∀ j, is_draw (g j) = true) →
  ∃ out k,
    applyPixelSort data W H (num i) g n = Done (out, (n + k)%nat)
    ∧ Z.of_nat k ≤ H - 1
    ∧ length out = length data
    ∧ ∀ y, 0 ≤ y < H → row_pixels out W y ≡ₚ row_pixels data W y.
Proof.
  intros HW HH Hlen Hi Hdraws.
  destruct (rowsToSort_bound H i HH Hi) as (z & Hz & Hzr).
  assert (loop_count (rowsToSort H (num i)) = Some (Z.to_nat z)) as Hk.
  { rewrite Hz. unfold loop_count.
    assert ((z <=? 2 ^ 53) = true) as -> by lia. done. }
  destruct (applyPixelSort_rows data W H (num i) g n (Z.to_nat z)
              HW ltac:(lia) Hlen Hk (picked_rows_in_range H g n _ HH Hdraws))
    as (out & Hrun & Hlout & Hrows).
  exists out, (Z.to_nat z). split; [done|]. split; [lia|]. split; [done|].
  intros y Hy. rewrite (Hrows y Hy). case_decide; [apply array_sort_perm | done].
Qed.

Lemma applyPixelSort_returns_witness :
  let data := [9; 9; 9; 1; 5; 5; 5; 2; 9; 0; 0; 3;
               1; 1; 1; 1; 0; 0; 0; 0; 0; 0; 0; 0] in
  let g : rng := λ _, S754_finite false 9007199254740991 (-53) in
  ∃ out k, applyPixelSort data 3 2 (num 50) g 0%nat = Done (out, (0 + k)%nat)
           ∧ length out = 24%nat.
Proof.
  intros data g.
  assert (0 ≤ 3) as HW by lia. assert (1 ≤ 2 < 2 ^ 53) as HH by (split; [lia | reflexivity]).
  assert (0 ≤ 50 ≤ 99) as Hi by lia.
  assert (∀ j, is_draw (g j) = true) as Hdraws by (intros j; reflexivity).
  destruct (applyPixelSort_returns data 3 2 50 g 0%nat HW HH eq_refl Hi Hdraws)
    as (out & k & Hrun & _ & Hlen & _).
  exists out, k. split; [exact Hrun | exact Hlen].
Defined.

(** ** Block displacement on images of ordinary size *)


Lemma picked_block_fits (W H : Z) (g : rng) (n : nat) :
  40 ≤ W < 2 ^ 53 → 50 ≤ H < 2 ^ 53 → (∀ j, is_draw (g j) = true) →
  let blk := picked_block W H g n in
  10 ≤ blockW blk ≤ W / 4 ∧ 2 ≤ blockH blk ≤ 50
  ∧ 0 ≤ srcX blk ∧ srcX blk + blockW blk ≤ W
  ∧ 0 ≤ srcY blk ∧ srcY blk + blockH blk ≤ H
  ∧ dest_in_bounds W H blk.
Proof.
  intros HW HH Hdraws blk. subst blk. unfold dest_in_bounds, picked_block.
  cbn [blockW blockH srcX srcY destX destY].
  destruct (randomInt_of_range 10 (W / 4) (g n) (Hdraws _) ltac:(lia) ltac:(lia))
    as (zw & _ & Hzw & ->).
  destruct (randomInt_of_range 2 50 (g (1 + n)%nat) (Hdraws _) ltac:(lia) ltac:(lia))
    as (zh & _ & Hzh & ->).
  destruct (randomInt_of_range 0 (W - (zw + 10)) (g (2 + n)%nat) (Hdraws _)
              ltac:(lia) ltac:(lia)) as (zx & _ & Hzx & ->).
  destruct (randomInt_of_range 0 (H - (zh + 2)) (g (3 + n)%nat) (Hdraws _)
              ltac:(lia) ltac:(lia)) as (zy & _ & Hzy & ->).
  lia.
Qed.

(** X18. On an image at least 40 pixels wide and 50 high, for an integer
    intensity of [0, 100] and draws of [0, 1), the block displacement
    returns after [floor(3 * intensity / 10)] blocks of six draws each,
    and every block lies inside the image: its width is in
    [10, floor(W / 4)], its height in [2, 50], and both its source and its
    clamped destination rectangle are inside [0, W) x [0, H). *)
Theorem applyBlockShift_blocks_fit (data : list Z) (W H i : Z) (seed : number)
    (g : rng) (n : nat) :
  40 ≤ W < 2 ^ 53 → 50 ≤ H < 2 ^ 53 → 0 ≤ i ≤ 100 →
  (∀ j, is_draw (g j) = true) →
  let k := Z.to_nat (3 * i / 10) in
  (∃ out, applyBlockShift data W H (num i) seed g n = Done (out, (n + 6 * k)%nat)
          ∧ length out = length data)
  ∧ ∀ b, (b < k)%nat →
      let blk := picked_block W H g (n + 6 * b)%nat in
      10 ≤ blockW blk ≤ W / 4 ∧ 2 ≤ blockH blk ≤ 50
      ∧ 0 ≤ srcX blk ∧ srcX blk + blockW blk ≤ W
      ∧ 0 ≤ srcY blk ∧ srcY blk + blockH blk ≤ H
      ∧ dest_in_bounds W H blk.
Proof.
  intros HW HH Hi Hdraws k. split.
  - destruct (applyBlockShift_integer data W H i seed g n Hi) as [_ ->].
    replace (3 * i / 10) with (Z.of_nat k) by (subst k; lia).
    apply blockShift_blocks_safe. intros b _.
    pose proof (picked_block_fits W H g (n + 6 * b)%nat HW HH Hdraws) as Hfit.
    cbv zeta in Hfit. lia.
  - intros b _. by apply picked_block_fits.
Qed.

Lemma applyBlockShift_blocks_fit_witness :
  let g : rng := λ _, div (num 1) (num 2) in
  (∃ out, applyBlockShift (replicate (Z.to_nat 8000) 7) 40 50 (num 10) (num 0) g 0%nat
          = Done (out, (0 + 6 * Z.to_nat (3 * 10 / 10))%nat)
          ∧ length out = Z.to_nat 8000)
  ∧ dest_in_bounds 40 50 (picked_block 40 50 g 0%nat).
Proof.
  intros g.
  assert (40 ≤ 40 < 2 ^ 53) as HW by (split; [lia | reflexivity]).
  assert (50 ≤ 50 < 2 ^ 53) as HH by (split; [lia | reflexivity]).
  assert (0 ≤ 10 ≤ 100) as Hi by lia.
  assert (∀ j, is_draw (g j) = true) as Hdraws by (intros j; reflexivity).
  destruct (applyBlockShift_blocks_fit (replicate (Z.to_nat 8000) 7) 40 50 10 (num 0) g 0%nat
              HW HH Hi Hdraws) as [Hrun Hfit].
  split; [exact Hrun|].
  assert (0 < Z.to_nat (3 * 10 / 10))%nat as Hb by (vm_compute; lia).
  exact (proj2 (proj2 (proj2 (proj2 (proj2 (proj2 (Hfit 0%nat Hb))))))).
Defined.

(** ** Channel shift: composition *)

Lemma applyRGBShift_pixel (data : list Z) (W H offset x y : Z) :
  1 ≤ W → 1 ≤ H → Z.of_nat (length data) = 4 * W * H → 4 * W * H < 2 ^ 31 →
  0 ≤ offset → 0 ≤ x < W → 0 ≤ y < H →
  rd (applyRGBShift data W H offset) (4 * (y * W + x))
  = rd data (4 * (y * W + (x + offset) `mod` W))
  ∧ ∀ c, 1 ≤ c < 4 →
      rd (applyRGBShift data W H offset) (4 * (y * W + x) + c)
      = rd data (4 * (y * W + x) + c).
Proof.
  intros HW HH Hlen Hsize Hoff Hx Hy.
  split; [|intros c Hc; apply applyRGBShift_only_red_bytes; lia].
  unfold applyRGBShift. destruct (offset =? 0) eqn:Hz.
  { apply Z.eqb_eq in Hz. subst offset. by rewrite Z.add_0_r, Z.mod_small by lia. }
  assert (y * W + W ≤ H * W) by nia.
  assert (0 ≤ (x + offset) `mod` W < W) as Hnew by (apply Z.mod_pos_bound; lia).
  rewrite for_pixels_rd
    by (auto using rgbShift_body_length, rgbShift_body_frame, rgbShift_body_local
        || nia).
  replace (4 * ((4 * (y * W + x)) / 4)) with (4 * (y * W + x)) by lia.
  rewrite Hlen, (rgbShift_body_pixel data W H) by done.
  rewrite rd_wr_eq by nia. symmetry. apply rd0_Some. nia.
Qed.

(** X19. On a [W] x [H] buffer, channel shifts by offsets from 0 compose
    by addition, and the offset only matters modulo the width: shifting
    by [a] and then by [b] is shifting by [a + b], and shifting by
    [a + W] is shifting by [a]. *)
Theorem applyRGBShift_compose (data : list Z) (W H a b : Z) :
  1 ≤ W → 1 ≤ H → Z.of_nat (length data) = 4 * W * H → 4 * W * H < 2 ^ 31 →
  0 ≤ a → 0 ≤ b →
  applyRGBShift (applyRGBShift data W H a) W H b = applyRGBShift data W H (a + b)
  ∧ applyRGBShift data W H (a + W) = applyRGBShift data W H a.
Proof.
  intros HW HH Hlen Hsize Ha Hb.
  assert (∀ d d' : list Z,
            Z.of_nat (length d) = 4 * W * H → length d' = length d →
            (∀ x y, 0 ≤ x < W → 0 ≤ y < H →
               ∀ c, 0 ≤ c < 4 → rd d' (4 * (y * W + x) + c) = rd d (4 * (y * W + x) + c)) →
            d' = d) as Hext.
  { intros d d' Hl Hl' Heq. apply rd_ext. intros j Hj.
    destruct (decide (j < 4 * W * H)) as [Hin|Hout].
    2:{ rewrite !rd_out_of_range; [done | lia | lia]. }
    set (p := j / 4). set (y := p / W). set (x := p `mod` W).
    assert (0 ≤ p < W * H) by (subst p; lia).
    assert (0 ≤ x < W) as Hx by (subst x; apply Z.mod_pos_bound; lia).
    assert (p = y * W + x) as Hp by (subst y x; rewrite Z.mod_eq by lia; lia).
    assert (0 ≤ y < H) as Hy by (subst y; split; [apply Z.div_pos; lia | apply Z.div_lt_upper_bound; lia]).
    replace j with (4 * (y * W + x) + j `mod` 4) by (rewrite <- Hp; subst p; lia).
    apply Heq; [done | done | lia]. }
  pose proof (applyRGBShift_length data W H a) as Hla.
  split.
  - apply Hext; [by rewrite applyRGBShift_length |
                 by rewrite !applyRGBShift_length |].
    intros x y Hx Hy c Hc.
    assert (0 ≤ (x + b) `mod` W < W) as Hxb by (apply Z.mod_pos_bound; lia).
    destruct (applyRGBShift_pixel (applyRGBShift data W H a) W H b x y) as [Hr1 Ho1];
      try done; try lia.
    destruct (applyRGBShift_pixel data W H a ((x + b) `mod` W) y) as [Hr2 _];
      try done; try lia.
    destruct (applyRGBShift_pixel data W H a x y) as [_ Ho2]; try done; try lia.
    destruct (applyRGBShift_pixel data W H (a + b) x y) as [Hr3 Ho3];
      try done; try lia.
    destruct (decide (c = 0)) as [->|Hc0].
    + rewrite !Z.add_0_r, Hr1, Hr2, Hr3.
      rewrite Z.add_mod_idemp_l by lia.
      by replace (x + b + a) with (x + (a + b)) by ring.
    + rewrite Ho1, Ho2, Ho3 by lia. done.
  - symmetry. apply Hext; [by rewrite applyRGBShift_length |
                           by rewrite !applyRGBShift_length |].
    intros x y Hx Hy c Hc.
    destruct (applyRGBShift_pixel data W H a x y) as [Hr1 Ho1]; try done; try lia.
    destruct (applyRGBShift_pixel data W H (a + W) x y) as [Hr2 Ho2];
      try done; try lia.
    destruct (decide (c = 0)) as [->|Hc0].
    + rewrite !Z.add_0_r, Hr1, Hr2.
      replace (x + (a + W)) with (x + a + 1 * W) by ring.
      by rewrite Z.mod_add by lia.
    + rewrite Ho1, Ho2 by lia. done.
Qed.

Lemma applyRGBShift_compose_witness :
  let data := [1; 2; 3; 4; 5; 6; 7; 8; 9; 10; 11; 12;
               13; 14; 15; 16; 17; 18; 19; 20; 21; 22; 23; 24] in
  applyRGBShift (applyRGBShift data 3 2 1) 3 2 1 = applyRGBShift data 3 2 2
  ∧ applyRGBShift data 3 2 (1 + 3) = applyRGBShift data 3 2 1.
Proof.
  intros data.
  apply (applyRGBShift_compose data 3 2 1 1); (lia || reflexivity).
Defined.

(** ** Chroma key: a second pass *)

Lemma chroma_pixel_rd_nospill target T s sp i (d : list Z) j :
  gt sp (num 0) = false →
  rd (chroma_pixel target T s sp i d) j =
    let distSq := distSq_of target (rd d i) (rd d (i + 1)) (rd d (i + 2)) in
    if decide (j = i + 3 ∧ 0 ≤ j < Z.of_nat (length d)) then
      if lt distSq T then Some 0
      else if gt s (num 0) && lt distSq (add T (mul s s))
           then Some (toUint8Clamp (mul (div (sub (sqrt distSq) (sqrt T)) s) (num 255)))
           else rd d j
    else rd d j.
Proof.
  intros Hsp. unfold chroma_pixel. rewrite Hsp. cbv zeta.
  destruct (lt _ T); [|destruct (_ && _)].
  - rewrite rd_wr. apply decide_ext. intuition lia.
  - rewrite rd_wr. apply decide_ext. intuition lia.
  - by case_decide.
Qed.

(** X20. Unless the spill is positive, a second chroma key with the same
    parameters changes nothing: the pass only writes alpha, and the alpha
    it writes depends on the red, green and blue bytes only. *)
Theorem applyChromaKey_idempotent (data : list Z) (W H : Z) (params : ChromaParams) :
  gt (spill params) (num 0) = false →
  applyChromaKey (applyChromaKey data W H params) W H params
  = applyChromaKey data W H params.
Proof.
  intros Hsp. destruct (enabled params) eqn:Hen.
  2:{ unfold applyChromaKey. by rewrite Hen. }
  assert (length (applyChromaKey data W H params) = length data) as Hlen.
  { unfold applyChromaKey. rewrite Hen. apply for_pixels_length, chroma_pixel_length. }
  assert (∀ j, j `mod` 4 ≠ 3 → rd (applyChromaKey data W H params) j = rd data j) as Hrgb.
  { intros j Hj. destruct (decide (0 ≤ j < Z.of_nat (length data))) as [Hin|Hout].
    - rewrite applyChromaKey_rd by done. rewrite chroma_pixel_rd_nospill by done.
      cbv zeta. rewrite decide_False; [done | lia].
    - rewrite !rd_out_of_range; [done | done | by rewrite Hlen]. }
  apply rd_ext. intros j Hj.
  destruct (decide (j < Z.of_nat (length data))) as [Hin|Hout].
  2:{ rewrite !rd_out_of_range; [done | lia |].
      unfold applyChromaKey at 1. rewrite Hen. cbn [negb].
      rewrite for_pixels_length by apply chroma_pixel_length. lia. }
  rewrite applyChromaKey_rd by (done || lia).
  rewrite chroma_pixel_rd_nospill by done. cbv zeta.
  rewrite !Hrgb by lia. rewrite Hlen.
  rewrite (applyChromaKey_rd data) by (done || lia).
  rewrite chroma_pixel_rd_nospill by done. cbv zeta.
  destruct (decide (j = 4 * (j / 4) + 3 ∧ _)) as [He|Hne]; [|done].
  destruct (lt _ _); [done|]. destruct (_ && _); done.
Qed.

Lemma applyChromaKey_idempotent_witness :
  let params := {| enabled := true; keyColor := "#00ff00";
                   similarity := div (num 2) (num 5); smoothness := div (num 1) (num 2);
                   spill := num 0 |} in
  let data := [9; 9; 9; 255; 0; 255; 0; 255; 100; 200; 100; 255] in
  applyChromaKey (applyChromaKey data 3 1 params) 3 1 params
  = applyChromaKey data 3 1 params.
Proof.
  intros params data. exact (applyChromaKey_idempotent data 3 1 params eq_refl).
Defined.

(** ** Reversed bounds, and the block displacement on every image *)

(** X21. With reversed bounds [max < min] (an empty range) and a draw of
    [0, 1), [randomInt(min, max)] returns an integer of [max + 1, min],
    hence never a value of the range asked for and always a value of at
    most [min]; for [max = min - 1] it returns [min]. *)
Theorem randomInt_reversed (min max : Z) (g : rng) (n : nat) :
  is_draw (g n) = true → max < min → min - max < 2 ^ 53 →
  max + 1 ≤ randomInt_of min max (g n) ≤ min
  ∧ (max = min - 1 → randomInt_of min max (g n) = min)
  ∧ randomInt min max g n = Done (randomInt_of min max (g n), S n).
Proof.
  intros Hdraw Hlt Hsize.
  destruct (randomInt_of_reversed min max (g n) Hdraw Hlt Hsize) as (z & Hz & Hr & Heq).
  split; [lia|]. split; [lia | reflexivity].
Qed.

Lemma randomInt_reversed_witness :
  let g : rng := λ _, div (num 1) (num 2) in
  randomInt_of 10 2 (g 0%nat) = 6 ∧ 2 + 1 ≤ randomInt_of 10 2 (g 0%nat) ≤ 10.
Proof.
  intros g. split; [reflexivity|].
  assert (2 < 10) as Hlt by lia.
  exact (proj1 (randomInt_reversed 10 2 g 0%nat eq_refl Hlt eq_refl)).
Defined.

Lemma picked_block_width (W H : Z) (g : rng) (n : nat) :
  0 ≤ W < 2 ^ 53 → (∀ j, is_draw (g j) = true) →
  1 ≤ blockW (picked_block W H g n) ≤ Z.max 10 (W / 4)
  ∧ (W < 40 → W / 4 < blockW (picked_block W H g n))
  ∧ 2 ≤ blockH (picked_block W H g n) ≤ 50.
Proof.
  intros HW Hdraws. unfold picked_block. cbn [blockW blockH].
  destruct (randomInt_of_range 2 50 (g (1 + n)%nat) (Hdraws _) ltac:(lia) ltac:(lia))
    as (zh & _ & Hzh & ->).
  destruct (decide (10 ≤ W / 4)) as [Hbig|Hsmall].
  - destruct (randomInt_of_range 10 (W / 4) (g n) (Hdraws _) ltac:(lia) ltac:(lia))
      as (zw & _ & Hzw & ->).
    lia.
  - destruct (randomInt_of_reversed 10 (W / 4) (g n) (Hdraws _) ltac:(lia) ltac:(lia))
      as (zw & _ & Hzw & ->).
    lia.
Qed.

(** X22. For every buffer and image size with [0 <= W], an integer
    intensity of [0, 100] and draws of [0, 1), the block displacement
    returns with the length of the buffer unchanged, after
    [floor(3 * intensity / 10)] blocks of six draws each: no copy throws.
    Every block is 2 to 50 rows high and 1 to [max(10, floor(W / 4))]
    pixels wide; on an image less than 40 pixels wide it is wider than
    [floor(W / 4)], the maximum asked for. *)
Theorem applyBlockShift_returns (data : list Z) (W H i : Z) (seed : number)
    (g : rng) (n : nat) :
  0 ≤ W < 2 ^ 53 → 0 ≤ i ≤ 100 → (∀ j, is_draw (g j) = true) →
  let k := Z.to_nat (3 * i / 10) in
  (∃ out, applyBlockShift data W H (num i) seed g n = Done (out, (n + 6 * k)%nat)
          ∧ length out = length data)
  ∧ ∀ b, (b < k)%nat →
      let blk := picked_block W H g (n + 6 * b)%nat in
      1 ≤ blockW blk ≤ Z.max 10 (W / 4) ∧ (W < 40 → W / 4 < blockW blk)
      ∧ 2 ≤ blockH blk ≤ 50.
Proof.
  intros HW Hi Hdraws k. split.
  - destruct (applyBlockShift_integer data W H i seed g n Hi) as [_ ->].
    replace (3 * i / 10) with (Z.of_nat k) by (subst k; lia).
    apply blockShift_blocks_safe. intros b _.
    pose proof (picked_block_width W H g (n + 6 * b)%nat HW Hdraws) as [Hw _]. lia.
  - intros b _. by apply picked_block_width.
Qed.

Lemma applyBlockShift_returns_witness :
  let g : rng := λ _, div (num 1) (num 2) in
  (∃ out, applyBlockShift (Z.of_nat <$> seq 0 128) 4 8 (num 4) (num 0) g 0%nat
          = Done (out, (0 + 6 * Z.to_nat (3 * 4 / 10))%nat)
          ∧ length out = length (Z.of_nat <$> seq 0 128))
  ∧ 4 / 4 < blockW (picked_block 4 8 g 0%nat).
Proof.
  intros g.
  assert (0 ≤ 4 < 2 ^ 53) as HW by (split; [lia | reflexivity]).
  assert (0 ≤ 4 ≤ 100) as Hi by lia.
  assert (∀ j, is_draw (g j) = true) as Hdraws by (intros j; reflexivity).
  destruct (applyBlockShift_returns (Z.of_nat <$> seq 0 128) 4 8 4 (num 0) g 0%nat
              HW Hi Hdraws) as [Hrun Hblk].
  split; [exact Hrun|].
  assert (0 < Z.to_nat (3 * 4 / 10))%nat as Hb by (vm_compute; lia).
  apply (proj1 (proj2 (Hblk 0%nat Hb))). lia.
Defined.

(** * Accounts and posts *)

Section StorageProofs.
Import Storage.
Variable B : Browser.

Lemma find_user_ext (users : list User.t) (name name' : string) :
  toLowerCase B name' = toLowerCase B name →
  find_user B users name' = find_user B users name.
Proof. intros Heq. unfold find_user. by rewrite Heq. Qed.

Lemma find_user_snoc (users : list User.t) (u : User.t) (name : string) :
  find_user B (users ++ [u]) name =
    match find_user B users name with
    | Some v => Some v
    | None =>
        if String.eqb (toLowerCase B (User.username u)) (toLowerCase B name)
        then Some u else None
    end.
Proof.
  unfold find_user. induction users as [|v users IH]; [done|].
  cbn [app List.find].
  destruct (String.eqb (toLowerCase B (User.username v)) (toLowerCase B name));
    [done | exact IH].
Qed.

Lemma find_user_Some (users : list User.t) (name : string) (u : User.t) :
  find_user B users name = Some u →
  u ∈ users ∧ toLowerCase B (User.username u) = toLowerCase B name.
Proof.
  intros Hf. apply List.find_some in Hf as [Hin Heq].
  split; [by apply list_elem_of_In | by apply String.eqb_eq].
Qed.

Lemma find_user_None (users : list User.t) (name : string) :
  find_user B users name = None ↔
  ∀ u, u ∈ users → toLowerCase B (User.username u) ≠ toLowerCase B name.
Proof.
  split.
  - intros Hf u Hin. apply list_elem_of_In in Hin.
    pose proof (List.find_none _ _ Hf u Hin) as Hne. cbv beta in Hne.
    by apply String.eqb_neq.
  - intros Hall. destruct (find_user B users name) as [u|] eqn:Hf; [|done].
    apply find_user_Some in Hf as [Hin Heq]. by destruct (Hall u Hin).
Qed.

Lemma setItem_fits (ls' : localStorage) (r : localStorage) :
  setItem B ls' = Return r → r = ls' ∧ fits B ls' = true.
Proof. unfold setItem. destruct (fits B ls'); [by intros [= <-] | done]. Qed.

Lemma setStorage_fits (ls' : localStorage) (r : localStorage) :
  setStorage B ls' = Return r → r = ls' ∧ fits B ls' = true.
Proof.
  unfold setStorage. destruct (setItem B ls') as [r'|e] eqn:Hs; [|done].
  intros [= <-]. by apply setItem_fits.
Qed.

Lemma setStorage_throws (ls' : localStorage) (e : thrown) :
  setStorage B ls' = Throw e → e = Error "STORAGE_FULL_DELETE_OLD_POSTS".
Proof.
  unfold setStorage. destruct (setItem B ls'); [done | by intros [= <-]].
Qed.

(** X23. After a successful [registerUser(name)] the new user is the last
    of the stored users, the session holds [name], the posts are
    untouched, and [loginUser] with any name equal to [name] up to case
    returns the new user and leaves the storage as it is, also after a
    [logoutUser]; [getCurrentUser] returns the new user, except for the
    empty name, for which it returns null. *)
Theorem registerUser_then_login (name now : string) (ls ls' : localStorage)
    (u : User.t) :
  registerUser B name now ls = (Return u, ls') →
  u = new_user name now
  ∧ USERS ls' = Some (Holds (getStorage (USERS ls) [] ++ [u]))
  ∧ POSTS ls' = POSTS ls ∧ CURRENT_USER ls' = Some name
  ∧ (∀ name', toLowerCase B name' = toLowerCase B name →
       loginUser B name' ls' = (Return u, ls')
       ∧ loginUser B name' (logoutUser ls') = (Return u, ls'))
  ∧ getCurrentUser B ls' = if String.eqb name "" then None else Some u.
Proof.
  unfold registerUser. fold (new_user name now).
  destruct (find_user B (getStorage (USERS ls) []) name) as [v|] eqn:Hfind; [done|].
  destruct (setStorage B _) as [ls1|e] eqn:Hset; [|done].
  apply setStorage_fits in Hset as [-> _].
  destruct (setItem B _) as [ls2|e] eqn:Hcur; [|done].
  apply setItem_fits in Hcur as [-> Hfits].
  intros [= <- <-].
  assert (∀ name', toLowerCase B name' = toLowerCase B name →
            find_user B (getStorage (USERS ls) [] ++ [new_user name now]) name'
            = Some (new_user name now)) as Hfound.
  { intros name' Heq. rewrite find_user_snoc, (find_user_ext _ _ _ Heq), Hfind.
    cbn [new_user User.username]. rewrite Heq. by rewrite String.eqb_refl. }
  split; [done|]. split; [done|]. split; [done|]. split; [done|]. split.
  - intros name' Heq. unfold loginUser, logoutUser.
    cbn [with_CURRENT_USER with_USERS USERS POSTS CURRENT_USER getStorage].
    rewrite (Hfound name' Heq). cbn [new_user User.username].
    unfold setItem, with_CURRENT_USER, with_USERS in *.
    cbn [USERS POSTS CURRENT_USER] in *. by rewrite Hfits.
  - unfold getCurrentUser. cbn [with_CURRENT_USER with_USERS USERS CURRENT_USER getStorage].
    destruct (String.eqb name ""); [done|]. by apply Hfound.
Qed.

(** X24. [registerUser] keeps the names unique up to case: a name that a
    stored user has up to case is refused with "Username taken" and the
    storage stays as it is, and whatever the outcome, users with pairwise
    different names are still so afterwards.  When it throws, posts and
    session are untouched; the users are untouched too, unless it was the
    write of the session that failed: then the new user is stored. *)
Theorem registerUser_keeps_names_unique (name now : string) (ls : localStorage) :
  let users := getStorage (USERS ls) [] in
  (∀ v, v ∈ users → toLowerCase B (User.username v) = toLowerCase B name →
     registerUser B name now ls = (Throw (Error "Username taken"), ls))
  ∧ (∀ r ls', registerUser B name now ls = (r, ls') →
       unique_names B users → unique_names B (getStorage (USERS ls') []))
  ∧ (∀ e ls', registerUser B name now ls = (Throw e, ls') →
       POSTS ls' = POSTS ls ∧ CURRENT_USER ls' = CURRENT_USER ls
       ∧ (ls' = ls
          ∨ e = QuotaExceededError
            ∧ USERS ls' = Some (Holds (users ++ [new_user name now])))).
Proof.
  intros users. unfold registerUser. fold (new_user name now). fold users.
  split; [|split].
  - intros v Hin Heq.
    destruct (find_user B users name) as [w|] eqn:Hfind; [done|].
    by destruct (proj1 (find_user_None _ _) Hfind v Hin).
  - intros r ls'.
    destruct (find_user B users name) as [w|] eqn:Hfind; [by intros [= <- <-]|].
    destruct (setStorage B _) as [ls1|e] eqn:Hset; [|by intros [= <- <-]].
    apply setStorage_fits in Hset as [-> _].
    assert (unique_names B users → unique_names B (users ++ [new_user name now])) as Hsnoc.
    { unfold unique_names. intros Hnd. rewrite map_app. apply NoDup_app.
      split; [done|]. split; [|apply NoDup_singleton].
      intros x Hx Hx'. apply list_elem_of_fmap in Hx as (v & -> & Hv).
      apply list_elem_of_singleton in Hx'. cbn [new_user User.username] in Hx'.
      by destruct (proj1 (find_user_None _ _) Hfind v Hv). }
    destruct (setItem B _) as [ls2|e] eqn:Hcur.
    + apply setItem_fits in Hcur as [-> _]. by intros [= <- <-].
    + by intros [= <- <-].
  - intros e ls'.
    destruct (find_user B users name) as [w|] eqn:Hfind; [intros [= <- <-]; auto|].
    destruct (setStorage B _) as [ls1|e1] eqn:Hset; [|intros [= <- <-]; auto].
    apply setStorage_fits in Hset as [-> _].
    destruct (setItem B _) as [ls2|e2] eqn:Hcur; [done|].
    intros [= <- <-]. split; [done|]. split; [done|]. right. split; [|done].
    unfold setItem in Hcur. destruct (fits B _); [done|]. by injection Hcur as <-.
Qed.

(** X25. [loginUser] throws "User not found" and leaves the storage as it
    is when no stored user has the name up to case.  When it returns, the
    user is the first stored one with that name up to case, the session
    holds the name as stored, users and posts are untouched, and
    [getCurrentUser] returns that user unless the stored name is empty. *)
Theorem loginUser_session (name : string) (ls : localStorage) :
  let users := getStorage (USERS ls) [] in
  ((∀ v, v ∈ users → toLowerCase B (User.username v) ≠ toLowerCase B name) →
     loginUser B name ls = (Throw (Error "User not found"), ls))
  ∧ (∀ u ls', loginUser B name ls = (Return u, ls') →
       find_user B users name = Some u
       ∧ u ∈ users ∧ toLowerCase B (User.username u) = toLowerCase B name
       ∧ ls' = with_CURRENT_USER ls (Some (User.username u))
       ∧ getCurrentUser B ls' =
           if String.eqb (User.username u) "" then None else Some u).
Proof.
  intros users. unfold loginUser. fold users. split.
  - intros Hnone. by rewrite (proj2 (find_user_None users name) Hnone).
  - intros u ls'.
    destruct (find_user B users name) as [w|] eqn:Hfind; [|done].
    destruct (setItem B _) as [ls1|e] eqn:Hcur; [|done].
    apply setItem_fits in Hcur as [-> _]. intros [= <- <-].
    destruct (find_user_Some _ _ _ Hfind) as [Hin Heq].
    split; [done|]. split; [done|]. split; [done|]. split; [done|].
    unfold getCurrentUser. cbn [with_CURRENT_USER CURRENT_USER USERS].
    destruct (String.eqb _ ""); [done|].
    fold users. by rewrite (find_user_ext users name _ Heq).
Qed.

Lemma createPost_eq (user : User.t) (mediaData caption : string) (type : PostType)
    (new_id : string) (now : Z) (ls : localStorage) :
  let p := new_post user mediaData caption type new_id now in
  let all := p :: getPosts ls in
  createPost B user mediaData caption type new_id now ls =
    if fits B (with_POSTS ls (take 15 all)) then (Return p, with_POSTS ls (take 15 all))
    else if (5 <? length all)%nat then
      if fits B (with_POSTS ls (take 5 all)) then (Return p, with_POSTS ls (take 5 all))
      else (Throw (Error "STORAGE_FULL_DELETE_OLD_POSTS"), ls)
    else (Throw (Error "STORAGE FULL. DELETE POSTS."), ls).
Proof.
  intros p all. unfold createPost. fold (new_post user mediaData caption type new_id now).
  fold p. fold (getPosts ls). fold all.
  assert ((if (15 <? length all)%nat then take 15 all else all) = take 15 all) as ->.
  { destruct (15 <? length all)%nat eqn:Hlen; [done|].
    apply Nat.ltb_ge in Hlen. by rewrite take_ge. }
  assert ((5 <? length (take 15 all))%nat = (5 <? length all)%nat) as ->.
  { rewrite length_take. destruct (5 <? length all)%nat eqn:Hlen.
    - apply Nat.ltb_lt in Hlen. apply Nat.ltb_lt. lia.
    - apply Nat.ltb_ge in Hlen. apply Nat.ltb_ge. lia. }
  assert (take 5 (take 15 all) = take 5 all) as ->.
  { by rewrite take_take. }
  unfold setStorage, setItem.
  destruct (fits B (with_POSTS ls (take 15 all))); [done|]. cbv beta iota.
  destruct (5 <? length all)%nat; [|done].
  by destruct (fits B (with_POSTS ls (take 5 all))).
Qed.

(** X26. When [createPost] returns, the post it returns is the first of
    the stored posts, followed by the posts stored before in their order,
    cut to 15 posts in all or, when those did not fit, to 5; users and
    session are untouched. *)
Theorem createPost_newest_first (user : User.t) (mediaData caption : string)
    (type : PostType) (new_id : string) (now : Z) (ls ls' : localStorage) (q : Post.t) :
  createPost B user mediaData caption type new_id now ls = (Return q, ls') →
  let all := q :: getPosts ls in
  q = new_post user mediaData caption type new_id now
  ∧ USERS ls' = USERS ls ∧ CURRENT_USER ls' = CURRENT_USER ls
  ∧ head (getPosts ls') = Some q
  ∧ (length (getPosts ls') ≤ 15)%nat
  ∧ (getPosts ls' = take 15 all
     ∨ getPosts ls' = take 5 all ∧ fits B (with_POSTS ls (take 15 all)) = false).
Proof.
  rewrite createPost_eq. cbv zeta.
  set (p := new_post user mediaData caption type new_id now).
  destruct (fits B (with_POSTS ls (take 15 (p :: getPosts ls)))) eqn:Hfit.
  - intros [= <- <-].
    change (getPosts (with_POSTS ls (take 15 (p :: getPosts ls))))
      with (take 15 (p :: getPosts ls)).
    split; [done|]. split; [done|]. split; [done|]. split; [done|].
    split; [|by left].
    cbn [getPosts with_POSTS POSTS getStorage length]. rewrite length_take. lia.
  - destruct (5 <? _)%nat; [|done].
    destruct (fits B (with_POSTS ls (take 5 (p :: getPosts ls)))); [|done].
    intros [= <- <-].
    change (getPosts (with_POSTS ls (take 5 (p :: getPosts ls))))
      with (take 5 (p :: getPosts ls)).
    split; [done|]. split; [done|]. split; [done|]. split; [done|].
    split; [|by right].
    cbn [getPosts with_POSTS POSTS getStorage length]. rewrite length_take. lia.
Qed.

(** X27. [createPost] when the storage is short: if the new post with the
    14 newest posts does not fit, it stores the new post with the 4
    newest, provided there were at least 5 posts before and this fits;
    otherwise it throws and the storage stays as it is, with "STORAGE
    FULL. DELETE POSTS." when there were fewer than 5 posts before and
    "STORAGE_FULL_DELETE_OLD_POSTS" otherwise. *)
Theorem createPost_storage_full (user : User.t) (mediaData caption : string)
    (type : PostType) (new_id : string) (now : Z) (ls : localStorage) :
  let p := new_post user mediaData caption type new_id now in
  let all := p :: getPosts ls in
  fits B (with_POSTS ls (take 15 all)) = false →
  createPost B user mediaData caption type new_id now ls =
    if (length (getPosts ls) <? 5)%nat
    then (Throw (Error "STORAGE FULL. DELETE POSTS."), ls)
    else if fits B (with_POSTS ls (p :: take 4 (getPosts ls)))
         then (Return p, with_POSTS ls (p :: take 4 (getPosts ls)))
         else (Throw (Error "STORAGE_FULL_DELETE_OLD_POSTS"), ls).
Proof.
  intros p all Hfull. rewrite createPost_eq. fold p. fold all. rewrite Hfull.
  change (take 5 all) with (p :: take 4 (getPosts ls)).
  change (length all) with (S (length (getPosts ls))).
  destruct (length (getPosts ls) <? 5)%nat eqn:Hlen.
  - apply Nat.ltb_lt in Hlen.
    by replace (5 <? S (length (getPosts ls)))%nat with false
      by (symmetry; apply Nat.ltb_ge; lia).
  - apply Nat.ltb_ge in Hlen.
    by replace (5 <? S (length (getPosts ls)))%nat with true
      by (symmetry; apply Nat.ltb_lt; lia).
Qed.



End StorageProofs.

Lemma registerUser_then_login_witness :
  ∃ u ls',
    Storage.registerUser ascii_browser "Ann" "2026-01-01T00:00:00.000Z" Storage.empty
      = (Storage.Return u, ls')
    ∧ Storage.loginUser ascii_browser "ANN" (Storage.logoutUser ls') = (Storage.Return u, ls')
    ∧ Storage.getCurrentUser ascii_browser ls' = Some u.
Proof.
  eexists _, _. split; [reflexivity|].
  destruct (registerUser_then_login ascii_browser "Ann" "2026-01-01T00:00:00.000Z"
              Storage.empty _ _ eq_refl)
    as (_ & _ & _ & _ & Hlogin & Hcur).
  split; [apply (Hlogin "ANN"%string); reflexivity | exact Hcur].
Defined.

Lemma registerUser_keeps_names_unique_witness :
  let ann := new_user "Ann" "2026-01-01T00:00:00.000Z" in
  let ls := Storage.with_USERS Storage.empty [ann] in
  Storage.registerUser ascii_browser "ANN" "2026-02-01T00:00:00.000Z" ls
    = (Storage.Throw (Storage.Error "Username taken"), ls)
  ∧ unique_names ascii_browser
      (Storage.getStorage
         (Storage.USERS (Storage.registerUser ascii_browser "Bob" "2026-02-01T00:00:00.000Z" ls).2) [])
  ∧ Storage.USERS (Storage.registerUser no_session "Bob" "2026-02-01T00:00:00.000Z" ls).2
    = Some (Storage.Holds [ann; new_user "Bob" "2026-02-01T00:00:00.000Z"]).
Proof.
  intros ann ls.
  pose proof (registerUser_keeps_names_unique ascii_browser "ANN"
                "2026-02-01T00:00:00.000Z" ls) as (Htaken & _ & _).
  pose proof (registerUser_keeps_names_unique ascii_browser "Bob"
                "2026-02-01T00:00:00.000Z" ls) as (_ & Huniq & _).
  pose proof (registerUser_keeps_names_unique no_session "Bob"
                "2026-02-01T00:00:00.000Z" ls) as (_ & _ & Hthrow).
  split; [|split].
  - apply (Htaken ann); [apply list_elem_of_here | reflexivity].
  - apply (Huniq _ _ eq_refl). apply NoDup_singleton.
  - destruct (Hthrow _ _ eq_refl) as (_ & _ & [Hsame | [_ Hnew]]).
    + discriminate Hsame.
    + exact Hnew.
Defined.

Lemma loginUser_session_witness :
  let ann := new_user "Ann" "2026-01-01T00:00:00.000Z" in
  let ls := Storage.with_USERS Storage.empty [ann] in
  Storage.loginUser ascii_browser "Bob" ls
    = (Storage.Throw (Storage.Error "User not found"), ls)
  ∧ Storage.getCurrentUser ascii_browser (Storage.loginUser ascii_browser "aNN" ls).2
    = Some ann.
Proof.
  intros ann ls. split.
  - apply (proj1 (loginUser_session ascii_browser "Bob" ls)).
    intros v Hv. apply list_elem_of_singleton in Hv as ->. discriminate.
  - by destruct (proj2 (loginUser_session ascii_browser "aNN" ls) _ _ eq_refl)
      as (_ & _ & _ & _ & Hcur).
Defined.

Lemma createPost_newest_first_witness :
  let ann := new_user "Ann" "2026-01-01T00:00:00.000Z" in
  let old := new_post ann "data:old" "old" Storage.image "a1" 1 in
  let ls := Storage.with_POSTS Storage.empty (replicate 15 old) in
  let r := Storage.createPost ascii_browser ann "data:new" "new" Storage.video "b2" 2 ls in
  r.1 = Storage.Return (new_post ann "data:new" "new" Storage.video "b2" 2)
  ∧ Storage.getPosts r.2
    = new_post ann "data:new" "new" Storage.video "b2" 2 :: replicate 14 old.
Proof.
  intros ann old ls r. split; [reflexivity|].
  destruct (createPost_newest_first ascii_browser ann "data:new" "new" Storage.video
              "b2" 2 ls _ _ eq_refl) as (_ & _ & _ & _ & _ & [Hall | [_ Hfull]]).
  - exact Hall.
  - discriminate Hfull.
Defined.

Lemma createPost_storage_full_witness :
  let ann := new_user "Ann" "2026-01-01T00:00:00.000Z" in
  let old := new_post ann "data:old" "old" Storage.image "a1" 1 in
  let new := new_post ann "data:new" "new" Storage.video "b2" 2 in
  Storage.createPost (posts_quota 5) ann "data:new" "new" Storage.video "b2" 2
      (Storage.with_POSTS Storage.empty (replicate 5 old))
    = (Storage.Return new,
       Storage.with_POSTS Storage.empty (new :: replicate 4 old))
  ∧ Storage.createPost (posts_quota 0) ann "data:new" "new" Storage.video "b2" 2
      Storage.empty
    = (Storage.Throw (Storage.Error "STORAGE FULL. DELETE POSTS."), Storage.empty).
Proof.
  intros ann old new. split.
  - exact (createPost_storage_full (posts_quota 5) ann "data:new" "new" Storage.video
             "b2" 2 (Storage.with_POSTS Storage.empty (replicate 5 old)) eq_refl).
  - exact (createPost_storage_full (posts_quota 0) ann "data:new" "new" Storage.video
             "b2" 2 Storage.empty eq_refl).
Defined.

